(** * Kapacitor: alert node, executing task and TICK lexer

    A shallow embedding of [alert.go] (level classification, flap
    detection, stream and batch dispatch), of [ExecutingTask] (start,
    stop, snapshots and the snapshotter, outputs, the batching entry
    points), and of the TICK lexer, with the properties proved about
    them.

    Conventions.
    - Go [int] values are [Z]; slices are lists indexed through
      [zlookup]/[zupdate], which return [None] where Go panics.
    - Go [float64] arithmetic is an interface ([Float64]); the rational
      numbers are one instance, used to run the definitions.
    - The [expr] and [models] packages are interfaces ([ExprPkg],
      [ModelsPkg]); [EvalPredicate] threads the state of the stateful
      expression it is given.
    - Logger output and handler invocations are collected in an event
      trace.
    - What a [select] receives is given as a list of events; a channel
      is [nil], open or closed. *)

From Stdlib Require Import ZArith QArith String Ascii List Lia Floats Uint63.
From stdpp Require Import base option list strings gmap.

Open Scope Z_scope.
Set Warnings "-clear-no-such-hyp".

(* ================================================================= *)
(** * Part I: definitions *)
(* ================================================================= *)

(** ** Go slices indexed by [int] *)

(** [s[i]]: [None] stands for the index-out-of-range panic. *)
Definition zlookup {A} (s : list A) (i : Z) : option A :=
  if decide (0 <= i) then s !! Z.to_nat i else None.

(** [s[i] = x]: [None] stands for the index-out-of-range panic. *)
Definition zupdate {A} (s : list A) (i : Z) (x : A) : option (list A) :=
  if decide (0 <= i < Z.of_nat (length s))
  then Some (<[Z.to_nat i := x]> s) else None.

(** [len(s)] *)
Definition zlen {A} (s : list A) : Z := Z.of_nat (length s).

(** [a % b] on [int]: truncated remainder, panics on [b = 0]. *)
Definition zrem (a b : Z) : option Z :=
  if decide (b = 0) then None else Some (Z.rem a b).

(** ** float64 *)

(** The operations of [float64] that [alert.go] uses.  [fconst] converts
    an untyped (exact) constant, [fofint] is the conversion
    [float64(n)]. *)
Class Float64 (F : Type) := {
  fconst : Q -> F;
  fofint : Z -> F;
  fadd : F -> F -> F;
  fsub : F -> F -> F;
  fdiv : F -> F -> F;
  flt : F -> F -> bool;
  fle : F -> F -> bool
}.


(** Exact rational arithmetic as an instance. *)
Definition Qltb (x y : Q) : bool := negb (Qle_bool y x).

#[export] Instance Q_Float64 : Float64 Q := {|
  fconst := fun q => q;
  fofint := inject_Z;
  fadd := Qplus;
  fsub := Qminus;
  fdiv := Qdiv;
  flt := Qltb;
  fle := Qle_bool
|}.

(** IEEE 754 binary64, the arithmetic of Go's [float64], as an
    instance.  A constant is converted by one correctly rounded
    division of its numerator by its denominator, which is the nearest
    float when both are below [2^53]. *)
Definition floatOfZ (z : Z) : float :=
  if z <? 0 then PrimFloat.opp (PrimFloat.of_uint63 (Uint63.of_Z (- z)))
  else PrimFloat.of_uint63 (Uint63.of_Z z).

#[export] Instance binary64 : Float64 float := {|
  fconst := fun q => PrimFloat.div (floatOfZ (Qnum q)) (floatOfZ (Zpos (Qden q)));
  fofint := floatOfZ;
  fadd := PrimFloat.add;
  fsub := PrimFloat.sub;
  fdiv := PrimFloat.div;
  flt := PrimFloat.ltb;
  fle := PrimFloat.leb
|}.

(** ** The [expr] and [models] packages *)

(** Go [error] values, by their message. *)
Definition error := string.

Inductive ReturnType := ReturnBool | ReturnNum.

(** What [alert.go] uses of package [expr], and [EvalPredicate].
    [EvalPredicate se fields tags] returns the Go pair [(pass, err)]
    and the state of [se] after the evaluation. *)
Class ExprPkg := {
  Tree : Type;
  Funcs : Type;
  Fields : Type;
  ParseForType : string -> ReturnType -> Tree + error;
  Functions : Funcs;
  EvalPredicate : Tree * Funcs -> Fields -> gmap string string ->
                  (bool * option error) * (Tree * Funcs)
}.

(** [expr.StatefulExpr{tree, funcs}] *)
Definition StatefulExpr `{ExprPkg} : Type := (Tree * Funcs)%type.

(** What [alert.go] uses of packages [models] and [influxql]. *)
Class ModelsPkg := {
  Time : Type;
  GroupID : Type;
  Row : Type
}.

Section Models.
Context `{ExprPkg} `{ModelsPkg}.

Record Point := {
  p_Name : string;
  p_Group : GroupID;
  p_Tags : gmap string string;
  p_Time : Time;
  p_Fields : Fields
}.

Record TimeFields := {
  tf_Time : Time;
  tf_Fields : Fields
}.

Record Batch := {
  b_Name : string;
  b_Group : GroupID;
  b_Tags : gmap string string;
  b_Points : list TimeFields
}.

(** [influxql.Result{Series: imodels.Rows{row}}] *)
Record Result := {
  Series : list Row
}.

End Models.

(** ** alert.go *)

Definition defaultFlapHistory : Z := 21.
Definition weightDiff : Q := 15 # 10.
Definition maxWeight : Q := 12 # 10.

Definition AlertLevel := Z.
Definition NoAlert : AlertLevel := 0.
Definition InfoAlert : AlertLevel := 1.
Definition WarnAlert : AlertLevel := 2.
Definition CritAlert : AlertLevel := 3.

(** [AlertLevel.String]; [None] is the panic of the default case. *)
Definition AlertLevel_String (l : AlertLevel) : option string :=
  if decide (l = NoAlert) then Some "noalert"%string
  else if decide (l = InfoAlert) then Some "INFO"%string
  else if decide (l = WarnAlert) then Some "WARNING"%string
  else if decide (l = CritAlert) then Some "CRITICAL"%string
  else None.

(** [AlertLevel.MarshalText] *)
Definition AlertLevel_MarshalText (l : AlertLevel) : option string :=
  AlertLevel_String l.

Inductive EdgeType := StreamEdge | BatchEdge.

(** The two handlers [newAlertNode] can install. *)
Inductive AlertHandler := handlePost | handleEmail.

Section Alert.
Context {F : Type} `{Float64 F} `{ExprPkg} `{ModelsPkg}.
Context (BatchToRow : Batch -> Row).

Record AlertData := {
  ad_Level : AlertLevel;
  ad_Data : Result
}.

(** What the node does to the outside: a logger line, or a call of a
    handler. *)
Inductive AlertEvent :=
| Logged (line : string)
| Handled (h : AlertHandler) (ad : AlertData).

(** [pipeline.AlertNode], the fields read by [alert.go], and the edge
    type [Wants()] returns. *)
Record pipeline_AlertNode := {
  Wants : EdgeType;
  Post : string;
  From : string;
  ToList : list string;
  Subject : string;
  Info : string;
  Warn : string;
  Crit : string;
  UseFlapping : bool;
  History : Z;
  FlapLow : F;
  FlapHigh : F
}.

Record AlertNode := {
  a : pipeline_AlertNode;
  handlers : list AlertHandler;
  levels : list (option StatefulExpr);
  history : list AlertLevel;
  hIdx : Z;
  flapping : bool
}.

Definition set_levels (an : AlertNode) (ls : list (option StatefulExpr)) : AlertNode :=
  {| a := a an; handlers := handlers an; levels := ls;
     history := history an; hIdx := hIdx an; flapping := flapping an |}.

Definition set_flap (an : AlertNode) (h : list AlertLevel) (i : Z) (fl : bool) : AlertNode :=
  {| a := a an; handlers := handlers an; levels := levels an;
     history := h; hIdx := i; flapping := fl |}.

(** One level expression of [newAlertNode]: the slot is left [nil] for
    an empty source, else it holds the parsed expression with a fresh
    function registry. *)
Definition parseLevel (src : string) : option StatefulExpr + error :=
  if decide (src = EmptyString) then inl None
  else match ParseForType src ReturnBool with
       | inl tree => inl (Some (tree, Functions))
       | inr err => inr err
       end.

(** [newAlertNode].  The allocation [make([]AlertLevel, history)] is
    taken to succeed: a length the runtime cannot allocate makes it
    panic. *)
Definition newAlertNode (n : pipeline_AlertNode) : AlertNode + error :=
  let hs := (if decide (Post n <> EmptyString) then [handlePost] else [])
            ++ (if decide (From n <> EmptyString /\ length (ToList n) <> 0%nat)
                then [handleEmail] else []) in
  match parseLevel (Info n) with
  | inr err => inr err
  | inl info =>
  match parseLevel (Warn n) with
  | inr err => inr err
  | inl warn =>
  match parseLevel (Crit n) with
  | inr err => inr err
  | inl crit =>
    let lv := [None; info; warn; crit] in
    if UseFlapping n then
      let history := if decide (History n = 0) then defaultFlapHistory else History n in
      if decide (history < 2) then inr "alert history count must be >= 2"%string
      else if flt (fconst 1) (FlapLow n) || flt (fconst 1) (FlapHigh n)
      then inr "alert flap thresholds are percentages and should be between 0 and 1"%string
      else inl {| a := n; handlers := hs; levels := lv;
                  history := replicate (Z.to_nat history) NoAlert;
                  hIdx := 0; flapping := false |}
    else inl {| a := n; handlers := hs; levels := lv;
                history := []; hIdx := 0; flapping := false |}
  end end end.

(** The loop of [determineLevel] from index [l] on, over the rest of
    [a.levels]; [level] is the named result.  Returns the level, the
    expressions after evaluation and the logger lines. *)
Fixpoint determineLevel_from (l : Z) (ls : list (option StatefulExpr))
    (fields : Fields) (tags : gmap string string) (level : AlertLevel)
    : AlertLevel * list (option StatefulExpr) * list AlertEvent :=
  match ls with
  | [] => (level, [], [])
  | None :: rest =>
      let '(r, rest', log) := determineLevel_from (l + 1) rest fields tags level in
      (r, None :: rest', log)
  | Some se :: rest =>
      let '((pass, err), se') := EvalPredicate se fields tags in
      if pass then
        let '(r, rest', log) := determineLevel_from (l + 1) rest fields tags l in
        (r, Some se' :: rest', log)
      else match err with
           | Some e =>
               (level, Some se' :: rest,
                [Logged ("E! error evaluating expression: " ++ e)%string])
           | None => (level, Some se' :: rest, [])
           end
  end.

Definition determineLevel (an : AlertNode) (fields : Fields)
    (tags : gmap string string) : AlertLevel * AlertNode * list AlertEvent :=
  let '(level, ls, log) := determineLevel_from 0 (levels an) fields tags NoAlert in
  (level, set_levels an ls, log).

Definition batchToResult (b : Batch) : Result :=
  {| Series := [BatchToRow b] |}.

(** The loop [for i := 1; i < l; i++] of [updateFlapping], with [n]
    iterations left. *)
Fixpoint flapChanges (n : nat) (i : Z) (hist : list AlertLevel) (idx l : Z)
    (changes weight step : F) : option F :=
  match n with
  | O => Some changes
  | S n' =>
      c ← zrem (i + idx) l;
      let p := c - 1 in
      let p := if decide (p < 0) then l - 1 else p in
      hc ← zlookup hist c;
      hp ← zlookup hist p;
      let changes := if decide (hc <> hp) then fadd changes weight else changes in
      flapChanges n' (i + 1) hist idx l changes (fadd weight step) step
  end.

(** The score [p] that [updateFlapping] computes once the level is
    written and the index advanced. *)
Definition flapScore (hist : list AlertLevel) (idx : Z) : option F :=
  let l := zlen hist in
  let weight := fconst (maxWeight / weightDiff) in
  let step := fdiv (fsub (fconst maxWeight) weight) (fofint (l - 1)) in
  changes ← flapChanges (Z.to_nat (l - 1)) 1 hist idx l (fconst 0) weight step;
  Some (fdiv changes (fofint (l - 1))).

(** The first two statements of [updateFlapping]: the level is written
    at the ring index and the index advances. *)
Definition flapWrite (an : AlertNode) (level : AlertLevel) : option (list AlertLevel * Z) :=
  hist ← zupdate (history an) (hIdx an) level;
  idx ← zrem (hIdx an + 1) (zlen hist);
  Some (hist, idx).

Definition updateFlapping (an : AlertNode) (level : AlertLevel) : option AlertNode :=
  '(hist, idx) ← flapWrite an level;
  p ← flapScore hist idx;
  let fl := if flapping an && flt p (FlapLow (a an)) then false
            else if negb (flapping an) && flt (FlapHigh (a an)) p then true
            else flapping an in
  Some (set_flap an hist idx fl).

(** The score [p] of the call [updateFlapping an level]. *)
Definition tickScore (an : AlertNode) (level : AlertLevel) : option F :=
  '(hist, idx) ← flapWrite an level;
  flapScore hist idx.

(** [for _, h := range a.handlers { h(ad) }] *)
Definition callHandlers (an : AlertNode) (ad : AlertData) : list AlertEvent :=
  map (fun h => Handled h ad) (handlers an).

(** The batch that the stream path builds from one point. *)
Definition pointBatch (p : Point) : Batch :=
  {| b_Name := p_Name p; b_Group := p_Group p; b_Tags := p_Tags p;
     b_Points := [{| tf_Time := p_Time p; tf_Fields := p_Fields p |}] |}.

(** Body of the stream loop of [runAlert]. *)
Definition alertPoint (an : AlertNode) (p : Point) : option (AlertNode * list AlertEvent) :=
  let '(l, an, log) := determineLevel an (p_Fields p) (p_Tags p) in
  let send (an : AlertNode) :=
    if decide (l > NoAlert)
    then callHandlers an {| ad_Level := l; ad_Data := batchToResult (pointBatch p) |}
    else [] in
  if UseFlapping (a an) then
    an ← updateFlapping an l;
    if flapping an then Some (an, log)
    else Some (an, log ++ send an)
  else Some (an, log ++ send an).

(** The walk [for _, p := range b.Points] of the batch path; the
    boolean is [triggered]. *)
Fixpoint alertBatchPoints (an : AlertNode) (b : Batch) (pts : list TimeFields)
    : option (bool * AlertNode * list AlertEvent) :=
  match pts with
  | [] => Some (false, an, [])
  | p :: rest =>
      let '(l, an, log) := determineLevel an (tf_Fields p) (b_Tags b) in
      if decide (l > NoAlert) then
        let ad := {| ad_Level := l; ad_Data := batchToResult b |} in
        if UseFlapping (a an) then
          an ← updateFlapping an l;
          if flapping an then Some (true, an, log)
          else Some (true, an, log ++ callHandlers an ad)
        else Some (true, an, log ++ callHandlers an ad)
      else
        '(triggered, an, evs) ← alertBatchPoints an b rest;
        Some (triggered, an, log ++ evs)
  end.

(** Body of the batch loop of [runAlert]. *)
Definition alertBatch (an : AlertNode) (b : Batch) : option (AlertNode * list AlertEvent) :=
  '(triggered, an, evs) ← alertBatchPoints an b (b_Points b);
  if negb triggered && UseFlapping (a an) then
    an ← updateFlapping an NoAlert;
    Some (an, evs)
  else Some (an, evs).

(** An input edge, by what [NextPoint] and [NextBatch] deliver until it
    is closed. *)
Record Edge := {
  points : list Point;
  batches : list Batch
}.

(** A loop [for x, ok := next(); ok; x, ok = next()] over the items of
    an edge. *)
Fixpoint drain {A} (body : AlertNode -> A -> option (AlertNode * list AlertEvent))
    (an : AlertNode) (items : list A) : option (AlertNode * list AlertEvent) :=
  match items with
  | [] => Some (an, [])
  | x :: rest =>
      '(an, evs) ← body an x;
      '(an, evs') ← drain body an rest;
      Some (an, evs ++ evs')
  end.

(** [runAlert]; the result error is always [nil], so only the node and
    the trace are returned.  [None] is a panic. *)
Definition runAlert (an : AlertNode) (ins : list Edge) : option (AlertNode * list AlertEvent) :=
  match Wants (a an) with
  | StreamEdge => in0 ← zlookup ins 0; drain alertPoint an (points in0)
  | BatchEdge => in0 ← zlookup ins 0; drain alertBatch an (batches in0)
  end.

(** *** Notions the properties of the alert node are stated with *)

(** The configured predicates of [ls], each with its index, in
    ascending order; [l] is the index of the head of [ls]. *)
Fixpoint configured (l : Z) (ls : list (option StatefulExpr)) : list (Z * StatefulExpr) :=
  match ls with
  | [] => []
  | None :: rest => configured (l + 1) rest
  | Some se :: rest => (l, se) :: configured (l + 1) rest
  end.

(** The predicate of a configured level returns true on the record. *)
Definition passes (fields : Fields) (tags : gmap string string)
    (c : Z * StatefulExpr) : bool :=
  fst (fst (EvalPredicate (snd c) fields tags)).

(** The logger lines of a predicate that did not return true. *)
Definition errorLog (fields : Fields) (tags : gmap string string)
    (c : Z * StatefulExpr) : list AlertEvent :=
  match snd (fst (EvalPredicate (snd c) fields tags)) with
  | Some e => [Logged ("E! error evaluating expression: " ++ e)%string]
  | None => []
  end.

(** The state of a predicate after its evaluation on the record. *)
Definition evaluated (fields : Fields) (tags : gmap string string)
    (c : Z * StatefulExpr) : StatefulExpr :=
  snd (EvalPredicate (snd c) fields tags).

(** The level of the last entry of a list of configured levels, or
    [level] for the empty list. *)
Definition lastLevel (level : AlertLevel) (cs : list (Z * StatefulExpr)) : AlertLevel :=
  List.last (map fst cs) level.

(** The highest level among the configured ones whose predicate
    returns true on the record, [NoAlert] when there is none. *)
Definition highestPassing (ls : list (option StatefulExpr)) (fields : Fields)
    (tags : gmap string string) : AlertLevel :=
  lastLevel NoAlert (filter (fun c => passes fields tags c = true) (configured 0 ls)).

(** The ring from its oldest to its newest entry, [idx] being the slot
    written next. *)
Definition ringOrder (hist : list AlertLevel) (idx : Z) : list AlertLevel :=
  drop (Z.to_nat idx) hist ++ take (Z.to_nat idx) hist.

(** Walk of adjacent pairs: [prev] is the entry before the head of
    [rest]; a pair of differing levels adds the current weight, and the
    weight grows by [step] after every pair. *)
Fixpoint weightedChanges (prev : AlertLevel) (rest : list AlertLevel)
    (changes weight step : F) : F :=
  match rest with
  | [] => changes
  | c :: rest' =>
      weightedChanges c rest'
        (if decide (c <> prev) then fadd changes weight else changes)
        (fadd weight step) step
  end.

(** The score of a ring of [H] entries read from oldest to newest:
    [weight0 = maxWeight / weightDiff],
    [step = (maxWeight - weight0) / (H - 1)], [p = changes / (H - 1)]. *)
Definition ringScore (ring : list AlertLevel) : F :=
  let H1 := fofint (zlen ring - 1) in
  let weight0 := fconst (maxWeight / weightDiff) in
  let step := fdiv (fsub (fconst maxWeight) weight0) H1 in
  match ring with
  | [] => fdiv (fconst 0) H1
  | oldest :: rest => fdiv (weightedChanges oldest rest (fconst 0) weight0 step) H1
  end.


(** One tick of flap detection as the specification words it: write the
    level at the index, advance the index modulo the history length,
    score the ring from oldest to newest, then clear the flag when
    flapping and [p < flap_low], set it when not flapping and
    [p > flap_high], and leave it otherwise. *)
Definition flapTick (an : AlertNode) (level : AlertLevel) : AlertNode :=
  let hist := <[Z.to_nat (hIdx an) := level]> (history an) in
  let idx := (hIdx an + 1) mod zlen (history an) in
  let p := ringScore (ringOrder hist idx) in
  let fl := if flapping an
            then (if flt p (FlapLow (a an)) then false else true)
            else (if flt (FlapHigh (a an)) p then true else false) in
  set_flap an hist idx fl.

(** The newest entry of the ring: the slot before [hIdx]. *)
Definition newestLevel (an : AlertNode) : option AlertLevel :=
  zlookup (history an) (if decide (hIdx an = 0) then zlen (history an) - 1 else hIdx an - 1).

(** The points [pts] classified in order, each on the expression state
    the previous one left: the levels, the node after the last point
    and the logger lines. *)
Fixpoint classifyPoints (an : AlertNode) (tags : gmap string string)
    (pts : list TimeFields) : list AlertLevel * AlertNode * list AlertEvent :=
  match pts with
  | [] => ([], an, [])
  | p :: rest =>
      let '(l, an, log) := determineLevel an (tf_Fields p) tags in
      let '(ls, an, log') := classifyPoints an tags rest in
      (l :: ls, an, log ++ log')
  end.

(** The node after the flap update of [runAlert]: one tick when flap
    detection is enabled, the node itself otherwise. *)
Definition afterFlap (an : AlertNode) (level : AlertLevel) : AlertNode :=
  if UseFlapping (a an) then flapTick an level else an.

(** The calls [runAlert] makes for a level and a batch: none while
    flapping, else every configured handler once, with the level and the
    result whose one series is the row of that batch. *)
Definition dispatched (an : AlertNode) (level : AlertLevel) (b : Batch) : list AlertEvent :=
  if flapping an then []
  else map (fun h => Handled h {| ad_Level := level;
                                  ad_Data := {| Series := [BatchToRow b] |} |})
           (handlers an).

(** A handler call carries a level above [NoAlert] whose text, the
    [level] field of the serialized payload, is a name of an alert. *)
Definition emitsAlertLevel (e : AlertEvent) : Prop :=
  match e with
  | Logged _ => True
  | Handled _ ad =>
      ad_Level ad > NoAlert /\
      AlertLevel_MarshalText (ad_Level ad)
        ∈ [Some "INFO"%string; Some "WARNING"%string; Some "CRITICAL"%string]
  end.

(** What [newAlertNode] establishes and every step of [runAlert]
    keeps: four level slots, and with flap detection a ring of at least
    two entries with the index inside it; without it the node never
    flaps. *)
Definition AlertNode_ok (an : AlertNode) : Prop :=
  length (levels an) = 4%nat /\
  (UseFlapping (a an) = true -> 2 <= zlen (history an) /\ 0 <= hIdx an < zlen (history an)) /\
  (UseFlapping (a an) = false -> flapping an = false).

End Alert.

(** ** task.go *)

(** A Go [[]byte]; [None] is the [nil] slice. *)
Definition bytes := option (list Byte.byte).

(** A runtime node, by its name and by what its [snapshot()] returns
    when asked. *)
Record Node := {
  Name : string;
  snapshot : bytes + error
}.

Record TaskSnapshot := {
  NodeSnapshots : gmap string bytes
}.

Section Task.
Context {EdgeT : Type}.

(** The fields of [ExecutingTask] and of its [Task] that [start] and
    [Snapshot] read. *)
Record ExecutingTask := {
  source : Node;
  nodes : list Node;
  SnapshotInterval : Z
}.

(** [walk]: applies [f] to the nodes in order and stops at the first
    error.  [f] is a closure; [S] is the state it captures. *)
Fixpoint walk_nodes {S} (f : Node -> S -> S * option error) (ns : list Node) (s : S)
    : S * option error :=
  match ns with
  | [] => (s, None)
  | n :: rest =>
      let '(s, err) := f n s in
      match err with
      | Some e => (s, Some e)
      | None => walk_nodes f rest s
      end
  end.

Definition walk {S} (et : ExecutingTask) (f : Node -> S -> S * option error) (s : S)
    : S * option error :=
  walk_nodes f (nodes et) s.

(** What [start] does to the nodes and to the scheduler. *)
Inductive StartEvent :=
| AddedParentEdge (n : Node) (e : EdgeT)
| Started (n : Node) (state : bytes)
| SnapshotterSpawned.

(** [m[k]] on a Go map: the zero value for a missing key. *)
Definition mapIndex (m : gmap string bytes) (k : string) : bytes :=
  match m !! k with
  | Some v => v
  | None => None
  end.

(** The flag [validSnapshot] that [start] computes. *)
Definition validSnapshot (et : ExecutingTask) (snapshot : option TaskSnapshot) : bool :=
  match snapshot with
  | None => false
  | Some snap =>
      let '(_, err) :=
        walk et (fun n (_ : unit) =>
          match NodeSnapshots snap !! Name n with
          | Some _ => (tt, None)
          | None => (tt, Some "task pipeline changed not using snapshot"%string)
          end) tt in
      match err with None => true | Some _ => false end
  end.

(** [ExecutingTask.start]: the calls made, in order, and the error
    returned. *)
Definition start (et : ExecutingTask) (ins : list EdgeT) (snapshot : option TaskSnapshot)
    : list StartEvent * option error :=
  let evs := map (AddedParentEdge (source et)) ins in
  let valid := validSnapshot et snapshot in
  let '(evs, err) :=
    walk et (fun n evs =>
      let state :=
        if valid then
          match snapshot with
          | Some snap => mapIndex (NodeSnapshots snap) (Name n)
          | None => None
          end
        else None in
      (evs ++ [Started n state], None)) evs in
  match err with
  | Some e => (evs, Some e)
  | None =>
      if decide (SnapshotInterval et > 0)
      then (evs ++ [SnapshotterSpawned], None)
      else (evs, None)
  end.

(** [ExecutingTask.Snapshot] *)
Definition Snapshot (et : ExecutingTask) : TaskSnapshot + error :=
  let '(m, err) :=
    walk et (fun n (m : gmap string bytes) =>
      match snapshot n with
      | inr e => (m, Some e)
      | inl data => (<[Name n := data]> m, None)
      end) ∅ in
  match err with
  | Some e => inr e
  | None => inl {| NodeSnapshots := m |}
  end.

(** The names of the task's nodes. *)
Definition nodeNames (et : ExecutingTask) : gset string :=
  list_to_set (map Name (nodes et)).

(** Every runtime node's name is a key of the snapshot. *)
Definition snapshotCovers (et : ExecutingTask) (snap : TaskSnapshot) : Prop :=
  Forall (fun n => Name n ∈ dom (NodeSnapshots snap)) (nodes et).

#[global] Instance snapshotCovers_dec (et : ExecutingTask) (snap : TaskSnapshot) :
  Decision (snapshotCovers et snap) :=
  Forall_dec (fun n => Name n ∈ dom (NodeSnapshots snap)) (nodes et).

(** The calls [start] makes when every node is started with the state
    [state] gives it: the parent edges of the source, the nodes in walk
    order, and the snapshotter when an interval is set. *)
Definition startCalls (et : ExecutingTask) (ins : list EdgeT) (state : Node -> bytes)
    : list StartEvent :=
  map (AddedParentEdge (source et)) ins
  ++ map (fun n => Started n (state n)) (nodes et)
  ++ (if decide (SnapshotInterval et > 0) then [SnapshotterSpawned] else []).

(** The bytes a node hands out, [nil] when its [snapshot()] fails. *)
Definition snapshotData (n : Node) : bytes :=
  match snapshot n with
  | inl data => data
  | inr _ => None
  end.

(** The map [Snapshot] fills: one write per node, in walk order. *)
Definition writeSnapshots (m : gmap string bytes) (ns : list Node) : gmap string bytes :=
  foldl (fun m n => <[Name n := snapshotData n]> m) m ns.

End Task.

(** Two nodes and tasks over them, to run [start] and [Snapshot]. *)
Definition toyBytes (s : string) : bytes := Some (String.list_byte_of_string s).

Definition toyNodeA : Node := {| Name := "stream0"; snapshot := inl (toyBytes "a") |}.
Definition toyNodeB : Node := {| Name := "alert1"; snapshot := inl (toyBytes "b") |}.

Definition toyTaskA : ExecutingTask :=
  {| source := toyNodeA; nodes := [toyNodeA]; SnapshotInterval := 0 |}.

Definition toyTaskAB : ExecutingTask :=
  {| source := toyNodeA; nodes := [toyNodeA; toyNodeB]; SnapshotInterval := 0 |}.

(** The snapshot of the two-node task. *)
Definition toySnapshotAB : TaskSnapshot :=
  {| NodeSnapshots := <[ "alert1"%string := toyBytes "b" ]>
                        (<[ "stream0"%string := toyBytes "a" ]> ∅) |}.

(** ** A small instance of the interfaces, to run the definitions *)

(** Predicates over a record with one integer field [value]:
    [Above n] is [value > n]; [Broken] refers to a field the record
    lacks, so its evaluation fails. *)
Inductive ToyTree := Above (n : Z) | Broken.

Definition toyParse (src : string) (rt : ReturnType) : ToyTree + error :=
  if decide (src = "value > 90"%string) then inl (Above 90)
  else if decide (src = "value > 50"%string) then inl (Above 50)
  else if decide (src = "value > 10"%string) then inl (Above 10)
  else if decide (src = "missing > 0"%string) then inl Broken
  else inr "parse error"%string.

(** The function registry counts the evaluations, as a stateful
    expression would. *)
Definition toyEval (se : ToyTree * nat) (value : Z) (tags : gmap string string)
    : (bool * option error) * (ToyTree * nat) :=
  match fst se with
  | Above n => ((bool_decide (value > n), None), (fst se, S (snd se)))
  | Broken => ((false, Some "name not defined"%string), (fst se, S (snd se)))
  end.

#[export] Instance toyExpr : ExprPkg := {|
  Tree := ToyTree;
  Funcs := nat;
  Fields := Z;
  ParseForType := toyParse;
  Functions := 0%nat;
  EvalPredicate := toyEval
|}.

#[export] Instance toyModels : ModelsPkg := {|
  Time := Z;
  GroupID := string;
  Row := (string * nat)%type
|}.

(** A row that keeps the name of the batch and the number of its
    points. *)
Definition toyBatchToRow (b : Batch) : Row := (b_Name b, length (b_Points b)).

(** A stream alert with an info and a crit predicate and no flap
    detection. *)
Definition toyConfig (info crit : string) : pipeline_AlertNode (F := Q) :=
  {| Wants := StreamEdge; Post := "http://localhost/alert"; From := EmptyString;
     ToList := []; Subject := EmptyString;
     Info := info; Warn := EmptyString; Crit := crit;
     UseFlapping := false; History := 0; FlapLow := 0%Q; FlapHigh := 0%Q |}.

(** The node [newAlertNode] builds from [toyConfig]. *)
Definition toyNode (info crit : ToyTree) (cfg : pipeline_AlertNode (F := Q)) : AlertNode :=
  {| a := cfg; handlers := [handlePost];
     levels := [None; Some (info, 0%nat); None; Some (crit, 0%nat)];
     history := []; hIdx := 0; flapping := false |}.

(** Info is [value > 90] and crit is [value > 50]: on [value = 60] the
    lower predicate fails and the higher one passes. *)
Definition toyStopped : AlertNode :=
  toyNode (Above 90) (Above 50) (toyConfig "value > 90" "value > 50").

(** Info is [value > 10] and crit is [value > 50]: on [value = 60] both
    pass. *)
Definition toyClosed : AlertNode :=
  toyNode (Above 10) (Above 50) (toyConfig "value > 10" "value > 50").

(** A configuration with flap detection and the given history length
    and thresholds. *)
Definition toyFlapConfig {F : Type} (wants : EdgeType) (hist : Z) (low high : F)
    : pipeline_AlertNode (F := F) :=
  {| Wants := wants; Post := "http://localhost/alert"; From := EmptyString;
     ToList := []; Subject := EmptyString;
     Info := EmptyString; Warn := EmptyString; Crit := "value > 90";
     UseFlapping := true; History := hist; FlapLow := low; FlapHigh := high |}.

(** The node [newAlertNode] builds from [toyFlapConfig] with a history
    of [n] entries. *)
Definition toyFlapNode {F : Type} (n : nat) (cfg : pipeline_AlertNode (F := F))
    : AlertNode :=
  {| a := cfg; handlers := [handlePost];
     levels := [None; None; None; Some (Above 90, 0%nat)];
     history := replicate n NoAlert; hIdx := 0; flapping := false |}.

(** Flap detection over a history of four entries with thresholds
    [flap_low = 1/4] and [flap_high = 1/2]. *)
Definition toyFlap4 : AlertNode (F := Q) :=
  toyFlapNode 4 (toyFlapConfig StreamEdge 4 (1 # 4) (1 # 2)).

(** The flap state after a sequence of levels. *)
Definition feedLevels {F} `{Float64 F} (an : AlertNode (F := F)) (ls : list AlertLevel)
    : option AlertNode :=
  foldl (fun o l => an ← o; updateFlapping an l) (Some an) ls.

(** The same node over binary64, with thresholds 0.25 and 0.5. *)
Definition toyFlap4Float : AlertNode (F := float) :=
  toyFlapNode 4 (toyFlapConfig StreamEdge 4 0.25%float 0.5%float).

(** Every ring of [n] entries over the four levels. *)
Fixpoint allRings (n : nat) : list (list AlertLevel) :=
  match n with
  | O => [[]]
  | S n' => ring ← allRings n';
            (fun l => l :: ring) <$> [NoAlert; InfoAlert; WarnAlert; CritAlert]
  end.

(** On the ring [hist] with index [idx]: the score of a tick with any
    level other than the newest one is at least the score of the tick
    with the newest level again. *)
Definition scoreMonotoneOn {F} `{Float64 F} (cfg : pipeline_AlertNode (F := F))
    (hist : list AlertLevel) (idx : Z) : bool :=
  let an := set_flap (toyFlapNode 0 cfg) hist idx false in
  match newestLevel an with
  | None => false
  | Some y =>
      forallb (fun x =>
                 if decide (x = y) then true
                 else match tickScore an x, tickScore an y with
                      | Some px, Some py => fle py px
                      | _, _ => false
                      end)
              [NoAlert; InfoAlert; WarnAlert; CritAlert]
  end.

(** A point and a batch of the series [cpu]. *)
Definition toyPoint (value : Z) : Point :=
  {| p_Name := "cpu"; p_Group := "host=a"; p_Tags := {[ "host"%string := "a"%string ]};
     p_Time := 1; p_Fields := value |}.

Definition toyTimeFields (value : Z) : TimeFields :=
  {| tf_Time := 1; tf_Fields := value |}.

Definition toyBatch (values : list Z) : Batch :=
  {| b_Name := "cpu"; b_Group := "host=a"; b_Tags := {[ "host"%string := "a"%string ]};
     b_Points := map toyTimeFields values |}.

(** The batch alert with flap detection over four entries. *)
Definition toyFlap4Batch : AlertNode (F := Q) :=
  toyFlapNode 4 (toyFlapConfig BatchEdge 4 (1 # 4) (1 # 2)).

(** ** tick/lex.go *)

(** Modelled from the spec: the lexer of package [tick] ([lex],
    [nextToken] and the state functions), of which only the test
    [lex_test.go] is available.  The token kinds and the shape of a
    token are those the test uses; the lexical rules are those of the
    specification (section 4.1): whitespace and line comments are
    skipped, operators are read by maximal munch, a number is digits
    with an optional fraction, a duration is a number followed by a
    unit, a slash opens a regex only after [=~], [!~] or [=], and the
    position of a token is the byte offset of its first character. *)
Inductive tokenType :=
| TokenError | TokenEOF | TokenVar | TokenAsgn | TokenDot | TokenIdent
| TokenReference | TokenNumber | TokenString | TokenDuration
| TokenLParen | TokenRParen | TokenNot | TokenTrue | TokenFalse | TokenRegex
| TokenPlus | TokenMinus | TokenMult | TokenDiv
| TokenAnd | TokenOr
| TokenEqual | TokenNotEqual | TokenLess | TokenGreater
| TokenLessEqual | TokenGreaterEqual | TokenRegexEqual | TokenRegexNotEqual.

#[global] Instance tokenType_eq_dec : EqDecision tokenType.
Proof. solve_decision. Defined.

(** [token{typ, pos, val}] *)
Record token := {
  typ : tokenType;
  pos : nat;
  val : string
}.

#[global] Instance token_eq_dec : EqDecision token.
Proof. solve_decision. Defined.

Section Lexer.
Local Open Scope char_scope.
Local Open Scope nat_scope.

Definition isDigit (c : ascii) : bool :=
  (48 <=? nat_of_ascii c) && (nat_of_ascii c <=? 57).

Definition isLetter (c : ascii) : bool :=
  ((65 <=? nat_of_ascii c) && (nat_of_ascii c <=? 90))
  || ((97 <=? nat_of_ascii c) && (nat_of_ascii c <=? 122))
  || Ascii.eqb c "_".

Definition isSpace (c : ascii) : bool :=
  Ascii.eqb c " " || Ascii.eqb c (ascii_of_nat 9) || Ascii.eqb c (ascii_of_nat 10).

(** The double quote. *)
Definition dquote : ascii := ascii_of_nat 34.

(** Length of the longest prefix of characters satisfying [p]. *)
Fixpoint spanLen (p : ascii -> bool) (s : list ascii) : nat :=
  match s with
  | c :: s' => if p c then S (spanLen p s') else 0
  | [] => 0
  end.

(** [s] starts with the characters of [w]. *)
Fixpoint startsWith (w : list ascii) (s : list ascii) : bool :=
  match w, s with
  | [], _ => true
  | a :: w', c :: s' => Ascii.eqb a c && startsWith w' s'
  | _ :: _, [] => false
  end.

(** Number: digits with an optional fraction, by its length. *)
Definition numberLen (s : list ascii) : nat :=
  let n := spanLen isDigit s in
  let m := spanLen isDigit (drop (n + 1) s) in
  if startsWith ["."] (drop n s) && negb (m =? 0) then n + 1 + m else n.

(** Length of the duration unit at the head of [s], 0 when there is
    none: [ms] before [m]; the micro sign takes two bytes. *)
Definition unitLen (s : list ascii) : nat :=
  if startsWith ["m"; "s"] s then 2
  else if startsWith ["u"] s || startsWith ["s"] s || startsWith ["m"] s
          || startsWith ["h"] s || startsWith ["d"] s || startsWith ["w"] s then 1
  else if startsWith [ascii_of_nat 194; ascii_of_nat 181] s then 2
  else 0.

(** Body of a quoted literal after its opening quote: the number of
    characters up to and including the first [q] not preceded by a
    backslash; [esc] tells whether the previous character was a
    backslash.  [None] when the literal is not terminated. *)
Fixpoint quotedLen (q : ascii) (esc : bool) (s : list ascii) : option nat :=
  match s with
  | [] => None
  | c :: s' =>
      if Ascii.eqb c q && negb esc then Some 1
      else S <$> quotedLen q (Ascii.eqb c "\") s'
  end.

(** Three single quotes at the head of [s]. *)
Definition startsTriple (s : list ascii) : bool :=
  startsWith ["'"; "'"; "'"] s.

(** Body of a triple-quoted string after its opening quotes, up to and
    including the first closing triple quote not preceded by a
    backslash. *)
Fixpoint tripleLen (esc : bool) (s : list ascii) : option nat :=
  match s with
  | [] => None
  | c :: s' =>
      if startsTriple s && negb esc then Some 3
      else S <$> tripleLen (Ascii.eqb c "\") s'
  end.

(** A line comment: up to and including the next newline. *)
Fixpoint commentLen (s : list ascii) : nat :=
  match s with
  | [] => 0
  | c :: s' => if Ascii.eqb c (ascii_of_nat 10) then 1 else S (commentLen s')
  end.

(** Reserved words lex to their own kinds. *)
Definition keyword (w : string) : tokenType :=
  if String.eqb w "AND" then TokenAnd
  else if String.eqb w "OR" then TokenOr
  else if String.eqb w "TRUE" then TokenTrue
  else if String.eqb w "FALSE" then TokenFalse
  else if String.eqb w "var" then TokenVar
  else TokenIdent.

(** A regex is lexed only right after [=~], [!~] or [=]. *)
Definition regexContext (prev : option tokenType) : bool :=
  match prev with
  | Some TokenRegexEqual | Some TokenRegexNotEqual | Some TokenAsgn => true
  | _ => false
  end.

(** What the lexer does at the head of a non-empty input: skip [n]
    characters, emit a token of [n] characters, or stop with an
    error. *)
Inductive lexAction :=
| Skip (n : nat)
| Emit (k : tokenType) (n : nat)
| Stop (msg : string).

(** One or two characters of an operator, by maximal munch. *)
Definition lexOperator (s : list ascii) : option lexAction :=
  if startsWith ["+"] s then Some (Emit TokenPlus 1)
  else if startsWith ["-"] s then Some (Emit TokenMinus 1)
  else if startsWith ["*"] s then Some (Emit TokenMult 1)
  else if startsWith ["("] s then Some (Emit TokenLParen 1)
  else if startsWith [")"] s then Some (Emit TokenRParen 1)
  else if startsWith ["."] s then Some (Emit TokenDot 1)
  else if startsWith ["="; "="] s then Some (Emit TokenEqual 2)
  else if startsWith ["="; "~"] s then Some (Emit TokenRegexEqual 2)
  else if startsWith ["="] s then Some (Emit TokenAsgn 1)
  else if startsWith ["!"; "="] s then Some (Emit TokenNotEqual 2)
  else if startsWith ["!"; "~"] s then Some (Emit TokenRegexNotEqual 2)
  else if startsWith ["!"] s then Some (Emit TokenNot 1)
  else if startsWith [">"; "="] s then Some (Emit TokenGreaterEqual 2)
  else if startsWith [">"] s then Some (Emit TokenGreater 1)
  else if startsWith ["<"; "="] s then Some (Emit TokenLessEqual 2)
  else if startsWith ["<"] s then Some (Emit TokenLess 1)
  else None.

(** A quoted literal of kind [k] whose opening quote is the head of
    [s]. *)
Definition lexQuoted (k : tokenType) (q : ascii) (msg : string) (s : list ascii)
    : lexAction :=
  match quotedLen q false (drop 1 s) with
  | Some n => Emit k (1 + n)
  | None => Stop msg
  end.

Definition lexToken (prev : option tokenType) (s : list ascii) : lexAction :=
  match s with
  | [] => Stop "unexpected end of input"
  | c :: _ =>
      if isSpace c then Skip 1
      else if Ascii.eqb c "/" then
        if regexContext prev then lexQuoted TokenRegex "/" "unterminated regex" s
        else if startsWith ["/"; "/"] s then Skip (commentLen s)
        else Emit TokenDiv 1
      else if isDigit c then
        let n := numberLen s in
        let u := unitLen (drop n s) in
        if u =? 0 then Emit TokenNumber n else Emit TokenDuration (n + u)
      else if isLetter c then
        let n := spanLen (fun c => isLetter c || isDigit c) s in
        Emit (keyword (string_of_list_ascii (take n s))) n
      else if Ascii.eqb c "'" then
        if startsTriple s then
          match tripleLen false (drop 3 s) with
          | Some n => Emit TokenString (3 + n)
          | None => Stop "unterminated string"
          end
        else lexQuoted TokenString "'" "unterminated string" s
      else if Ascii.eqb c dquote then
        lexQuoted TokenReference dquote "unterminated reference" s
      else match lexOperator s with
           | Some act => act
           | None => Stop "unknown state"
           end
  end.

(** The token stream from offset [p] on, [prev] being the kind of the
    last token emitted.  An error token ends the stream.  [None] is
    the exhaustion of [fuel]. *)
Fixpoint lexFrom (fuel : nat) (p : nat) (prev : option tokenType) (s : list ascii)
    : option (list token) :=
  match s with
  | [] => Some [{| typ := TokenEOF; pos := p; val := EmptyString |}]
  | _ :: _ =>
      match fuel with
      | 0 => None
      | S fuel' =>
          match lexToken prev s with
          | Stop msg => Some [{| typ := TokenError; pos := p; val := msg |}]
          | Skip n =>
              match take n s with
              | [] => Some [{| typ := TokenError; pos := p; val := "no progress" |}]
              | lit => lexFrom fuel' (p + length lit) prev (drop (length lit) s)
              end
          | Emit k n =>
              match take n s with
              | [] => Some [{| typ := TokenError; pos := p; val := "no progress" |}]
              | lit =>
                  cons {| typ := k; pos := p; val := string_of_list_ascii lit |}
                    <$> lexFrom fuel' (p + length lit) (Some k) (drop (length lit) s)
              end
          end
      end
  end.

(** [lex] followed by [nextToken] until the stream ends. *)
Definition lex (src : string) : option (list token) :=
  lexFrom (S (String.length src)) 0 None (list_ascii_of_string src).

(** A token stream without error token. *)
Definition errorFree (toks : list token) : Prop :=
  Forall (fun t => typ t <> TokenError) toks.

(** The text of the token is the text of the source at the token's
    position. *)
Definition tokenAt (src : list ascii) (t : token) : Prop :=
  take (String.length (val t)) (drop (pos t) src) = list_ascii_of_string (val t).

End Lexer.

(** ** The lexical grammar *)

(** What section 4.1 of the specification calls the tokens of a
    source, written as a grammar and not as a scanner.  A lexeme is
    described by its text [lit] and by what follows it ([rest]); the
    conditions on [rest] say that the token is read by maximal munch.
    Nothing in this section uses the functions of the lexer. *)
Section LexicalGrammar.
Local Open Scope char_scope.
Local Open Scope nat_scope.

(** Modelled from the spec: the digits [0-9]. *)
Definition digitChars : list ascii := list_ascii_of_string "0123456789".

(** Modelled from the spec: the letters [A-Za-z_]. *)
Definition letterChars : list ascii :=
  list_ascii_of_string "ABCDEFGHIJKLMNOPQRSTUVWXYZabcdefghijklmnopqrstuvwxyz_".

(** Modelled from the spec: space, tab and newline. *)
Definition spaceChars : list ascii := [" "; ascii_of_nat 9; ascii_of_nat 10].

(** Modelled from the spec: the character classes. *)
Definition digit (c : ascii) : Prop := c ∈ digitChars.

(** Modelled from the spec: the character classes. *)
Definition letter (c : ascii) : Prop := c ∈ letterChars.

(** Modelled from the spec: the text [l] begins with a character of the class [P]. *)
Definition beginsWith (P : ascii -> Prop) (l : list ascii) : Prop :=
  exists c l', l = c :: l' /\ P c.

(** Modelled from the spec: the operators other than the slash, with their kinds. *)
Definition operators : list (list ascii * tokenType) :=
  [(["+"], TokenPlus); (["-"], TokenMinus); (["*"], TokenMult);
   (["("], TokenLParen); ([")"], TokenRParen); (["."], TokenDot);
   (["="; "="], TokenEqual); (["="; "~"], TokenRegexEqual); (["="], TokenAsgn);
   (["!"; "="], TokenNotEqual); (["!"; "~"], TokenRegexNotEqual); (["!"], TokenNot);
   ([">"; "="], TokenGreaterEqual); ([">"], TokenGreater);
   (["<"; "="], TokenLessEqual); (["<"], TokenLess)].

(** Modelled from the spec: the units of a duration; the micro sign takes two bytes. *)
Definition units : list (list ascii) :=
  [["u"]; [ascii_of_nat 194; ascii_of_nat 181]; ["m"; "s"]; ["s"]; ["m"]; ["h"];
   ["d"]; ["w"]].

(** Modelled from the spec: the reserved words, with their kinds. *)
Definition reservedWords : list (string * tokenType) :=
  [("AND"%string, TokenAnd); ("OR"%string, TokenOr); ("TRUE"%string, TokenTrue);
   ("FALSE"%string, TokenFalse); ("var"%string, TokenVar)].

(** Modelled from the spec: the kind of a word: its own kind when reserved, else an
    identifier. *)
Definition wordKind (w : string) (k : tokenType) : Prop :=
  (w, k) ∈ reservedWords \/ ((w ∉ map fst reservedWords) /\ k = TokenIdent).

(** Modelled from the spec: a number is digits, with an optional fraction of a dot and digits. *)
Inductive numberLit : list ascii -> Prop :=
| number_int (ds : list ascii) :
    ds <> [] -> Forall digit ds -> numberLit ds
| number_frac (ds fs : list ascii) :
    ds <> [] -> Forall digit ds -> fs <> [] -> Forall digit fs ->
    numberLit (ds ++ "." :: fs).

(** Modelled from the spec: no longer number begins where the number [lit] does: no digit
    follows, and after digits without fraction no dot with a digit. *)
Definition numberEnds (lit rest : list ascii) : Prop :=
  ~ beginsWith digit rest /\
  (Forall digit lit -> forall rest', rest = "." :: rest' -> ~ beginsWith digit rest').

(** Modelled from the spec: the text after an opening quote [q], up to and including the first
    [q] that is not preceded by a backslash; [prevc] is the character
    before the text. *)
Inductive closesAt (q : ascii) : ascii -> list ascii -> Prop :=
| closes_here (prevc : ascii) :
    prevc <> "\" -> closesAt q prevc [q]
| closes_later (prevc c : ascii) (cs : list ascii) :
    (c = q -> prevc = "\") -> closesAt q c cs -> closesAt q prevc (c :: cs).

(** Modelled from the spec: the text after an opening triple quote, up to and including the
    first triple quote that is not preceded by a backslash. *)
Inductive tripleClosesAt : ascii -> list ascii -> Prop :=
| triple_closes_here (prevc : ascii) :
    prevc <> "\" -> tripleClosesAt prevc ["'"; "'"; "'"]
| triple_closes_later (prevc c : ascii) (cs : list ascii) :
    ((exists r, c :: cs = ["'"; "'"; "'"] ++ r) -> prevc = "\") ->
    tripleClosesAt c cs -> tripleClosesAt prevc (c :: cs).

(** Modelled from the spec: a slash opens a regex right after [=~], [!~] or [=]. *)
Definition afterMatchOrAssign (prev : option tokenType) : Prop :=
  prev ∈ [Some TokenRegexEqual; Some TokenRegexNotEqual; Some TokenAsgn].

(** Modelled from the spec: [Lexeme prev lit rest k] says that after a token of kind [prev], the text
    [lit] followed by [rest] is a token of kind [k]. *)
Inductive Lexeme (prev : option tokenType) : list ascii -> list ascii -> tokenType -> Prop :=
| Lexeme_operator (lit rest : list ascii) (k : tokenType) :
    (lit, k) ∈ operators ->
    (forall lit' k', (lit', k') ∈ operators ->
       (exists r, lit ++ rest = lit' ++ r) -> length lit' <= length lit) ->
    Lexeme prev lit rest k
| Lexeme_div (rest : list ascii) :
    ~ afterMatchOrAssign prev -> ~ beginsWith (fun c => c = "/") rest ->
    Lexeme prev ["/"] rest TokenDiv
| Lexeme_number (lit rest : list ascii) :
    numberLit lit -> numberEnds lit rest ->
    (forall u, u ∈ units -> ~ exists r, rest = u ++ r) ->
    Lexeme prev lit rest TokenNumber
| Lexeme_duration (num u rest : list ascii) :
    numberLit num -> u ∈ units ->
    (forall u', u' ∈ units -> (exists r, u ++ rest = u' ++ r) -> length u' <= length u) ->
    Lexeme prev (num ++ u) rest TokenDuration
| Lexeme_word (c : ascii) (cs rest : list ascii) (k : tokenType) :
    letter c -> Forall (fun c => letter c \/ digit c) cs ->
    ~ beginsWith (fun c => letter c \/ digit c) rest ->
    wordKind (string_of_list_ascii (c :: cs)) k ->
    Lexeme prev (c :: cs) rest k
| Lexeme_string (text rest : list ascii) :
    closesAt "'" "'" text ->
    ~ (exists r, "'" :: text ++ rest = ["'"; "'"; "'"] ++ r) ->
    Lexeme prev ("'" :: text) rest TokenString
| Lexeme_triple_string (text rest : list ascii) :
    tripleClosesAt "'" text ->
    Lexeme prev (["'"; "'"; "'"] ++ text) rest TokenString
| Lexeme_reference (text rest : list ascii) :
    closesAt dquote dquote text ->
    Lexeme prev (dquote :: text) rest TokenReference
| Lexeme_regex (text rest : list ascii) :
    afterMatchOrAssign prev -> closesAt "/" "/" text ->
    Lexeme prev ("/" :: text) rest TokenRegex.

(** Modelled from the spec: [Skipped prev lit rest] says that the text [lit] followed by [rest] is not
    emitted: a whitespace character, or a line comment up to and
    including the next newline, or up to the end of the source. *)
Inductive Skipped (prev : option tokenType) : list ascii -> list ascii -> Prop :=
| Skipped_space (c : ascii) (rest : list ascii) :
    c ∈ spaceChars -> Skipped prev [c] rest
| Skipped_comment_line (text rest : list ascii) :
    ~ afterMatchOrAssign prev -> ascii_of_nat 10 ∉ text ->
    Skipped prev ("/" :: "/" :: text ++ [ascii_of_nat 10]) rest
| Skipped_comment_end (text : list ascii) :
    ~ afterMatchOrAssign prev -> ascii_of_nat 10 ∉ text ->
    Skipped prev ("/" :: "/" :: text) [].

(** Modelled from the spec: [Lexes p prev s toks] says that the source text [s], which begins at byte
    offset [p] after a token of kind [prev], consists of the tokens
    [toks], each at the offset of its first character, and of
    whitespace and comments. *)
Inductive Lexes : nat -> option tokenType -> list ascii -> list token -> Prop :=
| Lexes_end (p : nat) (prev : option tokenType) :
    Lexes p prev [] []
| Lexes_skip (p : nat) (prev : option tokenType) (lit rest : list ascii)
    (toks : list token) :
    Skipped prev lit rest -> Lexes (p + length lit) prev rest toks ->
    Lexes p prev (lit ++ rest) toks
| Lexes_token (p : nat) (prev : option tokenType) (lit rest : list ascii)
    (k : tokenType) (toks : list token) :
    Lexeme prev lit rest k -> Lexes (p + length lit) (Some k) rest toks ->
    Lexes p prev (lit ++ rest)
          ({| typ := k; pos := p; val := string_of_list_ascii lit |} :: toks).

(** Modelled from the spec: a source is well formed when it consists of tokens, whitespace and
    comments. *)
Definition wellFormed (src : string) : Prop :=
  exists toks, Lexes 0 None (list_ascii_of_string src) toks.

End LexicalGrammar.

(** A string given by its bytes. *)
Definition chars (l : list nat) : string := string_of_list_ascii (map ascii_of_nat l).

Section LexerCases.
Local Open Scope string_scope.
Local Open Scope nat_scope.

(** The cases of [TestLexer], in the order of [lex_test.go]. *)
Definition lexCases : list (string * list token) := [
  ("!",
   [{| typ := TokenNot; pos := 0; val := "!" |};
    {| typ := TokenEOF; pos := 1; val := EmptyString |}]);
  ("+",
   [{| typ := TokenPlus; pos := 0; val := "+" |};
    {| typ := TokenEOF; pos := 1; val := EmptyString |}]);
  ("-",
   [{| typ := TokenMinus; pos := 0; val := "-" |};
    {| typ := TokenEOF; pos := 1; val := EmptyString |}]);
  ("*",
   [{| typ := TokenMult; pos := 0; val := "*" |};
    {| typ := TokenEOF; pos := 1; val := EmptyString |}]);
  ("/",
   [{| typ := TokenDiv; pos := 0; val := "/" |};
    {| typ := TokenEOF; pos := 1; val := EmptyString |}]);
  ("=",
   [{| typ := TokenAsgn; pos := 0; val := "=" |};
    {| typ := TokenEOF; pos := 1; val := EmptyString |}]);
  ("==",
   [{| typ := TokenEqual; pos := 0; val := "==" |};
    {| typ := TokenEOF; pos := 2; val := EmptyString |}]);
  ("!=",
   [{| typ := TokenNotEqual; pos := 0; val := "!=" |};
    {| typ := TokenEOF; pos := 2; val := EmptyString |}]);
  (">",
   [{| typ := TokenGreater; pos := 0; val := ">" |};
    {| typ := TokenEOF; pos := 1; val := EmptyString |}]);
  (">=",
   [{| typ := TokenGreaterEqual; pos := 0; val := ">=" |};
    {| typ := TokenEOF; pos := 2; val := EmptyString |}]);
  ("<",
   [{| typ := TokenLess; pos := 0; val := "<" |};
    {| typ := TokenEOF; pos := 1; val := EmptyString |}]);
  ("<=",
   [{| typ := TokenLessEqual; pos := 0; val := "<=" |};
    {| typ := TokenEOF; pos := 2; val := EmptyString |}]);
  ("=~",
   [{| typ := TokenRegexEqual; pos := 0; val := "=~" |};
    {| typ := TokenEOF; pos := 2; val := EmptyString |}]);
  ("!~",
   [{| typ := TokenRegexNotEqual; pos := 0; val := "!~" |};
    {| typ := TokenEOF; pos := 2; val := EmptyString |}]);
  ("(",
   [{| typ := TokenLParen; pos := 0; val := "(" |};
    {| typ := TokenEOF; pos := 1; val := EmptyString |}]);
  (")",
   [{| typ := TokenRParen; pos := 0; val := ")" |};
    {| typ := TokenEOF; pos := 1; val := EmptyString |}]);
  (".",
   [{| typ := TokenDot; pos := 0; val := "." |};
    {| typ := TokenEOF; pos := 1; val := EmptyString |}]);
  ("AND",
   [{| typ := TokenAnd; pos := 0; val := "AND" |};
    {| typ := TokenEOF; pos := 3; val := EmptyString |}]);
  ("OR",
   [{| typ := TokenOr; pos := 0; val := "OR" |};
    {| typ := TokenEOF; pos := 2; val := EmptyString |}]);
  ("TRUE",
   [{| typ := TokenTrue; pos := 0; val := "TRUE" |};
    {| typ := TokenEOF; pos := 4; val := EmptyString |}]);
  ("FALSE",
   [{| typ := TokenFalse; pos := 0; val := "FALSE" |};
    {| typ := TokenEOF; pos := 5; val := EmptyString |}]);
  ("var",
   [{| typ := TokenVar; pos := 0; val := "var" |};
    {| typ := TokenEOF; pos := 3; val := EmptyString |}]);
  ("42",
   [{| typ := TokenNumber; pos := 0; val := "42" |};
    {| typ := TokenEOF; pos := 2; val := EmptyString |}]);
  ("42.21",
   [{| typ := TokenNumber; pos := 0; val := "42.21" |};
    {| typ := TokenEOF; pos := 5; val := EmptyString |}]);
  (".421",
   [{| typ := TokenDot; pos := 0; val := "." |};
    {| typ := TokenNumber; pos := 1; val := "421" |};
    {| typ := TokenEOF; pos := 4; val := EmptyString |}]);
  ("0.421",
   [{| typ := TokenNumber; pos := 0; val := "0.421" |};
    {| typ := TokenEOF; pos := 5; val := EmptyString |}]);
  ("42s",
   [{| typ := TokenDuration; pos := 0; val := "42s" |};
    {| typ := TokenEOF; pos := 3; val := EmptyString |}]);
  ("42.21m",
   [{| typ := TokenDuration; pos := 0; val := "42.21m" |};
    {| typ := TokenEOF; pos := 6; val := EmptyString |}]);
  (".421h",
   [{| typ := TokenDot; pos := 0; val := "." |};
    {| typ := TokenDuration; pos := 1; val := "421h" |};
    {| typ := TokenEOF; pos := 5; val := EmptyString |}]);
  ("0.421s",
   [{| typ := TokenDuration; pos := 0; val := "0.421s" |};
    {| typ := TokenEOF; pos := 6; val := EmptyString |}]);
  ("1u",
   [{| typ := TokenDuration; pos := 0; val := "1u" |};
    {| typ := TokenEOF; pos := 2; val := EmptyString |}]);
  (("1" +:+ chars [194; 181]),
   [{| typ := TokenDuration; pos := 0; val := ("1" +:+ chars [194; 181]) |};
    {| typ := TokenEOF; pos := 3; val := EmptyString |}]);
  ("1ms",
   [{| typ := TokenDuration; pos := 0; val := "1ms" |};
    {| typ := TokenEOF; pos := 3; val := EmptyString |}]);
  ("1h",
   [{| typ := TokenDuration; pos := 0; val := "1h" |};
    {| typ := TokenEOF; pos := 2; val := EmptyString |}]);
  ("1d",
   [{| typ := TokenDuration; pos := 0; val := "1d" |};
    {| typ := TokenEOF; pos := 2; val := EmptyString |}]);
  ("1w",
   [{| typ := TokenDuration; pos := 0; val := "1w" |};
    {| typ := TokenEOF; pos := 2; val := EmptyString |}]);
  ("variable",
   [{| typ := TokenIdent; pos := 0; val := "variable" |};
    {| typ := TokenEOF; pos := 8; val := EmptyString |}]);
  ("myVar01",
   [{| typ := TokenIdent; pos := 0; val := "myVar01" |};
    {| typ := TokenEOF; pos := 7; val := EmptyString |}]);
  ((chars [34; 34]),
   [{| typ := TokenReference; pos := 0; val := (chars [34; 34]) |};
    {| typ := TokenEOF; pos := 2; val := EmptyString |}]);
  ((chars [34] +:+ "ref with spaces" +:+ chars [34]),
   [{| typ := TokenReference; pos := 0; val := (chars [34] +:+ "ref with spaces" +:+ chars [34]) |};
    {| typ := TokenEOF; pos := 17; val := EmptyString |}]);
  ((chars [34] +:+ "ref\" +:+ chars [34; 34]),
   [{| typ := TokenReference; pos := 0; val := (chars [34] +:+ "ref\" +:+ chars [34; 34]) |};
    {| typ := TokenEOF; pos := 7; val := EmptyString |}]);
  ("''",
   [{| typ := TokenString; pos := 0; val := "''" |};
    {| typ := TokenEOF; pos := 2; val := EmptyString |}]);
  ("''''''",
   [{| typ := TokenString; pos := 0; val := "''''''" |};
    {| typ := TokenEOF; pos := 6; val := EmptyString |}]);
  ("'str'",
   [{| typ := TokenString; pos := 0; val := "'str'" |};
    {| typ := TokenEOF; pos := 5; val := EmptyString |}]);
  ("'str\''",
   [{| typ := TokenString; pos := 0; val := "'str\''" |};
    {| typ := TokenEOF; pos := 7; val := EmptyString |}]);
  ("'''s'tr'''",
   [{| typ := TokenString; pos := 0; val := "'''s'tr'''" |};
    {| typ := TokenEOF; pos := 10; val := EmptyString |}]);
  ("'''s\'tr'''",
   [{| typ := TokenString; pos := 0; val := "'''s\'tr'''" |};
    {| typ := TokenEOF; pos := 11; val := EmptyString |}]);
  ("'''str'''",
   [{| typ := TokenString; pos := 0; val := "'''str'''" |};
    {| typ := TokenEOF; pos := 9; val := EmptyString |}]);
  ("=~ //",
   [{| typ := TokenRegexEqual; pos := 0; val := "=~" |};
    {| typ := TokenRegex; pos := 3; val := "//" |};
    {| typ := TokenEOF; pos := 5; val := EmptyString |}]);
  ("!~ //",
   [{| typ := TokenRegexNotEqual; pos := 0; val := "!~" |};
    {| typ := TokenRegex; pos := 3; val := "//" |};
    {| typ := TokenEOF; pos := 5; val := EmptyString |}]);
  ("= //",
   [{| typ := TokenAsgn; pos := 0; val := "=" |};
    {| typ := TokenRegex; pos := 2; val := "//" |};
    {| typ := TokenEOF; pos := 4; val := EmptyString |}]);
  ("= /^((.*)[a-z]+\S{0,2})|cat\/\/$/",
   [{| typ := TokenAsgn; pos := 0; val := "=" |};
    {| typ := TokenRegex; pos := 2; val := "/^((.*)[a-z]+\S{0,2})|cat\/\/$/" |};
    {| typ := TokenEOF; pos := 33; val := EmptyString |}]);
  (" ",
   [{| typ := TokenEOF; pos := 1; val := EmptyString |}]);
  ((" " +:+ chars [9; 10]),
   [{| typ := TokenEOF; pos := 3; val := EmptyString |}]);
  ("var x = avg()",
   [{| typ := TokenVar; pos := 0; val := "var" |};
    {| typ := TokenIdent; pos := 4; val := "x" |};
    {| typ := TokenAsgn; pos := 6; val := "=" |};
    {| typ := TokenIdent; pos := 8; val := "avg" |};
    {| typ := TokenLParen; pos := 11; val := "(" |};
    {| typ := TokenRParen; pos := 12; val := ")" |};
    {| typ := TokenEOF; pos := 13; val := EmptyString |}]);
  ("var x = avg().parallel(4)x.groupby('cpu').window().period(10s)",
   [{| typ := TokenVar; pos := 0; val := "var" |};
    {| typ := TokenIdent; pos := 4; val := "x" |};
    {| typ := TokenAsgn; pos := 6; val := "=" |};
    {| typ := TokenIdent; pos := 8; val := "avg" |};
    {| typ := TokenLParen; pos := 11; val := "(" |};
    {| typ := TokenRParen; pos := 12; val := ")" |};
    {| typ := TokenDot; pos := 13; val := "." |};
    {| typ := TokenIdent; pos := 14; val := "parallel" |};
    {| typ := TokenLParen; pos := 22; val := "(" |};
    {| typ := TokenNumber; pos := 23; val := "4" |};
    {| typ := TokenRParen; pos := 24; val := ")" |};
    {| typ := TokenIdent; pos := 25; val := "x" |};
    {| typ := TokenDot; pos := 26; val := "." |};
    {| typ := TokenIdent; pos := 27; val := "groupby" |};
    {| typ := TokenLParen; pos := 34; val := "(" |};
    {| typ := TokenString; pos := 35; val := "'cpu'" |};
    {| typ := TokenRParen; pos := 40; val := ")" |};
    {| typ := TokenDot; pos := 41; val := "." |};
    {| typ := TokenIdent; pos := 42; val := "window" |};
    {| typ := TokenLParen; pos := 48; val := "(" |};
    {| typ := TokenRParen; pos := 49; val := ")" |};
    {| typ := TokenDot; pos := 50; val := "." |};
    {| typ := TokenIdent; pos := 51; val := "period" |};
    {| typ := TokenLParen; pos := 57; val := "(" |};
    {| typ := TokenDuration; pos := 58; val := "10s" |};
    {| typ := TokenRParen; pos := 61; val := ")" |};
    {| typ := TokenEOF; pos := 62; val := EmptyString |}]);
  (("var x = avg()" +:+ chars [10] +:+ "// Comment all of this is ignored" +:+ chars [10] +:+ "x.groupby('cpu')"),
   [{| typ := TokenVar; pos := 0; val := "var" |};
    {| typ := TokenIdent; pos := 4; val := "x" |};
    {| typ := TokenAsgn; pos := 6; val := "=" |};
    {| typ := TokenIdent; pos := 8; val := "avg" |};
    {| typ := TokenLParen; pos := 11; val := "(" |};
    {| typ := TokenRParen; pos := 12; val := ")" |};
    {| typ := TokenIdent; pos := 48; val := "x" |};
    {| typ := TokenDot; pos := 49; val := "." |};
    {| typ := TokenIdent; pos := 50; val := "groupby" |};
    {| typ := TokenLParen; pos := 57; val := "(" |};
    {| typ := TokenString; pos := 58; val := "'cpu'" |};
    {| typ := TokenRParen; pos := 63; val := ")" |};
    {| typ := TokenEOF; pos := 64; val := EmptyString |}]);
  (("var x = avg()" +:+ chars [10] +:+ "// Comment all of this is ignored"),
   [{| typ := TokenVar; pos := 0; val := "var" |};
    {| typ := TokenIdent; pos := 4; val := "x" |};
    {| typ := TokenAsgn; pos := 6; val := "=" |};
    {| typ := TokenIdent; pos := 8; val := "avg" |};
    {| typ := TokenLParen; pos := 11; val := "(" |};
    {| typ := TokenRParen; pos := 12; val := ")" |};
    {| typ := TokenEOF; pos := 47; val := EmptyString |}])
].

End LexerCases.

(** ** alert.go: notions for whole runs *)

Section AlertRuns.
Context {F : Type} `{Float64 F} `{ExprPkg} `{ModelsPkg}.

(** The handler calls of a trace, in order. *)
Definition handlerCalls (evs : list AlertEvent) : list (AlertHandler * AlertData) :=
  omap (fun e => match e with
                 | Handled h ad => Some (h, ad)
                 | Logged _ => None
                 end) evs.

(** The alerts [ads], each handed to every handler of the node in the
    order of [a.handlers]. *)
Definition deliveries (an : AlertNode (F := F)) (ads : list AlertData)
    : list (AlertHandler * AlertData) :=
  ad ← ads; (fun h => (h, ad)) <$> handlers an.

(** The records of an edge that [runAlert] reads: its points in stream
    mode, its batches in batch mode. *)
Definition recordCount (an : AlertNode (F := F)) (in0 : Edge) : nat :=
  match Wants (a an) with
  | StreamEdge => length (points in0)
  | BatchEdge => length (batches in0)
  end.

(** The node after [updateFlapping] has been called with the levels
    [ls], one after the other; [None] when a call panics. *)
Fixpoint flapAfter (an : AlertNode (F := F)) (ls : list AlertLevel) : option AlertNode :=
  match ls with
  | [] => Some an
  | l :: rest => an1 ← updateFlapping an l; flapAfter an1 rest
  end.

(** The handlers [newAlertNode] installs for a configuration. *)
Definition configuredHandlers (n : pipeline_AlertNode (F := F)) : list AlertHandler :=
  (if decide (Post n <> EmptyString) then [handlePost] else [])
  ++ (if decide (From n <> EmptyString /\ ToList n <> []) then [handleEmail] else []).

(** A level expression is absent or parses as a boolean expression. *)
Definition parses (src : string) : Prop :=
  src = EmptyString \/ exists tree, ParseForType src ReturnBool = inl tree.

End AlertRuns.

(** The largest value the walk of [n] pairs can add: every pair
    differs. *)
Fixpoint maxChanges (n : nat) (weight step : Q) : Q :=
  match n with
  | O => 0
  | S n' => weight + maxChanges n' (weight + step) step
  end.

(** ** task.go: task types, outputs, batching, shutdown, snapshotter *)

(** [TaskType] is an [int]; [StreamTask] and [BatchTask] are its two
    named values. *)
Definition TaskType := Z.
Definition StreamTask : TaskType := 0.
Definition BatchTask : TaskType := 1.

Record DBRP := {
  Database : string;
  RetentionPolicy : string
}.

#[global] Instance DBRP_eq_dec : EqDecision DBRP.
Proof. solve_decision. Defined.

#[global] Instance DBRP_countable : Countable DBRP :=
  inj_countable' (fun d => (Database d, RetentionPolicy d))
                 (fun p => {| Database := fst p; RetentionPolicy := snd p |})
                 (fun d => match d with Build_DBRP _ _ => eq_refl end).

(** [CreateDBRPMap] *)
Definition CreateDBRPMap (dbrps : list DBRP) : gmap DBRP bool :=
  foldl (fun dbMap dbrp => <[dbrp := true]> dbMap) ∅ dbrps.

(** [dbMap[dbrp]] on a [map[DBRP]bool]: [false] for a missing key. *)
Definition dbrpIndex (dbMap : gmap DBRP bool) (dbrp : DBRP) : bool :=
  match dbMap !! dbrp with
  | Some v => v
  | None => false
  end.

Definition ErrWrongTaskType : error := "wrong task type".

(** The fields of [Task] read by the batching entry points. *)
Record Task := {
  t_Name : string;
  t_Type : TaskType;
  t_DBRPs : list DBRP
}.

Section Batching.
(** [quote] is the verb [%q] of package [fmt] on a string; [TimeT] is
    [time.Time]. *)
Context (quote : string -> string) {TimeT : Type}.

(** [DBRP.String] *)
Definition DBRP_String (d : DBRP) : string :=
  quote (Database d) +:+ "." +:+ quote (RetentionPolicy d).

(** What the batching entry points use of [*SourceBatchNode]: the
    results of its methods [DBRPs], [Count] and [Queries]. *)
Record SourceBatchNode := {
  sb_DBRPs : list DBRP + error;
  sb_Count : Z;
  sb_Queries : TimeT -> TimeT -> list (list string)
}.

(** The dynamic type of [et.source]: a [*SourceBatchNode] or anything
    else. *)
Inductive SourceKind :=
| IsSourceBatchNode (batcher : SourceBatchNode)
| OtherSource.

(** The loop of [checkDBRPs] over the requested pairs. *)
Fixpoint checkDBRPs_loop (dbMap : gmap DBRP bool) (dbrps : list DBRP) : option error :=
  match dbrps with
  | [] => None
  | dbrp :: rest =>
      if negb (dbrpIndex dbMap dbrp)
      then Some ("batch query is not allowed to request data from " +:+ DBRP_String dbrp)
      else checkDBRPs_loop dbMap rest
  end.

(** [checkDBRPs] *)
Definition checkDBRPs (t : Task) (batcher : SourceBatchNode) : option error :=
  let dbMap := CreateDBRPMap (t_DBRPs t) in
  match sb_DBRPs batcher with
  | inr err => Some err
  | inl dbrps => checkDBRPs_loop dbMap dbrps
  end.

(** The call [batcher.Start()]. *)
Inductive BatchEvent := BatcherStarted (batcher : SourceBatchNode).

(** [StartBatching]: the calls made and the error returned; [None] is
    the panic of the type assertion on [et.source]. *)
Definition StartBatching (t : Task) (src : SourceKind)
    : option (list BatchEvent * option error) :=
  if decide (t_Type t <> BatchTask) then Some ([], Some ErrWrongTaskType)
  else match src with
       | OtherSource => None
       | IsSourceBatchNode batcher =>
           match checkDBRPs t batcher with
           | Some err => Some ([], Some err)
           | None => Some ([BatcherStarted batcher], None)
           end
       end.

(** [BatchCount] *)
Definition BatchCount (t : Task) (src : SourceKind) : option (Z * option error) :=
  if decide (t_Type t <> BatchTask) then Some (0, Some ErrWrongTaskType)
  else match src with
       | OtherSource => None
       | IsSourceBatchNode batcher => Some (sb_Count batcher, None)
       end.

(** [BatchQueries]; the slice is [nil] when an error is returned. *)
Definition BatchQueries (t : Task) (src : SourceKind) (start stop : TimeT)
    : option (list (list string) + error) :=
  if decide (t_Type t <> BatchTask) then Some (inr ErrWrongTaskType)
  else match src with
       | OtherSource => None
       | IsSourceBatchNode batcher =>
           match checkDBRPs t batcher with
           | Some err => Some (inr err)
           | None => Some (inl (sb_Queries batcher start stop))
           end
       end.

End Batching.

Section Outputs.
Context {Output : Type}.

(** [GetOutput], on the map [et.outputs]. *)
Definition GetOutput (outputs : gmap string Output) (name : string) : Output + error :=
  match outputs !! name with
  | Some o => inl o
  | None => inr ("unknown output " +:+ name)
  end.

(** [registerOutput]: the map [et.outputs] afterwards. *)
Definition registerOutput (outputs : gmap string Output) (name : string) (o : Output)
    : gmap string Output :=
  <[name := o]> outputs.

End Outputs.

Section Shutdown.
(** [nodeErr n] is what [n.Err()] returns: the error the node finished
    with. *)
Context (nodeErr : Node -> option error).

(** [rwalk]: the loop [for i := len(et.nodes) - 1; i >= 0; i--], with
    [k = i + 1]; [None] is an index out of range. *)
Fixpoint rwalk_from {S} (f : Node -> S -> S * option error) (ns : list Node) (k : nat)
    (s : S) : option (S * option error) :=
  match k with
  | O => Some (s, None)
  | Datatypes.S i =>
      match ns !! i with
      | None => None
      | Some n =>
          let '(s, err) := f n s in
          match err with
          | Some e => Some (s, Some e)
          | None => rwalk_from f ns i s
          end
      end
  end.

Definition rwalk {S} (et : ExecutingTask) (f : Node -> S -> S * option error) (s : S)
    : option (S * option error) :=
  rwalk_from f (nodes et) (length (nodes et)) s.

(** [ExecutingTask.Err] *)
Definition ExecutingTask_Err (et : ExecutingTask) : option (option error) :=
  snd <$> rwalk et (fun n (_ : unit) => (tt, nodeErr n)) tt.

(** The channel [et.stopSnapshotter]: [nil], made, or closed. *)
Inductive Chan := ChanNil | ChanOpen | ChanClosed.

(** [close(c)]: panics on a [nil] channel and on a closed one. *)
Definition closeChan (c : Chan) : option Chan :=
  match c with
  | ChanOpen => Some ChanClosed
  | ChanNil | ChanClosed => None
  end.

(** The field [et.stopSnapshotter] after [start]. *)
Definition start_stopSnapshotter (et : ExecutingTask) (c : Chan) : Chan :=
  if decide (SnapshotInterval et > 0) then ChanOpen else c.

(** The calls [n.stop()] that [stop] makes. *)
Inductive StopEvent := NodeStopped (n : Node).

(** [ExecutingTask.stop]: the channel afterwards, the nodes stopped and
    the named result [err]; [None] is the panic of [close].  The final
    [et.wg.Wait()] returns once the snapshotter has seen the closed
    channel. *)
Definition stop (et : ExecutingTask) (stopSnapshotter : Chan)
    : option (Chan * list StopEvent * option error) :=
  c ← (if decide (SnapshotInterval et > 0) then closeChan stopSnapshotter
       else Some stopSnapshotter);
  let '((evs, err), _) :=
    walk et (fun n '(evs, err) =>
               let e := nodeErr n in
               ((evs ++ [NodeStopped n],
                 match e with Some _ => e | None => err end), None))
            ([], None) in
  Some (c, evs, err).

(** The error of the last node, in walk order, that finished with one. *)
Definition lastError (ns : list Node) : option error :=
  last (omap nodeErr ns).

End Shutdown.

Section Snapshotter.
(** [SaveSnapshot] is the method of the task store. *)
Context (SaveSnapshot : string -> TaskSnapshot -> option error).

(** [len(data)] *)
Definition bytesLen (data : bytes) : Z :=
  match data with
  | Some l => zlen l
  | None => 0
  end.

(** The loop [for _, data := range snapshot.NodeSnapshots { size += len(data) }]. *)
Definition snapshotSize (snap : TaskSnapshot) : Z :=
  map_fold (fun _ data size => size + bytesLen data) 0 (NodeSnapshots snap).

(** What the snapshotter does to the outside: a logger line, or a call
    of [SaveSnapshot]. *)
Inductive SnapshotterAction :=
| SnapshotterLogged (line : string)
| SaveCalled (name : string) (snap : TaskSnapshot).

(** What the [select] of the loop receives: the ticker, with the task as
    it is at that moment, or the closed stop channel. *)
Inductive LoopEvent :=
| TickerFired (et : ExecutingTask)
| StopClosed.

(** The case [<-ticker.C] of the loop; [name] is [et.Task.Name]. *)
Definition snapshotterTick (name : string) (et : ExecutingTask) : list SnapshotterAction :=
  match Snapshot et with
  | inr err => [SnapshotterLogged ("E! failed to snapshot task " +:+ name +:+ " " +:+ err)]
  | inl snapshot =>
      if decide (snapshotSize snapshot > 0) then
        SaveCalled name snapshot ::
        match SaveSnapshot name snapshot with
        | Some err =>
            [SnapshotterLogged ("E! failed to save task snapshot " +:+ name +:+ " " +:+ err)]
        | None => []
        end
      else []
  end.

(** The loop of [runSnapshotter] over the events its [select] receives;
    the boolean tells whether the function has returned. *)
Fixpoint snapshotterLoop (name : string) (evs : list LoopEvent)
    : list SnapshotterAction * bool :=
  match evs with
  | [] => ([], false)
  | StopClosed :: _ => ([], true)
  | TickerFired et :: rest =>
      let '(acts, returned) := snapshotterLoop name rest in
      (snapshotterTick name et ++ acts, returned)
  end.

(** [runSnapshotter]; [splayElapsed] tells whether the first [select]
    received the splay timer (or else the closed stop channel). *)
Definition runSnapshotter (name : string) (splayElapsed : bool) (evs : list LoopEvent)
    : list SnapshotterAction * bool :=
  if splayElapsed then snapshotterLoop name evs else ([], true).

End Snapshotter.

(** The task states at the ticks that precede the first closing of the
    stop channel. *)
Fixpoint ticksBeforeStop (evs : list LoopEvent) : list ExecutingTask :=
  match evs with
  | [] => []
  | StopClosed :: _ => []
  | TickerFired et :: rest => et :: ticksBeforeStop rest
  end.

(** Some node of the snapshot handed out at least one byte. *)
Definition hasContent (snap : TaskSnapshot) : Prop :=
  exists (k : string) (data : list Byte.byte),
    NodeSnapshots snap !! k = Some (Some data) /\ data <> [].

(** A task with a snapshot interval, a node that finished with an
    error, and two nodes under one name. *)
Definition toyTaskTimed : ExecutingTask :=
  {| source := toyNodeA; nodes := [toyNodeA; toyNodeB]; SnapshotInterval := 10 |}.

Definition toyNodeErr (n : Node) : option error :=
  if decide (Name n = "stream0"%string) then Some "edge closed"%string else None.

Definition toyNodeA' : Node := {| Name := "stream0"; snapshot := inl (toyBytes "c") |}.

Definition toyTaskTwins : ExecutingTask :=
  {| source := toyNodeA; nodes := [toyNodeA; toyNodeB; toyNodeA']; SnapshotInterval := 0 |}.

(** A node whose [snapshot()] fails, and nodes without state. *)
Definition toyNodeFailing : Node := {| Name := "window2"; snapshot := inr "not ready"%string |}.

Definition toyNodeEmpty : Node := {| Name := "where3"; snapshot := inl None |}.

(** An edge that delivers two points and one batch. *)
Definition toyEdge : Edge :=
  {| points := [toyPoint 95; toyPoint 50]; batches := [toyBatch [50; 95; 99]] |}.

(** A flapping node whose ring alternates. *)
Definition toyFlapping : AlertNode (F := Q) :=
  set_flap toyFlap4 [NoAlert; CritAlert; NoAlert; CritAlert] 0 true.

(** The ring of [toyFlapping] with [flap_high = 1], not flapping. *)
Definition toyFlapHighOne : AlertNode (F := Q) :=
  set_flap (toyFlapNode 4 (toyFlapConfig StreamEdge 4 (1 # 4)%Q 1%Q))
           [NoAlert; CritAlert; NoAlert; CritAlert] 0 false.

(** On the ring [hist] with index [idx]: the score of a tick with any
    level is at least zero and below one. *)
Definition scoreInRangeOn {F} `{Float64 F} (cfg : pipeline_AlertNode (F := F))
    (hist : list AlertLevel) (idx : Z) : bool :=
  let an := set_flap (toyFlapNode 0 cfg) hist idx false in
  forallb (fun x => match tickScore an x with
                    | Some p => fle (fconst 0) p && flt p (fconst 1)
                    | None => false
                    end)
          [NoAlert; InfoAlert; WarnAlert; CritAlert].

(* ================================================================= *)
(** * Part II: properties *)
(* ================================================================= *)

(** ** Level classification *)

Section AlertLevels.
Context {F : Type} `{Float64 F} `{ExprPkg} `{ModelsPkg}.

Lemma last_cons_default {A} (x d : A) (xs : list A) :
  List.last (x :: xs) d = List.last xs x.
Proof.
  revert x d. induction xs as [|y ys IH]; intros x d; [reflexivity|].
  change (List.last (y :: ys) d = List.last (y :: ys) x).
  rewrite (IH y d), (IH y x). reflexivity.
Qed.

(** The loop of [determineLevel], started at any index with any
    accumulated level: the configured predicates from there on split
    into a run that all pass and a remainder whose head does not. *)
Lemma determineLevel_from_split (l : Z) (ls : list (option StatefulExpr))
    (fields : Fields) (tags : gmap string string) (level : AlertLevel) :
  exists passed rest ls',
    configured l ls = passed ++ rest /\
    Forall (fun c => passes fields tags c = true) passed /\
    from_option (fun c => passes fields tags c = false) True (head rest) /\
    determineLevel_from l ls fields tags level =
      (lastLevel level passed, ls',
       from_option (errorLog fields tags) [] (head rest)) /\
    configured l ls' =
      map (fun c => (fst c, evaluated fields tags c)) (passed ++ take 1 rest)
      ++ drop 1 rest /\
    length ls' = length ls.
Proof.
  revert l level. induction ls as [|[se|] ls IH]; intros l level.
  - exists [], [], []. repeat split; constructor.
  - cbn [determineLevel_from configured].
    destruct (EvalPredicate se fields tags) as [[pass err] se'] eqn:E.
    destruct pass.
    + destruct (IH (l + 1) l) as (passed & rest & ls' & Hc & Hp & Hr & Hd & Hc' & Hl).
      exists ((l, se) :: passed), rest, (Some se' :: ls').
      rewrite Hd. repeat split.
      * cbn. by rewrite Hc.
      * constructor; [|done]. unfold passes. cbn. by rewrite E.
      * done.
      * unfold lastLevel. cbn [map fst]. by rewrite last_cons_default.
      * cbn [configured]. rewrite Hc'. cbn. unfold evaluated. cbn.
        by rewrite E.
      * cbn. by rewrite Hl.
    + exists [], ((l, se) :: configured (l + 1) ls), (Some se' :: ls).
      repeat split.
      * constructor.
      * cbn. unfold passes. cbn. by rewrite E.
      * cbn. unfold errorLog. cbn. rewrite E. cbn. by destruct err.
      * cbn. unfold evaluated. cbn. by rewrite E.
  - cbn [determineLevel_from configured].
    destruct (IH (l + 1) level) as (passed & rest & ls' & Hc & Hp & Hr & Hd & Hc' & Hl).
    exists passed, rest, (None :: ls'). rewrite Hd. repeat split; try done.
    cbn. by rewrite Hl.
Qed.

(** C1. [determineLevel] consults the configured predicates in
    ascending order of level, skipping the slots left unconfigured: the
    configured levels split into a run [passed] of predicates that all
    return true and a remainder [rest] whose head, if any, does not.
    The level returned is that of the last predicate of [passed]
    ([NoAlert] when [passed] is empty); the predicates of [passed] and
    the head of [rest] are the only ones evaluated, every higher one
    keeps its state; and an error of the head of [rest] is logged. *)
Theorem determineLevel_ascending (an : AlertNode (F := F)) (fields : Fields)
    (tags : gmap string string) :
  exists passed rest ls',
    configured 0 (levels an) = passed ++ rest /\
    Forall (fun c => passes fields tags c = true) passed /\
    from_option (fun c => passes fields tags c = false) True (head rest) /\
    determineLevel an fields tags =
      (lastLevel NoAlert passed, set_levels an ls',
       from_option (errorLog fields tags) [] (head rest)) /\
    configured 0 ls' =
      map (fun c => (fst c, evaluated fields tags c)) (passed ++ take 1 rest)
      ++ drop 1 rest /\
    length ls' = length (levels an).
Proof.
  destruct (determineLevel_from_split 0 (levels an) fields tags NoAlert)
    as (passed & rest & ls' & Hc & Hp & Hr & Hd & Hc' & Hl).
  exists passed, rest, ls'. unfold determineLevel. rewrite Hd. done.
Qed.

End AlertLevels.

(** The toy configuration builds the toy node. *)
Example newAlertNode_toy :
  newAlertNode (toyConfig "value > 90" "value > 50") = inl toyStopped
  /\ newAlertNode (toyConfig "value > 10" "value > 50") = inl toyClosed.
Proof. split; reflexivity. Qed.

Section AlertOrdering.
Context {F : Type} `{Float64 F} `{ExprPkg} `{ModelsPkg}.

Lemma filter_all {A} (P : A -> Prop) `{forall x, Decision (P x)} (l : list A) :
  Forall P l -> filter P l = l.
Proof.
  induction 1 as [|x l Hx Hl IH]; [reflexivity|].
  rewrite filter_cons, decide_True by done. by rewrite IH.
Qed.

Lemma filter_none {A} (P : A -> Prop) `{forall x, Decision (P x)} (l : list A) :
  Forall (fun x => ~ P x) l -> filter P l = [].
Proof.
  induction 1 as [|x l Hx Hl IH]; [reflexivity|].
  by rewrite filter_cons, decide_False.
Qed.

(** C7, as amended.  When no configured predicate below a passing one
    fails on the record, the level [determineLevel] returns is the
    highest level whose configured predicate returns true. *)
Theorem determineLevel_highest_when_closed (an : AlertNode (F := F)) (fields : Fields)
    (tags : gmap string string) :
  (forall pre c post,
     configured 0 (levels an) = pre ++ c :: post ->
     passes fields tags c = true ->
     Forall (fun c' => passes fields tags c' = true) pre) ->
  fst (fst (determineLevel an fields tags))
  = highestPassing (levels an) fields tags.
Proof.
  intros Hclosed.
  destruct (determineLevel_from_split 0 (levels an) fields tags NoAlert)
    as (passed & rest & ls' & Hc & Hp & Hr & Hd & _).
  unfold determineLevel, highestPassing. rewrite Hd, Hc. cbn [fst].
  rewrite filter_app, (filter_all _ passed Hp).
  rewrite (filter_none _ rest); [by rewrite app_nil_r|].
  destruct rest as [|r rest]; [constructor|]. cbn in Hr.
  apply Forall_forall. intros c Hin Hpass.
  apply list_elem_of_split in Hin as (r1 & r2 & Hsplit).
  destruct r1 as [|r' r1]; cbn in Hsplit.
  - injection Hsplit as -> ->. congruence.
  - injection Hsplit as -> ->.
    specialize (Hclosed (passed ++ r' :: r1) c r2).
    rewrite <- app_assoc in Hclosed. specialize (Hclosed Hc Hpass).
    apply Forall_app in Hclosed as [_ Hr'].
    apply Forall_cons in Hr' as [Hr' _]. congruence.
Qed.

End AlertOrdering.

(** C7 fails as stated: with an info predicate that is false and a crit
    predicate that is true on the record, the highest passing level is
    [CritAlert] and [determineLevel] returns [NoAlert]. *)
Lemma determineLevel_stops_below_passing_crit :
  highestPassing (levels toyStopped) 60 ∅ = CritAlert /\
  fst (fst (determineLevel toyStopped 60 ∅)) = NoAlert /\
  fst (fst (determineLevel toyStopped 60 ∅)) <> highestPassing (levels toyStopped) 60 ∅.
Proof. vm_compute. repeat split; congruence. Qed.

(** An info predicate and a crit predicate that both pass: the level is
    the highest passing one. *)
Lemma determineLevel_highest_when_closed_witness :
  fst (fst (determineLevel toyClosed 60 ∅)) = highestPassing (levels toyClosed) 60 ∅.
Proof.
  apply (determineLevel_highest_when_closed toyClosed 60 ∅).
  intros pre c post Hcfg Hpass.
  destruct pre as [|c1 [|c2 [|c3 pre]]]; cbn in Hcfg.
  - constructor.
  - injection Hcfg as <- <- <-. repeat constructor.
  - injection Hcfg as <- <- Hnil. destruct post; discriminate.
  - injection Hcfg as <- <- Hnil. destruct pre; discriminate.
Defined.

(** ** Construction *)

Section AlertConstruction.
Context {F : Type} `{Float64 F} `{ExprPkg} `{ModelsPkg}.

(** The checks [newAlertNode] makes on a configuration with flap
    detection: a history length other than zero and below two is
    rejected, a threshold above one is rejected, and a history length
    of zero stands for the default of 21 entries. *)
Lemma newAlertNode_flap_checks (n : pipeline_AlertNode (F := F)) :
  UseFlapping n = true ->
  (History n <> 0 -> History n < 2 -> exists e, newAlertNode n = inr e) /\
  (flt (fconst 1) (FlapLow n) || flt (fconst 1) (FlapHigh n) = true ->
   exists e, newAlertNode n = inr e) /\
  (History n = 0 -> forall an, newAlertNode n = inl an ->
   history an = replicate 21 NoAlert).
Proof.
  intros Hflap. unfold newAlertNode. rewrite Hflap.
  destruct (parseLevel (Info n)) as [info|e]; [|split_and!; intros; eauto; done].
  destruct (parseLevel (Warn n)) as [warn|e]; [|split_and!; intros; eauto; done].
  destruct (parseLevel (Crit n)) as [crit|e]; [|split_and!; intros; eauto; done].
  split_and!.
  - intros Hnz Hlt. cbv zeta. repeat case_decide; try done; eauto.
  - intros Hth. cbv zeta. rewrite Hth. repeat case_decide; eauto.
  - intros Hz an. cbv zeta. unfold defaultFlapHistory.
    repeat case_decide; try done; try lia.
    all: destruct (_ || _); [done|]; intros [= <-]; reflexivity.
Qed.

(** Every node [newAlertNode] returns satisfies [AlertNode_ok]. *)
Lemma newAlertNode_ok (n : pipeline_AlertNode (F := F)) (an : AlertNode (F := F)) :
  newAlertNode n = inl an -> AlertNode_ok an.
Proof.
  unfold newAlertNode.
  destruct (parseLevel (Info n)) as [info|e]; [|done].
  destruct (parseLevel (Warn n)) as [warn|e]; [|done].
  destruct (parseLevel (Crit n)) as [crit|e]; [|done].
  destruct (UseFlapping n) eqn:Hflap.
  - cbv zeta. destruct (decide (_ < 2)) as [|Hge]; [done|].
    destruct (_ || _); [done|]. intros [= <-].
    unfold AlertNode_ok, zlen. cbn. rewrite length_replicate, Hflap.
    split_and!; [done| |done]. intros _. lia.
  - intros [= <-]. unfold AlertNode_ok. cbn. rewrite Hflap. done.
Qed.

End AlertConstruction.

(** C6, where the code departs from it.  A configuration with flap
    detection and the negative threshold [flap_low = -0.5] is accepted,
    in binary64 and in exact arithmetic alike: only thresholds above
    one are rejected. *)
Lemma newAlertNode_accepts_negative_threshold :
  newAlertNode (toyFlapConfig StreamEdge 0 (-0.5)%float 0.5%float)
  = inl (toyFlapNode 21 (toyFlapConfig StreamEdge 0 (-0.5)%float 0.5%float))
  /\ newAlertNode (toyFlapConfig StreamEdge 0 (-1 # 2)%Q (1 # 2)%Q)
     = inl (toyFlapNode 21 (toyFlapConfig StreamEdge 0 (-1 # 2)%Q (1 # 2)%Q)).
Proof. split; reflexivity. Qed.

(** A history of one entry is rejected, thresholds above one are
    rejected, and an unset history gives 21 entries. *)
Example newAlertNode_flap_examples :
  newAlertNode (toyFlapConfig StreamEdge 1 (1 # 4) (1 # 2))
    = inr "alert history count must be >= 2"%string /\
  newAlertNode (toyFlapConfig StreamEdge (-3) (1 # 4) (1 # 2))
    = inr "alert history count must be >= 2"%string /\
  newAlertNode (toyFlapConfig StreamEdge 4 (1 # 4) (3 # 2))
    = inr "alert flap thresholds are percentages and should be between 0 and 1"%string /\
  newAlertNode (toyFlapConfig StreamEdge 0 (1 # 4) (1 # 2))
    = inl (toyFlapNode 21 (toyFlapConfig StreamEdge 0 (1 # 4) (1 # 2))).
Proof. repeat split. Qed.

(** ** Flap detection *)

Section FlapDetection.
Context {F : Type} `{Float64 F} `{ExprPkg} `{ModelsPkg}.

Lemma zlookup_Some_lt {A} (s : list A) (i : Z) :
  0 <= i < zlen s -> exists x, zlookup s i = Some x.
Proof.
  intros Hi. unfold zlookup, zlen in *. rewrite decide_True by lia.
  apply lookup_lt_is_Some. lia.
Qed.

Lemma zlen_ringOrder (hist : list AlertLevel) (idx : Z) :
  zlen (ringOrder hist idx) = zlen hist.
Proof.
  unfold zlen, ringOrder. rewrite length_app, length_drop, length_take. lia.
Qed.

(** Entry [k] of the ring read from oldest to newest is the slot
    [(idx + k) mod l] of the history. *)
Lemma zlookup_ringOrder (hist : list AlertLevel) (idx k : Z) :
  0 <= idx < zlen hist -> 0 <= k < zlen hist ->
  zlookup (ringOrder hist idx) k = zlookup hist ((idx + k) mod zlen hist).
Proof.
  intros Hidx Hk. unfold zlookup, ringOrder, zlen in *.
  rewrite !decide_True by (try apply Z.mod_pos_bound; lia).
  destruct (decide (idx + k < Z.of_nat (length hist))) as [Hlt|Hge].
  - rewrite Z.mod_small by lia.
    rewrite lookup_app_l by (rewrite length_drop; lia).
    rewrite lookup_drop. f_equal. lia.
  - rewrite lookup_app_r by (rewrite length_drop; lia).
    rewrite length_drop, lookup_take_lt by lia.
    f_equal.
    assert ((idx + k) mod Z.of_nat (length hist) = idx + k - Z.of_nat (length hist)) as ->.
    { symmetry. apply (Z.mod_unique _ _ 1); lia. }
    lia.
Qed.

(** The index loop of [updateFlapping] is the walk of the adjacent
    pairs of the ring from oldest to newest. *)
Lemma flapChanges_walk (hist : list AlertLevel) (idx : Z) (step : F) :
  0 <= idx < zlen hist ->
  forall (n : nat) (i : Z) (prev : AlertLevel) (changes weight : F),
    1 <= i -> i + Z.of_nat n = zlen hist ->
    zlookup (ringOrder hist idx) (i - 1) = Some prev ->
    flapChanges n i hist idx (zlen hist) changes weight step
    = Some (weightedChanges prev (drop (Z.to_nat i) (ringOrder hist idx))
              changes weight step).
Proof.
  intros Hidx. induction n as [|n IH]; intros i prev changes weight Hi Hn Hprev.
  - cbn. rewrite drop_ge; [done|].
    pose proof (zlen_ringOrder hist idx) as Hl. unfold zlen in *. lia.
  - cbn [flapChanges]. unfold zrem. rewrite decide_False by lia. cbn.
    rewrite Z.rem_mod_nonneg by lia.
    destruct (zlookup_Some_lt (ringOrder hist idx) i) as [hc Hc].
    { rewrite zlen_ringOrder. lia. }
    pose proof Hc as Hc'. rewrite zlookup_ringOrder in Hc' by lia.
    replace (idx + i) with (i + idx) in Hc' by lia. rewrite Hc'. cbn.
    rewrite zlookup_ringOrder in Hprev by lia.
    assert ((if decide ((i + idx) mod zlen hist - 1 < 0) then zlen hist - 1
             else (i + idx) mod zlen hist - 1) = (idx + (i - 1)) mod zlen hist) as ->.
    { generalize dependent (zlen hist). intros l; intros.
      destruct (decide (i + idx < l)).
      - rewrite !Z.mod_small by lia. rewrite decide_False by lia. lia.
      - assert ((i + idx) mod l = i + idx - l) as ->
          by (symmetry; apply (Z.mod_unique _ _ 1); lia).
        case_decide.
        + rewrite Z.mod_small by lia. lia.
        + apply (Z.mod_unique _ _ 1); lia. }
    rewrite Hprev. cbn.
    unfold zlookup in Hc. rewrite decide_True in Hc by lia.
    rewrite (drop_S _ _ _ Hc). cbn [weightedChanges].
    replace (S (Z.to_nat i)) with (Z.to_nat (i + 1)) by lia.
    apply IH; [lia|lia|].
    replace (i + 1 - 1) with i by lia.
    unfold zlookup. by rewrite decide_True by lia.
Qed.

(** The score computed by the index loop is the score of the ring. *)
Lemma flapScore_ring (hist : list AlertLevel) (idx : Z) :
  0 <= idx < zlen hist ->
  flapScore hist idx = Some (ringScore (ringOrder hist idx)).
Proof.
  intros Hidx. unfold flapScore, ringScore. rewrite zlen_ringOrder.
  destruct (zlookup_Some_lt (ringOrder hist idx) 0) as [oldest Ho].
  { rewrite zlen_ringOrder. lia. }
  rewrite (flapChanges_walk hist idx _ Hidx _ 1 oldest); [|lia|lia|done].
  cbn. unfold zlookup in Ho. cbn in Ho.
  destruct (ringOrder hist idx) as [|o rest]; [done|].
  cbn in Ho. injection Ho as ->. reflexivity.
Qed.

(** With the index inside the ring the write and the advance do not
    panic. *)
Lemma flapWrite_ok (an : AlertNode (F := F)) (level : AlertLevel) :
  0 <= hIdx an < zlen (history an) ->
  flapWrite an level
  = Some (<[Z.to_nat (hIdx an) := level]> (history an),
          (hIdx an + 1) mod zlen (history an)).
Proof.
  intros Hidx. unfold flapWrite, zupdate, zrem, zlen in *.
  rewrite decide_True by lia. cbn. rewrite length_insert.
  rewrite decide_False by lia. cbn. by rewrite Z.rem_mod_nonneg by lia.
Qed.

(** The score of a tick is the score of the ring after the write. *)
Lemma tickScore_ring (an : AlertNode (F := F)) (level : AlertLevel) :
  0 <= hIdx an < zlen (history an) ->
  tickScore an level
  = Some (ringScore (ringOrder (<[Z.to_nat (hIdx an) := level]> (history an))
                               ((hIdx an + 1) mod zlen (history an)))).
Proof.
  intros Hidx. unfold tickScore. rewrite flapWrite_ok by done. cbn.
  apply flapScore_ring. unfold zlen in *. rewrite length_insert.
  apply Z.mod_pos_bound. lia.
Qed.

(** With the index inside the ring, [updateFlapping] does not panic and
    is one tick of the ring. *)
Lemma updateFlapping_total (an : AlertNode (F := F)) (level : AlertLevel) :
  0 <= hIdx an < zlen (history an) ->
  updateFlapping an level = Some (flapTick an level).
Proof.
  intros Hidx.
  unfold updateFlapping. rewrite flapWrite_ok by done. cbn.
  rewrite flapScore_ring.
  2:{ unfold zlen in *. rewrite length_insert. apply Z.mod_pos_bound. lia. }
  cbn. unfold flapTick. f_equal. f_equal.
  destruct (flapping an); cbn; by destruct (flt _ _).
Qed.

(** A tick keeps the invariant of the node. *)
Lemma flapTick_ok (an : AlertNode (F := F)) (level : AlertLevel) :
  UseFlapping (a an) = true -> AlertNode_ok an -> AlertNode_ok (flapTick an level).
Proof.
  intros Hflap (Hlv & Hring & _). destruct (Hring Hflap) as [Hlen Hidx].
  unfold AlertNode_ok, flapTick, zlen in *. cbn. rewrite length_insert.
  split_and!; [done| |congruence].
  intros _. split; [done|]. apply Z.mod_pos_bound. lia.
Qed.

(** C2. For a node with flap detection enabled, [updateFlapping] writes
    the level at the ring index, advances the index modulo the history
    length [H], scores the ring by walking its [H - 1] adjacent pairs
    from oldest to newest with [weight0 = maxWeight / weightDiff] and
    [step = (maxWeight - weight0) / (H - 1)], each differing pair adding
    the current weight and the weight growing by [step] after every
    pair, [p = changes / (H - 1)]; the flag is cleared when flapping and
    [p < flap_low], set when not flapping and [p > flap_high], and kept
    otherwise. *)
Theorem updateFlapping_ring (an : AlertNode (F := F)) (level : AlertLevel) :
  UseFlapping (a an) = true -> AlertNode_ok an ->
  updateFlapping an level = Some (flapTick an level).
Proof.
  intros Hflap (_ & Hring & _). destruct (Hring Hflap) as [_ Hidx].
  by apply updateFlapping_total.
Qed.

End FlapDetection.

(** ** Monotonicity of the flap score *)


Section FlapMonotone.
Context {F : Type} `{Float64Laws F} `{ExprPkg} `{ModelsPkg}.

(** The ring after a tick: the entries that were after the written
    slot, those before it, and the new level as newest entry. *)
Lemma ringOrder_after_write (hist : list AlertLevel) (hIdx : Z) (v : AlertLevel) :
  0 <= hIdx < zlen hist ->
  ringOrder (<[Z.to_nat hIdx := v]> hist) ((hIdx + 1) mod zlen hist)
  = drop (S (Z.to_nat hIdx)) hist ++ take (Z.to_nat hIdx) hist ++ [v].
Proof.
  intros Hidx. unfold zlen in *.
  destruct (lookup_lt_is_Some_2 hist (Z.to_nat hIdx)) as [old Hold]; [lia|].
  pose proof (take_drop_middle hist _ old Hold) as Hsplit.
  assert (length (take (Z.to_nat hIdx) hist) = Z.to_nat hIdx) as Hpre
    by (rewrite length_take; lia).
  revert Hsplit Hpre.
  generalize (take (Z.to_nat hIdx) hist) (drop (S (Z.to_nat hIdx)) hist).
  intros pre post <- Hpre. clear Hold.
  rewrite length_app in Hidx |- *. cbn [length] in Hidx |- *.
  rewrite insert_app_r_alt by lia.
  replace (Z.to_nat hIdx - length pre)%nat with 0%nat by lia. cbn [insert list_insert].
  unfold ringOrder. destruct post as [|p post].
  - cbn [length] in *.
    assert ((hIdx + 1) mod Z.of_nat (length pre + 1) = 0) as ->.
    { symmetry. apply (Z.mod_unique _ _ 1); lia. }
    cbn. by rewrite app_nil_r.
  - rewrite Z.mod_small by (cbn [length]; lia).
    replace (Z.to_nat (hIdx + 1)) with (length (pre ++ [v])) by (rewrite length_app; cbn; lia).
    change (pre ++ v :: p :: post) with (pre ++ [v] ++ p :: post).
    rewrite app_assoc, drop_app_length, take_app_length. reflexivity.
Qed.





End FlapMonotone.

(** A tick on a fresh ring of four entries. *)
Lemma updateFlapping_ring_witness :
  updateFlapping toyFlap4 CritAlert = Some (flapTick toyFlap4 CritAlert).
Proof.
  apply (updateFlapping_ring toyFlap4 CritAlert); [reflexivity|].
  unfold AlertNode_ok, zlen. cbn. split_and!; (done || lia).
Defined.


(** With a history of four entries and thresholds 1/4 and 1/2, the
    sequence NoAlert, Crit, NoAlert, Crit leaves the node flapping with
    a score of 14/15, and four steady NoAlert inputs clear the flag. *)
Example flapping_sequence :
  flapping <$> feedLevels toyFlap4 [NoAlert; CritAlert; NoAlert; CritAlert] = Some true /\
  (an ← feedLevels toyFlap4 [NoAlert; CritAlert; NoAlert];
   p ← tickScore an CritAlert; Some (Qred p)) = Some (14 # 15)%Q /\
  flapping <$> feedLevels toyFlap4
    [NoAlert; CritAlert; NoAlert; CritAlert; NoAlert; NoAlert; NoAlert; NoAlert]
  = Some false.
Proof. vm_compute. done. Qed.

(** The same sequence in binary64 arithmetic: the constant
    [maxWeight / weightDiff] is the float nearest to 0.8, the score
    after the fourth level is the float 0.93333333333333324 (the exact
    value is 14/15), the node is flapping, and on that tick
    the score with the differing level [CritAlert] is above the score
    with the equal level [NoAlert]. *)
Example flapping_sequence_binary64 :
  (fconst (maxWeight / weightDiff) : float) = 0x1.999999999999ap-1%float /\
  flapping <$> feedLevels toyFlap4Float [NoAlert; CritAlert; NoAlert; CritAlert] = Some true /\
  (an ← feedLevels toyFlap4Float [NoAlert; CritAlert; NoAlert]; tickScore an CritAlert)
  = Some 0x1.dddddddddddddp-1%float /\
  (an ← feedLevels toyFlap4Float [NoAlert; CritAlert; NoAlert];
   px ← tickScore an CritAlert; py ← tickScore an NoAlert; Some (fle py px)) = Some true /\
  flapping <$> feedLevels toyFlap4Float
    [NoAlert; CritAlert; NoAlert; CritAlert; NoAlert; NoAlert; NoAlert; NoAlert]
  = Some false.
Proof. vm_compute. done. Qed.

(** In binary64 the score is monotone on every ring of two to six
    entries, at every index: rounding does not break the order there. *)
Example binary64_score_monotone_small_rings :
  forallb (fun hist =>
             forallb (scoreMonotoneOn (toyFlapConfig StreamEdge 0 0.25%float 0.5%float) hist)
                     (Z.of_nat <$> seq 0 (length hist)))
          (n ← [2; 3; 4; 5; 6]%nat; allRings n)
  = true.
Proof. vm_compute. reflexivity. Qed.

(** ** Stream and batch dispatch *)

Section Dispatch.
Context {F : Type} `{Float64 F} `{ExprPkg} `{ModelsPkg}.
Context (BatchToRow : Batch -> Row).

Lemma configured_bounds (ls : list (option StatefulExpr)) :
  forall (l : Z) (c : Z * StatefulExpr),
    c ∈ configured l ls -> l <= fst c < l + zlen ls.
Proof.
  unfold zlen. induction ls as [|[se|] ls IH]; intros l c Hin; cbn in *.
  - by apply elem_of_nil in Hin.
  - apply elem_of_cons in Hin as [->|Hin]; [cbn; lia|].
    apply IH in Hin. lia.
  - apply IH in Hin. lia.
Qed.

Lemma last_elem_of {A} (xs : list A) (d : A) : List.last xs d ∈ d :: xs.
Proof.
  revert d. induction xs as [|x xs IH]; intros d; [constructor|].
  rewrite last_cons_default. constructor. apply IH.
Qed.

(** [determineLevel] changes the level expressions only, keeps their
    number, and returns a level between [NoAlert] and [CritAlert]. *)
Lemma determineLevel_shape (an : AlertNode (F := F)) (fields : Fields)
    (tags : gmap string string) :
  AlertNode_ok an ->
  exists l ls' log,
    determineLevel an fields tags = (l, set_levels an ls', log) /\
    length ls' = 4%nat /\ NoAlert <= l <= CritAlert.
Proof.
  intros (Hlv & _).
  destruct (determineLevel_from_split 0 (levels an) fields tags NoAlert)
    as (passed & rest & ls' & Hc & _ & _ & Hd & _ & Hl).
  exists (lastLevel NoAlert passed), ls', (from_option (errorLog fields tags) [] (head rest)).
  unfold determineLevel. rewrite Hd. split; [done|]. split; [congruence|].
  unfold lastLevel, NoAlert, CritAlert.
  pose proof (last_elem_of (map fst passed) 0) as Hin.
  apply elem_of_cons in Hin as [->|Hin]; [lia|].
  apply list_elem_of_fmap in Hin as (c & -> & Hin).
  assert (c ∈ configured 0 (levels an)) as Hin' by (rewrite Hc; set_solver).
  apply configured_bounds in Hin'. unfold zlen in Hin'. lia.
Qed.

Lemma set_levels_ok (an : AlertNode (F := F)) (ls : list (option StatefulExpr)) :
  AlertNode_ok an -> length ls = 4%nat -> AlertNode_ok (set_levels an ls).
Proof. intros (_ & Hr & Hf) Hl. by split_and!. Qed.

Lemma afterFlap_ok (an : AlertNode (F := F)) (level : AlertLevel) :
  AlertNode_ok an -> AlertNode_ok (afterFlap an level).
Proof.
  intros Hok. unfold afterFlap. destruct (UseFlapping (a an)) eqn:Hflap; [|done].
  by apply flapTick_ok.
Qed.

(** The flap update of [runAlert] does not panic. *)
Lemma updateFlapping_afterFlap (an : AlertNode (F := F)) (level : AlertLevel) :
  AlertNode_ok an -> UseFlapping (a an) = true ->
  updateFlapping an level = Some (afterFlap an level).
Proof.
  intros (_ & Hring & _) Hflap. destruct (Hring Hflap) as [_ Hidx].
  unfold afterFlap. rewrite Hflap. by apply updateFlapping_total.
Qed.

Lemma afterFlap_fields (an : AlertNode (F := F)) (level : AlertLevel) :
  a (afterFlap an level) = a an /\ handlers (afterFlap an level) = handlers an /\
  levels (afterFlap an level) = levels an.
Proof. unfold afterFlap. by destruct (UseFlapping (a an)). Qed.

(** The calls made for a level between [InfoAlert] and [CritAlert]
    carry a level whose text is INFO, WARNING or CRITICAL. *)
Lemma dispatched_levels (an : AlertNode (F := F)) (l : AlertLevel) (b : Batch) :
  NoAlert < l <= CritAlert -> Forall emitsAlertLevel (dispatched BatchToRow an l b).
Proof.
  intros Hl. unfold dispatched. destruct (flapping an); [constructor|].
  apply Forall_fmap, Forall_true. intros h. cbn. split; [lia|].
  unfold NoAlert, CritAlert in Hl.
  assert (l = 1 \/ l = 2 \/ l = 3) as [-> | [-> | ->]] by lia; cbn; repeat constructor.
Qed.

Lemma determineLevel_log (an : AlertNode (F := F)) (fields : Fields)
    (tags : gmap string string) :
  Forall emitsAlertLevel (snd (determineLevel an fields tags)).
Proof.
  destruct (determineLevel_from_split 0 (levels an) fields tags NoAlert)
    as (passed & rest & ls' & _ & _ & _ & Hd & _).
  unfold determineLevel. rewrite Hd. cbn.
  destruct (head rest) as [c|]; cbn; [|constructor].
  unfold errorLog. destruct (snd _); repeat constructor.
Qed.

(** C3. In stream mode the level of the point is computed first; with
    flap detection the flap state is updated with that level; while the
    node is then flapping nothing is sent; otherwise, exactly when the
    level is above [NoAlert], every configured handler is called once
    with that level and the row of the batch that has the name, the
    group and the tags of the point and, as its only entry, the time
    and the fields of the point.  Every call carries a level above
    [NoAlert], so the serialized level is INFO, WARNING or CRITICAL. *)
Theorem alertPoint_stream (an : AlertNode (F := F)) (p : Point) :
  AlertNode_ok an ->
  exists l an1 log evs,
    determineLevel an (p_Fields p) (p_Tags p) = (l, an1, log) /\
    evs = (if decide (l > NoAlert)
           then dispatched BatchToRow (afterFlap an1 l) l
                  {| b_Name := p_Name p; b_Group := p_Group p; b_Tags := p_Tags p;
                     b_Points := [{| tf_Time := p_Time p; tf_Fields := p_Fields p |}] |}
           else []) /\
    alertPoint BatchToRow an p = Some (afterFlap an1 l, log ++ evs) /\
    handlers (afterFlap an1 l) = handlers an /\
    AlertNode_ok (afterFlap an1 l) /\
    Forall emitsAlertLevel (log ++ evs).
Proof.
  intros Hok.
  destruct (determineLevel_shape an (p_Fields p) (p_Tags p) Hok)
    as (l & ls' & log & Hd & Hl & Hrange).
  pose proof (set_levels_ok an ls' Hok Hl) as Hok1.
  pose proof (determineLevel_log an (p_Fields p) (p_Tags p)) as Hlog.
  rewrite Hd in Hlog. cbn in Hlog.
  eexists l, (set_levels an ls'), log, _. split_and!; [done|reflexivity| | | |].
  - unfold alertPoint. rewrite Hd.
    destruct (UseFlapping (a (set_levels an ls'))) eqn:Hflap.
    + rewrite (updateFlapping_afterFlap _ l Hok1 Hflap). cbn.
      unfold dispatched, callHandlers.
      destruct (flapping (afterFlap (set_levels an ls') l)).
      * by destruct (decide (l > NoAlert)); rewrite app_nil_r.
      * by destruct (decide (l > NoAlert)).
    + destruct Hok1 as (_ & _ & Hnf). specialize (Hnf Hflap).
      unfold afterFlap, dispatched, callHandlers. rewrite Hflap, Hnf. done.
  - by destruct (afterFlap_fields (set_levels an ls') l) as (_ & -> & _).
  - by apply afterFlap_ok.
  - apply Forall_app. split; [done|].
    destruct (decide (l > NoAlert)); [|constructor].
    apply dispatched_levels. lia.
Qed.

(** Classifying points changes the level expressions only. *)
Lemma classifyPoints_ok (tags : gmap string string) (pts : list TimeFields) :
  forall an : AlertNode (F := F),
    AlertNode_ok an -> AlertNode_ok (snd (fst (classifyPoints an tags pts))).
Proof.
  induction pts as [|p pts IH]; intros an Hok; [done|]. cbn.
  destruct (determineLevel_shape an (tf_Fields p) tags Hok)
    as (l & ls' & log & -> & Hl & _).
  specialize (IH _ (set_levels_ok an ls' Hok Hl)).
  by destruct (classifyPoints (set_levels an ls') tags pts) as [[ls an'] log'].
Qed.

(** The walk of the batch passes over the points whose level is not
    above [NoAlert]: they are classified, nothing else happens. *)
Lemma alertBatchPoints_quiet (b : Batch) (rest : list TimeFields) (pre : list TimeFields) :
  forall an : AlertNode (F := F),
    AlertNode_ok an ->
    Forall (fun l => ~ l > NoAlert) (fst (fst (classifyPoints an (b_Tags b) pre))) ->
    alertBatchPoints BatchToRow an b (pre ++ rest)
    = '(t, an', evs) ← alertBatchPoints BatchToRow
                          (snd (fst (classifyPoints an (b_Tags b) pre))) b rest;
      Some (t, an', snd (classifyPoints an (b_Tags b) pre) ++ evs).
Proof.
  induction pre as [|p pre IH]; intros an Hok Hquiet.
  - cbn. by destruct (alertBatchPoints _ _ _ _) as [[[t an'] evs]|].
  - cbn in *.
    destruct (determineLevel_shape an (tf_Fields p) (b_Tags b) Hok)
      as (l & ls' & log & Hd & Hl & _).
    rewrite Hd in *.
    specialize (IH _ (set_levels_ok an ls' Hok Hl)).
    destruct (classifyPoints (set_levels an ls') (b_Tags b) pre) as [[ls an1] log1].
    cbn in *. apply Forall_cons in Hquiet as [Hl0 Hquiet].
    rewrite decide_False by done. rewrite (IH Hquiet).
    destruct (alertBatchPoints _ an1 b rest) as [[[t an'] evs]|]; [|done].
    cbn. by rewrite app_assoc.
Qed.

(** C4. In batch mode the points are examined in order.  The first
    point whose level is above [NoAlert] ends the walk: the points
    after it are not classified, the flap state (when enabled) is
    updated once, with that level, and unless the node is then flapping
    every handler is called with that level and the whole batch.  When
    no point has a level above [NoAlert], nothing is sent and the flap
    state (when enabled) is updated once with [NoAlert]. *)
Theorem alertBatch_first_trigger (an : AlertNode (F := F)) (b : Batch) :
  AlertNode_ok an ->
  (forall pre p post ls an1 log1 l an2 log2,
     b_Points b = pre ++ p :: post ->
     classifyPoints an (b_Tags b) pre = (ls, an1, log1) ->
     Forall (fun l => ~ l > NoAlert) ls ->
     determineLevel an1 (tf_Fields p) (b_Tags b) = (l, an2, log2) ->
     l > NoAlert ->
     alertBatch BatchToRow an b
     = Some (afterFlap an2 l,
             log1 ++ log2 ++ dispatched BatchToRow (afterFlap an2 l) l b)) /\
  (forall ls an1 log1,
     classifyPoints an (b_Tags b) (b_Points b) = (ls, an1, log1) ->
     Forall (fun l => ~ l > NoAlert) ls ->
     alertBatch BatchToRow an b = Some (afterFlap an1 NoAlert, log1)).
Proof.
  intros Hok. split.
  - intros pre p post ls an1 log1 l an2 log2 Hpts Hpre Hquiet Hd Hl.
    pose proof (classifyPoints_ok (b_Tags b) pre an Hok) as Hok1.
    unfold alertBatch. rewrite Hpts, alertBatchPoints_quiet by (by rewrite ?Hpre).
    rewrite Hpre in *. cbn [fst snd] in *.
    destruct (determineLevel_shape an1 (tf_Fields p) (b_Tags b) Hok1)
      as (l' & ls' & log' & Hd' & Hl' & _).
    rewrite Hd in Hd'. injection Hd' as -> -> ->.
    pose proof (set_levels_ok an1 ls' Hok1 Hl') as Hok2.
    cbn [alertBatchPoints]. rewrite Hd, decide_True by done.
    destruct (UseFlapping (a (set_levels an1 ls'))) eqn:Hflap.
    + rewrite (updateFlapping_afterFlap _ l' Hok2 Hflap). cbn.
      unfold dispatched, callHandlers.
      destruct (flapping (afterFlap (set_levels an1 ls') l')); cbn;
        by rewrite ?app_nil_r.
    + destruct Hok2 as (_ & _ & Hnf). specialize (Hnf Hflap). cbn.
      unfold afterFlap, dispatched, callHandlers. by rewrite Hflap, Hnf.
  - intros ls an1 log1 Hall Hquiet.
    pose proof (classifyPoints_ok (b_Tags b) (b_Points b) an Hok) as Hok1.
    unfold alertBatch. rewrite <- (app_nil_r (b_Points b)).
    rewrite alertBatchPoints_quiet by (by rewrite ?app_nil_r, ?Hall).
    rewrite Hall in *. cbn [fst snd alertBatchPoints mbind option_bind] in *.
    rewrite app_nil_r. unfold afterFlap.
    destruct (UseFlapping (a an1)) eqn:Hflap; cbn; [|done].
    destruct Hok1 as (_ & Hring & _). destruct (Hring Hflap) as [_ Hidx].
    by rewrite updateFlapping_total.
Qed.

End Dispatch.

(** The invariant of a concrete node. *)
Ltac concrete_ok := unfold AlertNode_ok, zlen; cbn; split_and!; (done || lia).

(** A point with [value = 95] on the stream alert with flap
    detection. *)
Lemma alertPoint_stream_witness :
  exists l an1 log evs,
    determineLevel toyFlap4 (p_Fields (toyPoint 95)) (p_Tags (toyPoint 95)) = (l, an1, log) /\
    evs = (if decide (l > NoAlert)
           then dispatched toyBatchToRow (afterFlap an1 l) l
                  {| b_Name := p_Name (toyPoint 95); b_Group := p_Group (toyPoint 95);
                     b_Tags := p_Tags (toyPoint 95);
                     b_Points := [{| tf_Time := p_Time (toyPoint 95);
                                     tf_Fields := p_Fields (toyPoint 95) |}] |}
           else []) /\
    alertPoint toyBatchToRow toyFlap4 (toyPoint 95) = Some (afterFlap an1 l, log ++ evs) /\
    handlers (afterFlap an1 l) = handlers toyFlap4 /\
    AlertNode_ok (afterFlap an1 l) /\
    Forall emitsAlertLevel (log ++ evs).
Proof. apply (alertPoint_stream toyBatchToRow toyFlap4 (toyPoint 95)). concrete_ok. Defined.

(** Crit is [value > 90]: the record with [value = 95] calls the handler
    once with CRITICAL and a batch of that one point, the next record
    with [value = 50] calls nothing. *)
Example runAlert_stream_crit :
  match newAlertNode (toyConfig EmptyString "value > 90") with
  | inl an =>
      snd <$> runAlert toyBatchToRow an
                [{| points := [toyPoint 95; toyPoint 50]; batches := [] |}]
  | inr _ => None
  end
  = Some [Handled handlePost
            {| ad_Level := CritAlert;
               ad_Data := {| Series := [("cpu"%string, 1%nat)] |} |}]
  /\ AlertLevel_MarshalText CritAlert = Some "CRITICAL"%string.
Proof. split; reflexivity. Qed.

(** A batch with values 50, 95, 99: the second point triggers, the
    whole batch is sent at its level, the flap state is updated once
    and the third point is never classified (the crit predicate has been
    evaluated twice). *)
Lemma alertBatch_first_trigger_witness :
  alertBatch toyBatchToRow toyFlap4Batch (toyBatch [50; 95; 99])
  = Some (afterFlap (set_levels toyFlap4Batch [None; None; None; Some (Above 90, 2%nat)])
                    CritAlert,
          [] ++ [] ++
          dispatched toyBatchToRow
            (afterFlap (set_levels toyFlap4Batch [None; None; None; Some (Above 90, 2%nat)])
                       CritAlert)
            CritAlert (toyBatch [50; 95; 99])).
Proof.
  assert (AlertNode_ok toyFlap4Batch) as Hok by concrete_ok.
  apply (proj1 (alertBatch_first_trigger toyBatchToRow toyFlap4Batch
                  (toyBatch [50; 95; 99]) Hok)
               [toyTimeFields 50] (toyTimeFields 95) [toyTimeFields 99]
               [NoAlert]
               (set_levels toyFlap4Batch [None; None; None; Some (Above 90, 1%nat)])).
  - reflexivity.
  - reflexivity.
  - repeat constructor. unfold NoAlert. lia.
  - reflexivity.
  - unfold CritAlert, NoAlert. lia.
Defined.

(** The same batch evaluated, and a batch that does not trigger: one
    flap update with [NoAlert], nothing sent. *)
Example alertBatch_examples :
  alertBatch toyBatchToRow toyFlap4Batch (toyBatch [50; 95; 99])
  = Some (set_flap (set_levels toyFlap4Batch [None; None; None; Some (Above 90, 2%nat)])
                   [CritAlert; NoAlert; NoAlert; NoAlert] 1 false,
          [Handled handlePost
             {| ad_Level := CritAlert;
                ad_Data := {| Series := [("cpu"%string, 3%nat)] |} |}])
  /\ alertBatch toyBatchToRow toyFlap4Batch (toyBatch [50; 60])
     = Some (set_flap (set_levels toyFlap4Batch [None; None; None; Some (Above 90, 2%nat)])
                      [NoAlert; NoAlert; NoAlert; NoAlert] 1 false, []).
Proof. split; reflexivity. Qed.

(** ** Task snapshots *)

Section TaskSnapshots.
Context {EdgeT : Type}.

(** The first walk of [start] returns no error exactly when every
    node's name is a key of the snapshot. *)
Lemma check_walk (snap : TaskSnapshot) (ns : list Node) :
  snd (walk_nodes (fun n (_ : unit) =>
         match NodeSnapshots snap !! Name n with
         | Some _ => (tt, None)
         | None => (tt, Some "task pipeline changed not using snapshot"%string)
         end) ns tt) = None
  <-> Forall (fun n => Name n ∈ dom (NodeSnapshots snap)) ns.
Proof.
  induction ns as [|n ns IH]; cbn; [by split; [constructor|]|].
  rewrite Forall_cons, elem_of_dom.
  destruct (NodeSnapshots snap !! Name n) as [v|] eqn:E; cbn.
  - rewrite IH. split; [by eauto|tauto].
  - split; [done|]. intros [[v Hv] _]. discriminate.
Qed.

Lemma validSnapshot_covers (et : ExecutingTask) (snap : TaskSnapshot) :
  validSnapshot et (Some snap) = bool_decide (snapshotCovers et snap).
Proof.
  unfold validSnapshot, walk, snapshotCovers.
  pose proof (check_walk snap (nodes et)) as Hw.
  destruct (walk_nodes _ (nodes et) tt) as [u [e|]]; cbn in Hw; symmetry.
  - apply bool_decide_eq_false. intros Hc. apply Hw in Hc. discriminate.
  - apply bool_decide_eq_true. by apply Hw.
Qed.

(** The second walk of [start] never fails and starts the nodes in
    order. *)
Lemma start_walk (state : Node -> bytes) (ns : list Node) (evs : list (StartEvent (EdgeT := EdgeT))) :
  walk_nodes (fun n evs => (evs ++ [Started n (state n)], None)) ns evs
  = (evs ++ map (fun n => Started n (state n)) ns, None).
Proof.
  revert evs. induction ns as [|n ns IH]; intros evs; cbn.
  - by rewrite app_nil_r.
  - rewrite IH. by rewrite <- app_assoc.
Qed.

(** [start] with a snapshot: the calls made and the error returned. *)
Lemma start_calls (et : ExecutingTask) (ins : list EdgeT) (snap : TaskSnapshot) :
  start et ins (Some snap)
  = (startCalls et ins (fun n =>
       if decide (snapshotCovers et snap)
       then mapIndex (NodeSnapshots snap) (Name n) else None), None).
Proof.
  unfold start, walk, startCalls. rewrite validSnapshot_covers.
  destruct (decide (snapshotCovers et snap)) as [Hc|Hc].
  - rewrite bool_decide_eq_true_2 by done. rewrite start_walk.
    case_decide; by rewrite <- ?app_assoc, ?app_nil_r.
  - rewrite bool_decide_eq_false_2 by done. rewrite start_walk.
    case_decide; by rewrite <- ?app_assoc, ?app_nil_r.
Qed.

(** C5, as amended.  Started with a snapshot, the task uses it exactly
    when every runtime node's name is a key of the snapshot; keys of the
    snapshot that name no node are ignored.  When it is used every node
    is started with the bytes stored under its name, otherwise every
    node is started with nil; in either case [start] returns no
    error. *)
Theorem start_uses_snapshot_iff_covered (et : ExecutingTask)
    (ins : list EdgeT) (snap : TaskSnapshot) :
  (validSnapshot et (Some snap) = true <->
   forall n, n ∈ nodes et -> Name n ∈ dom (NodeSnapshots snap)) /\
  start et ins (Some snap)
  = (startCalls et ins (fun n =>
       if validSnapshot et (Some snap)
       then mapIndex (NodeSnapshots snap) (Name n) else None), None).
Proof.
  split.
  - rewrite validSnapshot_covers, bool_decide_eq_true.
    unfold snapshotCovers. apply Forall_forall.
  - rewrite start_calls, validSnapshot_covers.
    by destruct (decide (snapshotCovers et snap));
      [rewrite bool_decide_eq_true_2|rewrite bool_decide_eq_false_2].
Qed.

(** When the walk of [Snapshot] returns no error, every node handed out
    its bytes and the map holds one write per node, in walk order. *)
Lemma Snapshot_walk (ns : list Node) :
  forall m0 m : gmap string bytes,
    walk_nodes (fun n (m : gmap string bytes) =>
      match snapshot n with
      | inr e => (m, Some e)
      | inl data => (<[Name n := data]> m, None)
      end) ns m0 = (m, None) ->
    Forall (fun n => snapshot n = inl (snapshotData n)) ns /\ m = writeSnapshots m0 ns.
Proof.
  induction ns as [|n ns IH]; intros m0 m; cbn [walk_nodes].
  - intros [= <-]. by split.
  - destruct (snapshot n) as [data|e] eqn:E; [|done].
    assert (snapshotData n = data) as Hdata by (unfold snapshotData; by rewrite E).
    intros Hw. apply IH in Hw as [Hall ->]. split.
    + constructor; [congruence|done].
    + change (writeSnapshots m0 (n :: ns))
        with (writeSnapshots (<[Name n := snapshotData n]> m0) ns).
      by rewrite Hdata.
Qed.

Lemma dom_writeSnapshots (ns : list Node) :
  forall m0 : gmap string bytes,
    dom (writeSnapshots m0 ns) = dom m0 ∪ list_to_set (map Name ns).
Proof.
  induction ns as [|n ns IH]; intros m0; [cbn; set_solver|].
  change (writeSnapshots m0 (n :: ns))
    with (writeSnapshots (<[Name n := snapshotData n]> m0) ns).
  rewrite IH, dom_insert_L. cbn. set_solver.
Qed.

Lemma lookup_writeSnapshots_other (ns : list Node) (k : string) :
  forall m0 : gmap string bytes,
    k ∉ map Name ns -> writeSnapshots m0 ns !! k = m0 !! k.
Proof.
  induction ns as [|n ns IH]; intros m0 Hk; [done|].
  change (writeSnapshots m0 (n :: ns))
    with (writeSnapshots (<[Name n := snapshotData n]> m0) ns).
  cbn in Hk. apply not_elem_of_cons in Hk as [Hne Hk].
  rewrite IH by done. by rewrite lookup_insert_ne.
Qed.

(** With unique names every node finds its own bytes under its
    name. *)
Lemma lookup_writeSnapshots (ns : list Node) :
  forall (m0 : gmap string bytes) (n : Node),
    NoDup (map Name ns) -> n ∈ ns ->
    writeSnapshots m0 ns !! Name n = Some (snapshotData n).
Proof.
  induction ns as [|n0 ns IH]; intros m0 n Hnd Hin.
  - by apply elem_of_nil in Hin.
  - change (writeSnapshots m0 (n0 :: ns))
      with (writeSnapshots (<[Name n0 := snapshotData n0]> m0) ns).
    cbn in Hnd. apply NoDup_cons in Hnd as [Hfresh Hnd].
    apply elem_of_cons in Hin as [->|Hin]; [|by apply IH].
    rewrite lookup_writeSnapshots_other by done. apply lookup_insert_eq.
Qed.

(** The entry of a name after the writes: the bytes of the last node
    that carries it. *)
Lemma lookup_writeSnapshots_last (pre post : list Node) (n : Node) :
  Name n ∉ map Name post ->
  forall m0 : gmap string bytes,
    writeSnapshots m0 (pre ++ n :: post) !! Name n = Some (snapshotData n).
Proof.
  intros Hpost m0. unfold writeSnapshots. rewrite foldl_app. cbn [foldl].
  fold (writeSnapshots (<[Name n := snapshotData n]> (foldl (fun m n => <[Name n := snapshotData n]> m) m0 pre)) post).
  rewrite lookup_writeSnapshots_other by done. apply lookup_insert_eq.
Qed.

(** C10. When [Snapshot] succeeds, the map it returns holds one write
    per node in walk order and its key set is the set of the task's node
    names; with unique node names it has one entry per node, each node's
    own bytes under its name.  Passed to [start] of a task with the same
    node names it is judged valid, and every node is started with the
    bytes that the node of its name handed out to [Snapshot] (the last
    such node in walk order, the only one when names are unique): with
    unique names every node of the task itself receives its own
    bytes. *)
Theorem Snapshot_then_start_valid (et et' : ExecutingTask) (ins : list EdgeT)
    (snap : TaskSnapshot) :
  Snapshot et = inl snap ->
  NodeSnapshots snap = writeSnapshots ∅ (nodes et) /\
  dom (NodeSnapshots snap) = nodeNames et /\
  (NoDup (map Name (nodes et)) ->
   size (NodeSnapshots snap) = length (nodes et) /\
   forall n, n ∈ nodes et ->
     snapshot n = inl (snapshotData n) /\
     NodeSnapshots snap !! Name n = Some (snapshotData n)) /\
  (nodeNames et' = nodeNames et ->
   validSnapshot et' (Some snap) = true /\
   exists state,
     start et' ins (Some snap) = (startCalls et' ins state, None) /\
     (forall pre n post n',
        nodes et = pre ++ n :: post -> Name n ∉ map Name post ->
        n' ∈ nodes et' -> Name n' = Name n -> state n' = snapshotData n) /\
     (NoDup (map Name (nodes et)) ->
      forall n n', n ∈ nodes et -> n' ∈ nodes et' -> Name n' = Name n ->
                   state n' = snapshotData n)).
Proof.
  unfold Snapshot, walk.
  destruct (walk_nodes _ (nodes et) ∅) as [m [e|]] eqn:Hw; [done|].
  intros [= <-]. cbn [NodeSnapshots].
  apply Snapshot_walk in Hw as [Hall ->].
  assert (dom (writeSnapshots ∅ (nodes et)) = nodeNames et) as Hdom.
  { rewrite dom_writeSnapshots, dom_empty_L. unfold nodeNames. set_solver. }
  split_and!; [done|done| |].
  - intros Hnd. split.
    + rewrite <- size_dom, Hdom. unfold nodeNames.
      rewrite size_list_to_set by done. apply length_map.
    + intros n Hin. split; [|by apply lookup_writeSnapshots].
      by apply (proj1 (Forall_forall _ _) Hall).
  - intros Hnames.
    assert (snapshotCovers et' {| NodeSnapshots := writeSnapshots ∅ (nodes et) |}) as Hc.
    { apply Forall_forall. intros n Hin. cbn. rewrite Hdom, <- Hnames.
      unfold nodeNames. apply elem_of_list_to_set, list_elem_of_fmap. eauto. }
    rewrite validSnapshot_covers, start_calls, bool_decide_eq_true_2 by done.
    split; [done|]. eexists. split; [reflexivity|].
    assert (forall pre n post n',
              nodes et = pre ++ n :: post -> Name n ∉ map Name post ->
              n' ∈ nodes et' -> Name n' = Name n ->
              (if decide (snapshotCovers et'
                            {| NodeSnapshots := writeSnapshots ∅ (nodes et) |})
               then mapIndex (writeSnapshots ∅ (nodes et)) (Name n') else None)
              = snapshotData n) as Hlast.
    { intros pre n post n' Hsplit Hpost _ Hname.
      rewrite decide_True by done. unfold mapIndex.
      by rewrite Hname, Hsplit, lookup_writeSnapshots_last. }
    split; [exact Hlast|].
    intros Hnd n n' Hin Hin' Hname.
    apply list_elem_of_split in Hin as (pre & post & Hsplit).
    apply (Hlast pre n post n' Hsplit); [|done|done].
    rewrite Hsplit, map_app in Hnd. cbn [map] in Hnd.
    apply NoDup_app in Hnd as (_ & _ & Hnd). by apply NoDup_cons in Hnd as [? _].
Qed.

End TaskSnapshots.

(** C5 fails as stated: the snapshot has the key [alert1] that names no
    node of the task, so its key set differs from the node names, and
    [start] still uses it: the node is started with its bytes, not with
    nil. *)
Lemma start_accepts_extra_keys :
  dom (NodeSnapshots toySnapshotAB) <> nodeNames toyTaskA /\
  validSnapshot toyTaskA (Some toySnapshotAB) = true /\
  start toyTaskA ([] : list unit) (Some toySnapshotAB)
  = ([Started toyNodeA (toyBytes "a")], None).
Proof.
  split; [|split; reflexivity].
  intros Heq.
  assert ("alert1"%string ∈ dom (NodeSnapshots toySnapshotAB)) as Hin
    by (apply elem_of_dom; eexists; reflexivity).
  rewrite Heq in Hin. unfold nodeNames in Hin. cbn in Hin.
  set_solver.
Qed.

(** The two-node task hands out the snapshot [toySnapshotAB]; started
    with it, the same task gives each node its own bytes. *)
Lemma Snapshot_then_start_valid_witness :
  NodeSnapshots toySnapshotAB = writeSnapshots ∅ (nodes toyTaskAB) /\
  dom (NodeSnapshots toySnapshotAB) = nodeNames toyTaskAB /\
  (NoDup (map Name (nodes toyTaskAB)) ->
   size (NodeSnapshots toySnapshotAB) = length (nodes toyTaskAB) /\
   forall n, n ∈ nodes toyTaskAB ->
     snapshot n = inl (snapshotData n) /\
     NodeSnapshots toySnapshotAB !! Name n = Some (snapshotData n)) /\
  (nodeNames toyTaskAB = nodeNames toyTaskAB ->
   validSnapshot toyTaskAB (Some toySnapshotAB) = true /\
   exists state,
     start toyTaskAB [tt] (Some toySnapshotAB) = (startCalls toyTaskAB [tt] state, None) /\
     (forall pre n post n',
        nodes toyTaskAB = pre ++ n :: post -> Name n ∉ map Name post ->
        n' ∈ nodes toyTaskAB -> Name n' = Name n -> state n' = snapshotData n) /\
     (NoDup (map Name (nodes toyTaskAB)) ->
      forall n n', n ∈ nodes toyTaskAB -> n' ∈ nodes toyTaskAB -> Name n' = Name n ->
                   state n' = snapshotData n)).
Proof.
  apply (Snapshot_then_start_valid toyTaskAB toyTaskAB [tt] toySnapshotAB).
  reflexivity.
Defined.

(** What the calls of that start are, and a start without snapshot
    coverage: a task with a node the snapshot does not name starts every
    node with nil and returns no error. *)
Example start_examples :
  start toyTaskAB [tt] (Some toySnapshotAB)
  = ([AddedParentEdge toyNodeA tt; Started toyNodeA (toyBytes "a");
      Started toyNodeB (toyBytes "b")], None)
  /\ start toyTaskAB [tt] (Some {| NodeSnapshots := {[ "stream0"%string := toyBytes "a" ]} |})
     = ([AddedParentEdge toyNodeA tt; Started toyNodeA None; Started toyNodeB None], None)
  /\ start toyTaskAB [tt] None
     = ([AddedParentEdge toyNodeA tt; Started toyNodeA None; Started toyNodeB None], None).
Proof. repeat split. Qed.

(** ** The lexer *)

(** The model of the lexer produces the token sequences that
    [TestLexer] expects, on every case of [lex_test.go]. *)
Example TestLexer :
  forallb (fun c => bool_decide (lex (fst c) = Some (snd c))) lexCases = true.
Proof. vm_compute. reflexivity. Qed.

Section LexerFacts.
Local Open Scope nat_scope.

Lemma length_list_ascii_of_string (w : string) :
  length (list_ascii_of_string w) = String.length w.
Proof. induction w as [|c w IH]; cbn; congruence. Qed.

Lemma length_string_of_list_ascii (l : list ascii) :
  String.length (string_of_list_ascii l) = length l.
Proof. induction l as [|c l IH]; cbn; congruence. Qed.

Lemma take_length_take {A} (n : nat) (l : list A) :
  take (length (take n l)) l = take n l.
Proof.
  rewrite length_take. destruct (Nat.le_ge_cases n (length l)).
  - by rewrite Nat.min_l.
  - rewrite Nat.min_r by done. by rewrite !take_ge.
Qed.

(** An operator is never an end-of-input or an error token. *)
Lemma lexOperator_kind (s : list ascii) (k : tokenType) (n : nat) :
  lexOperator s = Some (Emit k n) -> k <> TokenEOF /\ k <> TokenError.
Proof.
  unfold lexOperator.
  repeat (case_match; [intros [= <- <-]; by split|]). done.
Qed.

Lemma lexQuoted_kind (k0 : tokenType) (q : ascii) (msg : string) (s : list ascii)
    (k : tokenType) (n : nat) :
  lexQuoted k0 q msg s = Emit k n -> k = k0.
Proof. unfold lexQuoted. case_match; congruence. Qed.

Lemma keyword_kind (w : string) : keyword w <> TokenEOF /\ keyword w <> TokenError.
Proof. unfold keyword. repeat case_match; by split. Qed.

(** The tokens the lexer emits in the middle of the input are neither
    end-of-input nor error tokens. *)
Lemma lexToken_kind (prev : option tokenType) (s : list ascii) (k : tokenType) (n : nat) :
  lexToken prev s = Emit k n -> k <> TokenEOF /\ k <> TokenError.
Proof.
  unfold lexToken. destruct s as [|c s']; [done|]. cbv zeta.
  destruct (isSpace c); [done|].
  destruct (Ascii.eqb c "/").
  { destruct (regexContext prev).
    - intros ->%lexQuoted_kind. by split.
    - destruct (startsWith _ _); [done|]. intros [= <- <-]. by split. }
  destruct (isDigit c).
  { destruct (_ =? 0); intros [= <- <-]; by split. }
  destruct (isLetter c).
  { intros [= <- <-]. apply keyword_kind. }
  destruct (Ascii.eqb c "'").
  { destruct (startsTriple _).
    - destruct (tripleLen _ _); [|done]. intros [= <- <-]. by split.
    - intros ->%lexQuoted_kind. by split. }
  destruct (Ascii.eqb c dquote).
  { intros ->%lexQuoted_kind. by split. }
  destruct (lexOperator (c :: s')) as [act|] eqn:E; [|done].
  intros ->. by apply lexOperator_kind in E.
Qed.

(** With more fuel than characters the lexer returns a token
    stream. *)
Lemma lexFrom_total (fuel : nat) :
  forall (p : nat) (prev : option tokenType) (s : list ascii),
    length s < fuel -> is_Some (lexFrom fuel p prev s).
Proof.
  induction fuel as [|fuel IH]; intros p prev s Hfuel; [lia|].
  destruct s as [|c s']; [by eexists|].
  cbn [lexFrom]. destruct (lexToken prev (c :: s')) as [n|k n|msg]; [| |by eexists].
  - destruct (take n (c :: s')) as [|a lit] eqn:E; [by eexists|].
    apply IH. rewrite length_drop. cbn [length] in *. lia.
  - destruct (take n (c :: s')) as [|a lit] eqn:E; [by eexists|].
    apply fmap_is_Some, IH. rewrite length_drop. cbn [length] in *. lia.
Qed.

(** A token stream without error token, read from offset [p] on,
    ends in the end-of-input token at the end of the input; its other
    tokens are not end-of-input tokens and carry the text found at
    their position. *)
Lemma lexFrom_stream (fuel : nat) :
  forall (p : nat) (prev : option tokenType) (s : list ascii) (toks : list token),
    lexFrom fuel p prev s = Some toks -> errorFree toks ->
    exists body,
      toks = body ++ [{| typ := TokenEOF; pos := p + length s; val := EmptyString |}] /\
      Forall (fun t => typ t <> TokenEOF) body /\
      Forall (fun t => p <= pos t /\
                       take (String.length (val t)) (drop (pos t - p) s)
                       = list_ascii_of_string (val t)) body.
Proof.
  induction fuel as [|fuel IH]; intros p prev s toks Hlex Hwf.
  - destruct s as [|c s']; [|done]. injection Hlex as <-.
    exists []. cbn. rewrite Nat.add_0_r. by split_and!.
  - destruct s as [|c s'].
    { injection Hlex as <-. exists []. cbn. rewrite Nat.add_0_r. by split_and!. }
    cbn [lexFrom] in Hlex.
    destruct (lexToken prev (c :: s')) as [n|k n|msg] eqn:Htok.
    + destruct (take n (c :: s')) as [|a lit] eqn:E.
      { injection Hlex as <-. apply Forall_cons in Hwf as [Hwf _]. by destruct Hwf. }
      rewrite <- E in Hlex.
      assert (length (take n (c :: s')) <= length (c :: s')) as Hle
        by (rewrite length_take; lia).
      destruct (IH _ _ _ _ Hlex Hwf) as (body & -> & Hne & Hat).
      exists body. split_and!; [|done|].
      * do 3 f_equal. rewrite length_drop. lia.
      * eapply Forall_impl; [exact Hat|]. intros t [Hp Ht]. split; [lia|].
        rewrite drop_drop in Ht. rewrite <- Ht. do 2 f_equal. lia.
    + destruct (take n (c :: s')) as [|a lit] eqn:E.
      { injection Hlex as <-. apply Forall_cons in Hwf as [Hwf _]. by destruct Hwf. }
      rewrite <- E in Hlex.
      assert (length (take n (c :: s')) <= length (c :: s')) as Hle
        by (rewrite length_take; lia).
      destruct (lexFrom fuel _ _ _) as [toks'|] eqn:Hrest; [|done].
      injection Hlex as <-. apply Forall_cons in Hwf as [_ Hwf].
      destruct (IH _ _ _ _ Hrest Hwf) as (body & -> & Hne & Hat).
      eexists (_ :: body). split_and!.
      * cbn [app]. do 4 f_equal. rewrite length_drop. lia.
      * constructor; [|done]. cbn. by apply lexToken_kind in Htok as [? _].
      * constructor.
        -- cbn. split; [done|]. rewrite Nat.sub_diag. cbn [drop].
           rewrite length_string_of_list_ascii, take_length_take.
           by rewrite list_ascii_of_string_of_list_ascii.
        -- eapply Forall_impl; [exact Hat|]. intros t [Hp Ht]. split; [lia|].
           rewrite drop_drop in Ht. rewrite <- Ht. do 2 f_equal. lia.
    + injection Hlex as <-. apply Forall_cons in Hwf as [Hwf _]. by destruct Hwf.
Qed.

End LexerFacts.

(** ** The lexer reads the lexical grammar *)

Section LexerGrammar.
Local Open Scope char_scope.
Local Open Scope nat_scope.

(** The character classes of the lexer are those of the grammar. *)
Lemma isDigit_digit (c : ascii) : isDigit c = bool_decide (digit c).
Proof. destruct c as [[] [] [] [] [] [] [] []]; vm_compute; reflexivity. Qed.

Lemma isLetter_letter (c : ascii) : isLetter c = bool_decide (letter c).
Proof. destruct c as [[] [] [] [] [] [] [] []]; vm_compute; reflexivity. Qed.

Lemma isSpace_space (c : ascii) : isSpace c = bool_decide (c ∈ spaceChars).
Proof. destruct c as [[] [] [] [] [] [] [] []]; vm_compute; reflexivity. Qed.

Lemma regexContext_afterMatchOrAssign (prev : option tokenType) :
  regexContext prev = bool_decide (afterMatchOrAssign prev).
Proof. destruct prev as [[]|]; vm_compute; reflexivity. Qed.

Lemma startsWith_spec (w s : list ascii) :
  startsWith w s = true <-> exists r, s = w ++ r.
Proof.
  revert s. induction w as [|a w IH]; intros s; cbn.
  - split; [by eauto|done].
  - destruct s as [|c s]; [split; [done|by intros [? ?]]|].
    rewrite andb_true_iff, IH, Ascii.eqb_eq. split.
    + intros [-> [r ->]]. by eauto.
    + intros [r [= -> ->]]. by eauto.
Qed.

Lemma startsWith_false (w s : list ascii) :
  (~ exists r, s = w ++ r) -> startsWith w s = false.
Proof.
  intros Hn. destruct (startsWith w s) eqn:E; [|done].
  apply startsWith_spec in E. by destruct Hn.
Qed.

Lemma spanLen_app (p : ascii -> bool) (l rest : list ascii) :
  Forall (fun c => p c = true) l ->
  (forall c r, rest = c :: r -> p c = false) ->
  spanLen p (l ++ rest) = length l.
Proof.
  intros Hl Hrest. induction Hl as [|c l Hc Hl IH]; cbn.
  - destruct rest as [|c r]; [done|]. cbn. by rewrite (Hrest c r).
  - by rewrite Hc, IH.
Qed.

Lemma digit_not_beginsWith (rest : list ascii) :
  ~ beginsWith digit rest -> forall c r, rest = c :: r -> isDigit c = false.
Proof.
  intros Hn c r ->. rewrite isDigit_digit. apply bool_decide_eq_false.
  intros Hc. apply Hn. by exists c, r.
Qed.

Lemma Forall_isDigit (ds : list ascii) :
  Forall digit ds -> Forall (fun c => isDigit c = true) ds.
Proof.
  intros Hds. eapply Forall_impl; [exact Hds|].
  intros c Hc. rewrite isDigit_digit. by apply bool_decide_eq_true.
Qed.

Lemma digit_false (c : ascii) : isDigit c = false -> ~ digit c.
Proof. rewrite isDigit_digit. apply bool_decide_eq_false. Qed.

(** The scanner of numbers reads a number of the grammar to its end. *)
Lemma numberLen_numberLit (lit rest : list ascii) :
  numberLit lit -> numberEnds lit rest -> numberLen (lit ++ rest) = length lit.
Proof.
  intros Hlit [Hend Hdot]. unfold numberLen.
  destruct Hlit as [ds Hne Hds|ds fs Hne Hds Hnf Hfs].
  - rewrite (spanLen_app isDigit ds rest);
      [|by apply Forall_isDigit|by apply digit_not_beginsWith].
    rewrite drop_app_length.
    replace (drop (length ds + 1) (ds ++ rest)) with (drop 1 rest)
      by (rewrite <- drop_drop, drop_app_length; done).
    destruct rest as [|c r]; [done|]. cbn [startsWith drop].
    destruct (Ascii.eqb_spec "." c) as [<-|]; [|done]. cbn.
    specialize (Hdot Hds r eq_refl).
    destruct r as [|c' r']; [done|]. cbn.
    by rewrite (digit_not_beginsWith _ Hdot c' r').
  - rewrite <- app_assoc. cbn [app].
    rewrite (spanLen_app isDigit ds); [|by apply Forall_isDigit|by intros c r [= <- _]].
    rewrite drop_app_length. cbn [startsWith]. rewrite Ascii.eqb_refl. cbn [andb].
    replace (drop (length ds + 1) (ds ++ "." :: fs ++ rest)) with (fs ++ rest)
      by (rewrite <- drop_drop, drop_app_length; done).
    rewrite (spanLen_app isDigit fs rest);
      [|by apply Forall_isDigit|by apply digit_not_beginsWith].
    rewrite length_app. cbn [length].
    destruct fs; [done|]. cbn. lia.
Qed.

(** A number of the grammar begins with a digit. *)
Lemma numberLit_head (lit : list ascii) :
  numberLit lit -> exists d l, lit = d :: l /\ digit d.
Proof.
  intros [ds Hne Hds|ds fs Hne Hds _ _]; destruct Hds as [|d ds Hd _]; try done; eauto.
Qed.

Lemma numberLit_nonempty (lit : list ascii) : numberLit lit -> lit <> [].
Proof. by intros (d & l & -> & _)%numberLit_head. Qed.

Lemma unitLen_none (rest : list ascii) :
  (forall u, u ∈ units -> ~ exists r, rest = u ++ r) -> unitLen rest = 0.
Proof.
  intros Hn. unfold unitLen.
  rewrite !startsWith_false; [done|..]; apply Hn; unfold units;
    repeat (first [by left|right]).
Qed.

Lemma unitLen_unit (u rest : list ascii) :
  u ∈ units ->
  (forall u', u' ∈ units -> (exists r, u ++ rest = u' ++ r) -> length u' <= length u) ->
  unitLen (u ++ rest) = length u.
Proof.
  intros Hu Hmax. unfold units in Hu.
  repeat (apply elem_of_cons in Hu as [->|Hu]); try by apply elem_of_nil in Hu.
  all: try reflexivity.
  destruct rest as [|c r]; [reflexivity|].
  destruct (Ascii.eqb_spec "s" c) as [<-|Hc].
  - specialize (Hmax ["m"; "s"]). cbn in Hmax.
    assert (2 <= 1) by (apply Hmax; [unfold units; repeat (first [by left|right])|by eauto]).
    lia.
  - unfold unitLen. cbn [app startsWith]. rewrite Ascii.eqb_refl.
    destruct (Ascii.eqb_spec "s" c); [done|]. reflexivity.
Qed.

(** A unit begins with a character that continues no number. *)
Lemma unit_after_number (num u rest : list ascii) :
  u ∈ units -> numberEnds num (u ++ rest).
Proof.
  intros Hu. unfold units in Hu.
  repeat (apply elem_of_cons in Hu as [->|Hu]); try by apply elem_of_nil in Hu.
  all: split; [intros (c & l & [= <- _] & Hc); revert Hc;
                 apply digit_false; reflexivity
              |intros _ rest' [=]].
Qed.

Lemma keyword_wordKind (w : string) (k : tokenType) : wordKind w k -> keyword w = k.
Proof.
  intros [Hin|[Hnin ->]].
  - unfold reservedWords in Hin.
    repeat (apply elem_of_cons in Hin as [[= -> ->]|Hin]); try by apply elem_of_nil in Hin.
    all: reflexivity.
  - unfold keyword.
    repeat match goal with
           | |- context [String.eqb w ?s] =>
               destruct (String.eqb_spec w s) as [->|_];
               [exfalso; apply Hnin; unfold reservedWords; cbn;
                repeat (first [by left|right])|]
           end.
    reflexivity.
Qed.

Lemma quotedLen_closesAt (q prevc : ascii) (text rest : list ascii) :
  closesAt q prevc text ->
  quotedLen q (Ascii.eqb prevc "\") (text ++ rest) = Some (length text).
Proof.
  induction 1 as [prevc Hp|prevc c cs Hc _ IH]; cbn [app quotedLen length].
  - rewrite Ascii.eqb_refl. by destruct (Ascii.eqb_spec prevc "\").
  - destruct (Ascii.eqb_spec c q) as [Heq|_]; cbn [andb].
    + rewrite (Hc Heq), Ascii.eqb_refl. cbn. by rewrite IH.
    + by rewrite IH.
Qed.

Lemma tripleClosesAt_length (prevc : ascii) (text : list ascii) :
  tripleClosesAt prevc text -> 3 <= length text.
Proof. induction 1; cbn in *; lia. Qed.

Lemma tripleLen_tripleClosesAt (prevc : ascii) (text rest : list ascii) :
  tripleClosesAt prevc text ->
  tripleLen (Ascii.eqb prevc "\") (text ++ rest) = Some (length text).
Proof.
  induction 1 as [prevc Hp|prevc c cs Hc Hcs IH]; cbn [app tripleLen length].
  - unfold startsTriple. cbn. by destruct (Ascii.eqb_spec prevc "\").
  - assert (startsTriple (c :: cs ++ rest) && negb (Ascii.eqb prevc "\") = false) as ->.
    { destruct (startsTriple (c :: cs ++ rest)) eqn:E; [|done]. cbn.
      apply tripleClosesAt_length in Hcs.
      destruct cs as [|c1 [|c2 cs']]; cbn in Hcs; try lia.
      unfold startsTriple in E. cbn [startsWith app] in E.
      apply andb_true_iff in E as [<-%Ascii.eqb_eq E].
      apply andb_true_iff in E as [<-%Ascii.eqb_eq E].
      apply andb_true_iff in E as [<-%Ascii.eqb_eq _].
      rewrite Hc by (by exists cs'). by rewrite Ascii.eqb_refl. }
    by rewrite IH.
Qed.

Lemma commentLen_line (text rest : list ascii) :
  ascii_of_nat 10 ∉ text ->
  commentLen (text ++ ascii_of_nat 10 :: rest) = length text + 1.
Proof.
  induction text as [|c text IH]; intros Hnl; cbn [app commentLen length].
  - reflexivity.
  - apply not_elem_of_cons in Hnl as [Hc Hnl].
    destruct (Ascii.eqb_spec c (ascii_of_nat 10)) as [->|_]; [done|].
    by rewrite IH.
Qed.

Lemma commentLen_end (text : list ascii) :
  ascii_of_nat 10 ∉ text -> commentLen text = length text.
Proof.
  induction text as [|c text IH]; intros Hnl; cbn [commentLen length]; [done|].
  apply not_elem_of_cons in Hnl as [Hc Hnl].
  destruct (Ascii.eqb_spec c (ascii_of_nat 10)) as [->|_]; [done|].
  by rewrite IH.
Qed.

(** The branches of the lexer, by the head of the input. *)
Lemma lexToken_slash (prev : option tokenType) (s : list ascii) :
  lexToken prev ("/" :: s)
  = if regexContext prev then lexQuoted TokenRegex "/" "unterminated regex" ("/" :: s)
    else if startsWith ["/"] s then Skip (commentLen ("/" :: s))
    else Emit TokenDiv 1.
Proof. reflexivity. Qed.

Lemma lexToken_digit (prev : option tokenType) (c : ascii) (s : list ascii) :
  digit c ->
  lexToken prev (c :: s)
  = if unitLen (drop (numberLen (c :: s)) (c :: s)) =? 0
    then Emit TokenNumber (numberLen (c :: s))
    else Emit TokenDuration (numberLen (c :: s)
                             + unitLen (drop (numberLen (c :: s)) (c :: s))).
Proof.
  unfold digit, digitChars. cbn [list_ascii_of_string]. intros Hc.
  repeat (apply elem_of_cons in Hc as [->|Hc]); try by apply elem_of_nil in Hc.
  all: reflexivity.
Qed.

Lemma lexToken_letter (prev : option tokenType) (c : ascii) (s : list ascii) :
  letter c ->
  lexToken prev (c :: s)
  = Emit (keyword (string_of_list_ascii
                     (take (spanLen (fun c => isLetter c || isDigit c) (c :: s)) (c :: s))))
         (spanLen (fun c => isLetter c || isDigit c) (c :: s)).
Proof.
  unfold letter, letterChars. cbn [list_ascii_of_string]. intros Hc.
  repeat (apply elem_of_cons in Hc as [->|Hc]); try by apply elem_of_nil in Hc.
  all: reflexivity.
Qed.

Lemma lexToken_quote (prev : option tokenType) (s : list ascii) :
  lexToken prev ("'" :: s)
  = if startsTriple ("'" :: s) then
      match tripleLen false (drop 3 ("'" :: s)) with
      | Some n => Emit TokenString (3 + n)
      | None => Stop "unterminated string"
      end
    else lexQuoted TokenString "'" "unterminated string" ("'" :: s).
Proof. reflexivity. Qed.

Lemma lexToken_dquote (prev : option tokenType) (s : list ascii) :
  lexToken prev (dquote :: s)
  = lexQuoted TokenReference dquote "unterminated reference" (dquote :: s).
Proof. reflexivity. Qed.

Lemma lexQuoted_closesAt (k : tokenType) (q : ascii) (msg : string)
    (text rest : list ascii) :
  q <> "\" -> closesAt q q text ->
  lexQuoted k q msg (q :: text ++ rest) = Emit k (length (q :: text)).
Proof.
  intros Hq Hclose. unfold lexQuoted.
  change (drop 1 (q :: text ++ rest)) with (text ++ rest).
  pose proof (quotedLen_closesAt q q text rest Hclose) as Hlen.
  apply Ascii.eqb_neq in Hq. rewrite Hq in Hlen. by rewrite Hlen.
Qed.

(** Whitespace and comments of the grammar are skipped by the lexer. *)
Lemma lexToken_Skipped (prev : option tokenType) (lit rest : list ascii) :
  Skipped prev lit rest ->
  lit <> [] /\ lexToken prev (lit ++ rest) = Skip (length lit).
Proof.
  intros [c rest' Hc|text rest' Hctx Hnl|text Hctx Hnl].
  - split; [done|]. cbn [app lexToken length].
    by rewrite isSpace_space, bool_decide_eq_true_2.
  - split; [done|]. cbn [app]. rewrite lexToken_slash.
    rewrite regexContext_afterMatchOrAssign, bool_decide_eq_false_2 by done.
    cbn [startsWith]. rewrite Ascii.eqb_refl. cbn [andb]. f_equal.
    rewrite <- app_assoc. cbn [app].
    pose proof (commentLen_line ("/" :: "/" :: text) rest') as Hlen.
    cbn [app] in Hlen. rewrite Hlen.
    + cbn [length]. rewrite length_app. cbn [length]. lia.
    + intros [Hs|[Hs|Hs]%elem_of_cons]%elem_of_cons; [done|done|by apply Hnl].
  - split; [done|]. rewrite app_nil_r. rewrite lexToken_slash.
    rewrite regexContext_afterMatchOrAssign, bool_decide_eq_false_2 by done.
    cbn [startsWith]. rewrite Ascii.eqb_refl. cbn [andb]. f_equal.
    apply (commentLen_end ("/" :: "/" :: text)).
    intros [Hs|[Hs|Hs]%elem_of_cons]%elem_of_cons; [done|done|by apply Hnl].
Qed.

Lemma Forall_wordChar (cs : list ascii) :
  Forall (fun c => letter c \/ digit c) cs ->
  Forall (fun c => isLetter c || isDigit c = true) cs.
Proof.
  intros Hcs. eapply Forall_impl; [exact Hcs|]. intros c Hc. cbn in Hc.
  rewrite isLetter_letter, isDigit_digit. apply orb_true_iff.
  destruct Hc; [left|right]; by apply bool_decide_eq_true.
Qed.

Lemma wordChar_not_beginsWith (rest : list ascii) :
  ~ beginsWith (fun c => letter c \/ digit c) rest ->
  forall c r, rest = c :: r -> isLetter c || isDigit c = false.
Proof.
  intros Hn c r ->. rewrite isLetter_letter, isDigit_digit.
  apply orb_false_iff. split; apply bool_decide_eq_false; intros Hc;
    apply Hn; exists c, r; by eauto.
Qed.

Lemma not_beginsWith_slash (rest : list ascii) :
  ~ beginsWith (fun c => c = "/") rest -> startsWith ["/"] rest = false.
Proof.
  intros Hn. apply startsWith_false. intros [r ->]. apply Hn. by exists "/", r.
Qed.

(** An operator of the grammar is the operator the lexer reads. *)
Lemma lexToken_operator (prev : option tokenType) (lit rest : list ascii) (k : tokenType) :
  (lit, k) ∈ operators ->
  (forall lit' k', (lit', k') ∈ operators ->
     (exists r, lit ++ rest = lit' ++ r) -> length lit' <= length lit) ->
  lexToken prev (lit ++ rest) = Emit k (length lit).
Proof.
  intros Hin Hmax.
  assert (forall c c' k', ([c; c'], k') ∈ operators -> lit = [c] ->
            forall r, rest = c' :: r -> False) as Hext.
  { intros c c' k' Hop -> r ->.
    specialize (Hmax [c; c'] k' Hop). cbn in Hmax.
    assert (2 <= 1) by (apply Hmax; by eauto). lia. }
  clear Hmax. unfold operators in Hin, Hext.
  repeat (apply elem_of_cons in Hin as [[= -> ->]|Hin]); try by apply elem_of_nil in Hin.
  all: try reflexivity.
  all: destruct rest as [|c r]; [reflexivity|].
  all: cbn [app length].
  all: destruct (Ascii.eqb_spec "=" c) as [<-|Hc1];
    [exfalso; eapply Hext; [|reflexivity|reflexivity]; repeat (first [by left|right])|].
  all: apply Ascii.eqb_neq in Hc1.
  3,4: by (unfold lexToken, lexOperator; cbn [startsWith]; rewrite Hc1).
  all: destruct (Ascii.eqb_spec "~" c) as [<-|Hc2];
    [exfalso; eapply Hext; [|reflexivity|reflexivity]; repeat (first [by left|right])|].
  all: apply Ascii.eqb_neq in Hc2.
  all: by (unfold lexToken, lexOperator; cbn [startsWith]; rewrite Hc1, Hc2).
Qed.

Lemma operators_nonempty (lit : list ascii) (k : tokenType) :
  (lit, k) ∈ operators -> lit <> [] /\ k <> TokenEOF /\ k <> TokenError.
Proof.
  unfold operators. intros Hin.
  repeat (apply elem_of_cons in Hin as [[= -> ->]|Hin]); try by apply elem_of_nil in Hin.
  all: done.
Qed.

Lemma units_nonempty (u : list ascii) : u ∈ units -> u <> [].
Proof.
  unfold units. intros Hu.
  repeat (apply elem_of_cons in Hu as [->|Hu]); try by apply elem_of_nil in Hu.
  all: done.
Qed.

Lemma wordKind_kind (w : string) (k : tokenType) :
  wordKind w k -> k <> TokenEOF /\ k <> TokenError.
Proof.
  intros [Hin|[_ ->]]; [|done]. unfold reservedWords in Hin.
  repeat (apply elem_of_cons in Hin as [[= -> ->]|Hin]); try by apply elem_of_nil in Hin.
  all: done.
Qed.

(** A token of the grammar is neither the end of the input nor an
    error. *)
Lemma Lexeme_kind (prev : option tokenType) (lit rest : list ascii) (k : tokenType) :
  Lexeme prev lit rest k -> k <> TokenEOF /\ k <> TokenError.
Proof.
  intros [lit' rest' k' Hop _| | | |c cs rest' k' _ _ _ Hk| | | |]; try done.
  - by apply operators_nonempty in Hop as (_ & ? & ?).
  - by apply wordKind_kind in Hk.
Qed.

(** At a token of the grammar the lexer emits that token. *)
Lemma lexToken_Lexeme (prev : option tokenType) (lit rest : list ascii) (k : tokenType) :
  Lexeme prev lit rest k ->
  lit <> [] /\ lexToken prev (lit ++ rest) = Emit k (length lit).
Proof.
  intros [lit' rest' k' Hop Hmax|rest' Hctx Hnext|lit' rest' Hnum Hend Hunit
         |num u rest' Hnum Hu Hmax|c cs rest' k' Hc Hcs Hend Hk
         |text rest' Hclose Hshort|text rest' Hclose|text rest' Hclose
         |text rest' Hctx Hclose].
  - split; [by apply operators_nonempty in Hop as [? _]|].
    by apply lexToken_operator.
  - split; [done|]. cbn [app]. rewrite lexToken_slash.
    rewrite regexContext_afterMatchOrAssign, bool_decide_eq_false_2 by done.
    by rewrite not_beginsWith_slash.
  - split; [by apply numberLit_nonempty|].
    pose proof (numberLen_numberLit _ _ Hnum Hend) as Hlen.
    destruct (numberLit_head _ Hnum) as (d & l & -> & Hd).
    cbn [app] in *. rewrite (lexToken_digit _ _ _ Hd), Hlen.
    change (d :: l ++ rest') with ((d :: l) ++ rest').
    by rewrite drop_app_length, unitLen_none.
  - split.
    { apply numberLit_nonempty in Hnum. by destruct num. }
    rewrite <- app_assoc.
    pose proof (numberLen_numberLit _ (u ++ rest') Hnum
                  (unit_after_number num u rest' Hu)) as Hlen.
    pose proof (unitLen_unit _ _ Hu Hmax) as Hul.
    pose proof (units_nonempty _ Hu) as Hne.
    destruct (numberLit_head _ Hnum) as (d & l & -> & Hd).
    cbn [app] in *. rewrite (lexToken_digit _ _ _ Hd), Hlen.
    change (d :: l ++ u ++ rest') with ((d :: l) ++ u ++ rest').
    rewrite drop_app_length, Hul.
    destruct (Nat.eqb_spec (length u) 0) as [E|_].
    + by destruct u.
    + change (d :: l ++ u) with ((d :: l) ++ u). by rewrite length_app.
  - split; [done|]. cbn [app]. rewrite (lexToken_letter _ _ _ Hc).
    change (c :: cs ++ rest') with ((c :: cs) ++ rest').
    rewrite (spanLen_app _ (c :: cs) rest').
    + rewrite take_app_length. by rewrite (keyword_wordKind _ _ Hk).
    + apply Forall_wordChar. constructor; [by left|done].
    + by apply wordChar_not_beginsWith.
  - split; [done|]. cbn [app]. rewrite lexToken_quote.
    unfold startsTriple at 1. rewrite startsWith_false by done.
    by apply lexQuoted_closesAt.
  - split; [done|]. cbn [app]. rewrite lexToken_quote.
    change (startsTriple ("'" :: "'" :: "'" :: text ++ rest')) with true.
    change (drop 3 ("'" :: "'" :: "'" :: text ++ rest')) with (text ++ rest').
    pose proof (tripleLen_tripleClosesAt _ _ rest' Hclose) as Hlen.
    change (Ascii.eqb "'" "\") with false in Hlen. by rewrite Hlen.
  - split; [done|]. cbn [app]. rewrite lexToken_dquote.
    by apply lexQuoted_closesAt.
  - split; [done|]. cbn [app]. rewrite lexToken_slash.
    rewrite regexContext_afterMatchOrAssign, bool_decide_eq_true_2 by done.
    by apply lexQuoted_closesAt.
Qed.

Lemma lexFrom_step (fuel p : nat) (prev : option tokenType) (s : list ascii) :
  s <> [] ->
  lexFrom (S fuel) p prev s
  = match lexToken prev s with
    | Stop msg => Some [{| typ := TokenError; pos := p; val := msg |}]
    | Skip n =>
        match take n s with
        | [] => Some [{| typ := TokenError; pos := p; val := "no progress" |}]
        | lit => lexFrom fuel (p + length lit) prev (drop (length lit) s)
        end
    | Emit k n =>
        match take n s with
        | [] => Some [{| typ := TokenError; pos := p; val := "no progress" |}]
        | lit =>
            cons {| typ := k; pos := p; val := string_of_list_ascii lit |}
              <$> lexFrom fuel (p + length lit) (Some k) (drop (length lit) s)
        end
    end.
Proof. by destruct s. Qed.

(** The lexer reads the tokens of the grammar: on a text that consists
    of the tokens [toks], whitespace and comments, it returns [toks]
    and the end-of-input token at the end of the text. *)
Lemma lexFrom_Lexes (p : nat) (prev : option tokenType) (s : list ascii)
    (toks : list token) :
  Lexes p prev s toks ->
  forall fuel, length s < fuel ->
    lexFrom fuel p prev s
    = Some (toks ++ [{| typ := TokenEOF; pos := p + length s; val := EmptyString |}]).
Proof.
  induction 1 as [p prev|p prev lit rest toks Hskip _ IH|p prev lit rest k toks Hlex _ IH];
    intros fuel Hfuel.
  - cbn. rewrite Nat.add_0_r. by destruct fuel.
  - apply lexToken_Skipped in Hskip as [Hne Htok].
    rewrite length_app in Hfuel.
    destruct fuel as [|fuel]; [lia|].
    rewrite lexFrom_step by (by destruct lit).
    rewrite Htok, take_app_length.
    destruct lit as [|c lit]; [done|]. cbv beta match zeta.
    rewrite drop_app_length, IH by (cbn [length] in Hfuel; lia).
    rewrite length_app. do 4 f_equal. lia.
  - apply lexToken_Lexeme in Hlex as [Hne Htok].
    rewrite length_app in Hfuel.
    destruct fuel as [|fuel]; [lia|].
    rewrite lexFrom_step by (by destruct lit).
    rewrite Htok, take_app_length.
    destruct lit as [|c lit]; [done|]. cbv beta match zeta.
    rewrite drop_app_length, IH by (cbn [length] in Hfuel; lia).
    rewrite length_app. cbn [fmap option_fmap option_map app]. do 5 f_equal. lia.
Qed.

(** The tokens of the grammar are no end-of-input and no error tokens,
    and each sits at the offset of its first character. *)
Lemma Lexes_tokens (p : nat) (prev : option tokenType) (s : list ascii)
    (toks : list token) :
  Lexes p prev s toks ->
  Forall (fun t => typ t <> TokenEOF /\ typ t <> TokenError) toks.
Proof.
  induction 1 as [| |p prev lit rest k toks Hlex _ IH]; [done|done|].
  constructor; [|done]. by apply Lexeme_kind in Hlex.
Qed.

(** C9. For a well-formed source, one that consists of tokens of the
    lexical grammar, whitespace and comments, the lexer returns these
    tokens followed by one end-of-input token whose position is the
    length of the source; none of the other tokens is an end-of-input
    or an error token, and each sits at the byte offset of its first
    character: its text is the text of the source at its position. *)
Theorem lex_ends_in_single_EOF (src : string) :
  wellFormed src ->
  exists body,
    lex src = Some (body ++ [{| typ := TokenEOF; pos := String.length src;
                                val := EmptyString |}]) /\
    Lexes 0 None (list_ascii_of_string src) body /\
    Forall (fun t => typ t <> TokenEOF /\ typ t <> TokenError) body /\
    Forall (tokenAt (list_ascii_of_string src)) body.
Proof.
  intros [body Hbody]. exists body.
  pose proof (lexFrom_Lexes _ _ _ _ Hbody (S (String.length src))) as Hlex.
  rewrite length_list_ascii_of_string in Hlex. specialize (Hlex (Nat.lt_succ_diag_r _)).
  pose proof (Lexes_tokens _ _ _ _ Hbody) as Hkinds.
  split_and!; [exact Hlex|done|done|].
  destruct (lexFrom_stream _ _ _ _ _ Hlex) as (body' & Heq & _ & Hat).
  { apply Forall_app. split; [|by repeat constructor].
    eapply Forall_impl; [exact Hkinds|]. by intros t [_ ?]. }
  apply app_inj_tail in Heq as [<- _].
  eapply Forall_impl; [exact Hat|]. intros t [_ Ht]. unfold tokenAt.
  by rewrite Nat.sub_0_r in Ht.
Qed.

Lemma not_beginsWith_nil (P : ascii -> Prop) : ~ beginsWith P [].
Proof. by intros (c & l & ? & _). Qed.

Lemma not_beginsWith_cons (P : ascii -> Prop) (c : ascii) (l : list ascii) :
  ~ P c -> ~ beginsWith P (c :: l).
Proof. intros Hc (c' & l' & [= <- <-] & HP). by apply Hc. Qed.

(** The longest operator at the head of a text, by comparison with
    every operator. *)
Lemma longest_operator (lit rest : list ascii) :
  forallb (fun op => implb (startsWith (fst op) (lit ++ rest))
                           (length (fst op) <=? length lit)) operators = true ->
  forall lit' k', (lit', k') ∈ operators ->
    (exists r, lit ++ rest = lit' ++ r) -> length lit' <= length lit.
Proof.
  intros Hall lit' k' Hin Hpre. rewrite forallb_forall in Hall.
  specialize (Hall (lit', k')). cbn [fst] in Hall.
  apply startsWith_spec in Hpre. rewrite Hpre in Hall. cbn [implb] in Hall.
  apply Nat.leb_le, Hall. by apply list_elem_of_In.
Qed.

End LexerGrammar.

Section LexerWitness.
Local Open Scope nat_scope.

Local Ltac decided := apply (bool_decide_unpack _); vm_compute; exact I.

Local Ltac ends :=
  first [apply not_beginsWith_nil | apply not_beginsWith_cons; decided].

(** The next [n] characters of the source are a token, or are
    skipped. *)
Local Ltac split_source n :=
  match goal with
  | |- Lexes ?p ?prev ?s ?toks =>
      let lit := eval cbv in (take n s) in
      let rest := eval cbv in (drop n s) in
      change (Lexes p prev (lit ++ rest) toks)
  end.

Local Ltac word n :=
  split_source n; apply Lexes_token;
  [apply Lexeme_word; [decided|decided|ends|decided]|cbn [length Nat.add]].

Local Ltac operator n :=
  split_source n; apply Lexes_token;
  [apply Lexeme_operator; [decided|apply longest_operator; vm_compute; reflexivity]
  |cbn [length Nat.add]].

Local Ltac space :=
  split_source 1; apply Lexes_skip;
  [apply Skipped_space; decided|cbn [length Nat.add]].

(** The first seed scenario of the specification is well formed. *)
Lemma wellFormed_seed : wellFormed "var x = avg()"%string.
Proof.
  exists [{| typ := TokenVar; pos := 0; val := "var"%string |};
          {| typ := TokenIdent; pos := 4; val := "x"%string |};
          {| typ := TokenAsgn; pos := 6; val := "="%string |};
          {| typ := TokenIdent; pos := 8; val := "avg"%string |};
          {| typ := TokenLParen; pos := 11; val := "("%string |};
          {| typ := TokenRParen; pos := 12; val := ")"%string |}].
  cbn [list_ascii_of_string].
  word 3. space. word 1. space. operator 1. space. word 3. operator 1. operator 1.
  apply Lexes_end.
Defined.

Lemma lex_ends_in_single_EOF_witness :
  wellFormed "var x = avg()"%string /\
  exists body,
    lex "var x = avg()"%string
    = Some (body ++ [{| typ := TokenEOF; pos := 13; val := EmptyString |}]) /\
    Lexes 0 None (list_ascii_of_string "var x = avg()"%string) body /\
    Forall (fun t => typ t <> TokenEOF /\ typ t <> TokenError) body /\
    Forall (tokenAt (list_ascii_of_string "var x = avg()"%string)) body.
Proof.
  split; [exact wellFormed_seed|].
  exact (lex_ends_in_single_EOF "var x = avg()"%string wellFormed_seed).
Defined.

End LexerWitness.

(** ** The whole run of the alert node *)

Section RunAlert.
Context {F : Type} `{Float64 F} `{ExprPkg} `{ModelsPkg}.
Context (BatchToRow : Batch -> Row).

(** What a loop body of [runAlert] guarantees on a node satisfying the
    invariant: it does not panic, keeps the invariant, and calls
    handlers only with levels above [NoAlert]. *)
Local Abbreviation bodyOk body :=
  (forall (an : AlertNode (F := F)) x, AlertNode_ok an ->
     exists an' evs, body an x = Some (an', evs) /\
                     AlertNode_ok an' /\ Forall emitsAlertLevel evs).

Lemma callHandlers_levels (an : AlertNode (F := F)) (l : AlertLevel) (d : Result) :
  NoAlert < l <= CritAlert ->
  Forall emitsAlertLevel (callHandlers an {| ad_Level := l; ad_Data := d |}).
Proof.
  intros Hl. unfold callHandlers. apply Forall_fmap, Forall_true. intros h. cbn.
  split; [lia|]. unfold NoAlert, CritAlert in Hl.
  assert (l = 1 \/ l = 2 \/ l = 3) as [-> | [-> | ->]] by lia; cbn; repeat constructor.
Qed.

Lemma alertPoint_bodyOk : bodyOk (alertPoint BatchToRow).
Proof.
  intros an p Hok. unfold alertPoint.
  destruct (determineLevel_shape an (p_Fields p) (p_Tags p) Hok)
    as (l & ls' & log & Hd & Hl & Hrange).
  pose proof (determineLevel_log an (p_Fields p) (p_Tags p)) as Hlog.
  rewrite Hd in Hlog |- *. cbn in Hlog.
  pose proof (set_levels_ok an ls' Hok Hl) as Hok1.
  assert (forall an' : AlertNode (F := F), Forall emitsAlertLevel
            (log ++ (if decide (l > NoAlert)
                     then callHandlers an' {| ad_Level := l;
                            ad_Data := batchToResult BatchToRow (pointBatch p) |}
                     else []))) as Hsend.
  { intros an'. apply Forall_app. split; [done|].
    case_decide; [apply callHandlers_levels; lia|constructor]. }
  destruct (UseFlapping (a (set_levels an ls'))) eqn:Hflap.
  - rewrite (updateFlapping_afterFlap _ l Hok1 Hflap). cbn.
    pose proof (afterFlap_ok _ l Hok1) as Hok2.
    destruct (flapping (afterFlap (set_levels an ls') l)); eauto 6.
  - eauto 6.
Qed.

Lemma alertBatchPoints_total (b : Batch) (pts : list TimeFields) :
  forall an : AlertNode (F := F),
    AlertNode_ok an ->
    exists t an' evs,
      alertBatchPoints BatchToRow an b pts = Some (t, an', evs) /\
      AlertNode_ok an' /\ Forall emitsAlertLevel evs.
Proof.
  induction pts as [|p pts IH]; intros an Hok; cbn [alertBatchPoints].
  - exists false, an, []. by split_and!.
  - destruct (determineLevel_shape an (tf_Fields p) (b_Tags b) Hok)
      as (l & ls' & log & Hd & Hl & Hrange).
    pose proof (determineLevel_log an (tf_Fields p) (b_Tags b)) as Hlog.
    rewrite Hd in Hlog |- *. cbn in Hlog.
    pose proof (set_levels_ok an ls' Hok Hl) as Hok1.
    destruct (decide (l > NoAlert)) as [Hgt|Hle].
    + assert (forall an' : AlertNode (F := F), Forall emitsAlertLevel
                (log ++ callHandlers an' {| ad_Level := l;
                          ad_Data := batchToResult BatchToRow b |})) as Hsend.
      { intros an'. apply Forall_app. split; [done|].
        apply callHandlers_levels. lia. }
      destruct (UseFlapping (a (set_levels an ls'))) eqn:Hflap.
      * rewrite (updateFlapping_afterFlap _ l Hok1 Hflap). cbn.
        pose proof (afterFlap_ok _ l Hok1) as Hok2.
        destruct (flapping (afterFlap (set_levels an ls') l)); eauto 8.
      * eauto 8.
    + destruct (IH _ Hok1) as (t & an' & evs & -> & Hok' & Hevs). cbn.
      exists t, an', (log ++ evs). split_and!; [done|done|].
      apply Forall_app. by split.
Qed.

Lemma alertBatch_bodyOk : bodyOk (alertBatch BatchToRow).
Proof.
  intros an b Hok. unfold alertBatch.
  destruct (alertBatchPoints_total b (b_Points b) an Hok)
    as (t & an' & evs & -> & Hok' & Hevs). cbn.
  destruct (negb t && UseFlapping (a an')) eqn:Hc; [|eauto].
  apply andb_true_iff in Hc as [_ Hflap].
  rewrite (updateFlapping_afterFlap _ NoAlert Hok' Hflap). cbn.
  pose proof (afterFlap_ok _ NoAlert Hok'). eauto.
Qed.

Lemma drain_bodyOk {A} (body : AlertNode (F := F) -> A -> option (AlertNode * list AlertEvent))
    (items : list A) :
  bodyOk body ->
  forall an, AlertNode_ok an ->
    exists an' evs, drain body an items = Some (an', evs) /\
                    AlertNode_ok an' /\ Forall emitsAlertLevel evs.
Proof.
  intros Hbody. induction items as [|x items IH]; intros an Hok; cbn [drain].
  - exists an, []. by split_and!.
  - destruct (Hbody an x Hok) as (an1 & evs1 & -> & Hok1 & Hevs1). cbn.
    destruct (IH an1 Hok1) as (an2 & evs2 & -> & Hok2 & Hevs2). cbn.
    exists an2, (evs1 ++ evs2). split_and!; [done|done|].
    apply Forall_app. by split.
Qed.

(** On a node built by [newAlertNode] and with an input edge,
    [runAlert] runs to the end of the edge without panic, in stream and
    in batch mode, and no handler is ever called with [NoAlert]. *)
Lemma runAlert_total (n : pipeline_AlertNode (F := F)) (an : AlertNode (F := F))
    (in0 : Edge) (ins : list Edge) :
  newAlertNode n = inl an ->
  exists an' evs,
    runAlert BatchToRow an (in0 :: ins) = Some (an', evs) /\
    AlertNode_ok an' /\ Forall emitsAlertLevel evs.
Proof.
  intros Hok%newAlertNode_ok. unfold runAlert.
  destruct (Wants (a an)); cbn.
  - by apply drain_bodyOk; [apply alertPoint_bodyOk|].
  - by apply drain_bodyOk; [apply alertBatch_bodyOk|].
Qed.

End RunAlert.

(** ** alert.go: level names and construction, continued *)

(** X13. [AlertLevel.String] panics exactly on the values outside
    [NoAlert .. CritAlert], gives different names to different levels,
    and gives [noalert] to [NoAlert] only. *)
Theorem AlertLevel_String_names (l l' : AlertLevel) (s : string) :
  (AlertLevel_String l = None <-> l < NoAlert \/ CritAlert < l) /\
  (AlertLevel_String l = Some s -> AlertLevel_String l' = Some s -> l = l') /\
  (AlertLevel_String l = Some "noalert"%string <-> l = NoAlert).
Proof.
  unfold AlertLevel_String, NoAlert, InfoAlert, WarnAlert, CritAlert.
  split_and!.
  - repeat case_decide; split; intros; (done || lia).
  - repeat case_decide; intros; simplify_eq; lia.
  - repeat case_decide; split; intros; (done || lia).
Qed.

Section AlertConstructionFacts.
Context {F : Type} `{Float64 F} `{ExprPkg} `{ModelsPkg}.

Lemma parseLevel_parses (src : string) :
  (exists slot, parseLevel src = inl slot) <-> parses src.
Proof.
  unfold parseLevel, parses. case_decide.
  - split; [by left|by eauto].
  - destruct (ParseForType src ReturnBool) as [tree|err].
    + split; [by right; eauto|by eauto].
    + split; [by intros [? ?]|]. by intros [?|[? ?]].
Qed.

(** X14. A configuration that [newAlertNode] accepts has passed every
    check: each of the info, warn and crit expressions is empty or
    parses and, with flap detection, the history length is zero or at
    least two and neither threshold is above one. *)
Theorem newAlertNode_accepts_only_checked (n : pipeline_AlertNode (F := F))
    (an : AlertNode (F := F)) :
  newAlertNode n = inl an ->
  parses (Info n) /\ parses (Warn n) /\ parses (Crit n) /\
  (UseFlapping n = true ->
   (History n = 0 \/ 2 <= History n) /\
   flt (fconst 1) (FlapLow n) = false /\ flt (fconst 1) (FlapHigh n) = false).
Proof.
  rewrite <- !parseLevel_parses. unfold newAlertNode.
  destruct (parseLevel (Info n)) as [info|e]; [|done].
  destruct (parseLevel (Warn n)) as [warn|e]; [|done].
  destruct (parseLevel (Crit n)) as [crit|e]; [|done].
  destruct (UseFlapping n); cbv zeta.
  - destruct (decide (_ < 2)) as [Hlt|Hge]; [done|].
    destruct (flt (fconst 1) (FlapLow n)), (flt (fconst 1) (FlapHigh n)); cbn; try done.
    intros _. split; [by eauto|]. split; [by eauto|]. split; [by eauto|].
    intros _. split; [|done]. unfold defaultFlapHistory in Hge.
    destruct (decide (History n = 0)); [by left|right; lia].
  - intros _. split; [by eauto|]. split; [by eauto|]. split; [by eauto|]. done.
Qed.

(** X15. The node [newAlertNode] returns keeps the configuration, has
    the post handler exactly when a URL is set and the email handler
    exactly when both a sender and a recipient are set, post first;
    slot [NoAlert] of the levels is empty and the slot of a level is
    empty exactly when its expression is; the ring is filled with
    [NoAlert], and the node is not flapping. *)
Theorem newAlertNode_result (n : pipeline_AlertNode (F := F)) (an : AlertNode (F := F)) :
  newAlertNode n = inl an ->
  a an = n /\ handlers an = configuredHandlers n /\
  (exists info warn crit,
     levels an = [None; info; warn; crit] /\
     (info = None <-> Info n = EmptyString) /\
     (warn = None <-> Warn n = EmptyString) /\
     (crit = None <-> Crit n = EmptyString)) /\
  history an
  = replicate (if UseFlapping n
               then Z.to_nat (if decide (History n = 0) then defaultFlapHistory else History n)
               else 0%nat) NoAlert /\
  hIdx an = 0 /\ flapping an = false.
Proof.
  assert (forall src slot, parseLevel src = inl slot -> slot = None <-> src = EmptyString)
    as Hslot.
  { intros src slot. unfold parseLevel. case_decide.
    - by intros [= <-].
    - destruct (ParseForType src ReturnBool); [|done]. by intros [= <-]. }
  assert ((if decide (Post n <> EmptyString) then [handlePost] else [])
          ++ (if decide (From n <> EmptyString /\ length (ToList n) <> 0%nat)
              then [handleEmail] else []) = configuredHandlers n) as Hh.
  { unfold configuredHandlers. f_equal. destruct (ToList n) as [|to tos]; cbn [length].
    - by rewrite !decide_False by (by intros [_ ?]).
    - destruct (decide (From n <> EmptyString)).
      + by rewrite !decide_True by done.
      + by rewrite !decide_False by (by intros [? _]). }
  unfold newAlertNode. rewrite Hh.
  destruct (parseLevel (Info n)) as [info|e] eqn:Hi; [|done].
  destruct (parseLevel (Warn n)) as [warn|e] eqn:Hw; [|done].
  destruct (parseLevel (Crit n)) as [crit|e] eqn:Hc; [|done].
  destruct (UseFlapping n); cbv zeta.
  - destruct (decide (_ < 2)); [done|]. destruct (_ || _); [done|].
    intros [= <-]. cbn. split_and!; eauto 10.
  - intros [= <-]. cbn. split_and!; eauto 10.
Qed.

End AlertConstructionFacts.

(** The alert of [toyFlapConfig]: a URL, no sender. *)
Lemma newAlertNode_result_witness :
  let n := toyFlapConfig StreamEdge 0 (1 # 4)%Q (1 # 2)%Q in
  let an := toyFlapNode 21 n in
  a an = n /\ handlers an = configuredHandlers n /\
  (exists info warn crit,
     levels an = [None; info; warn; crit] /\
     (info = None <-> Info n = EmptyString) /\
     (warn = None <-> Warn n = EmptyString) /\
     (crit = None <-> Crit n = EmptyString)) /\
  history an
  = replicate (if UseFlapping n
               then Z.to_nat (if decide (History n = 0) then defaultFlapHistory else History n)
               else 0%nat) NoAlert /\
  hIdx an = 0 /\ flapping an = false.
Proof.
  cbv zeta.
  apply (newAlertNode_result (toyFlapConfig StreamEdge 0 (1 # 4)%Q (1 # 2)%Q)).
  reflexivity.
Defined.

(** The same configuration has passed the checks. *)
Lemma newAlertNode_accepts_only_checked_witness :
  let n := toyFlapConfig StreamEdge 0 (1 # 4)%Q (1 # 2)%Q in
  parses (Info n) /\ parses (Warn n) /\ parses (Crit n) /\
  (UseFlapping n = true ->
   (History n = 0 \/ 2 <= History n) /\
   flt (fconst 1) (FlapLow n) = false /\ flt (fconst 1) (FlapHigh n) = false).
Proof.
  cbv zeta.
  apply (newAlertNode_accepts_only_checked
           (toyFlapConfig StreamEdge 0 (1 # 4)%Q (1 # 2)%Q)
           (toyFlapNode 21 (toyFlapConfig StreamEdge 0 (1 # 4)%Q (1 # 2)%Q))).
  reflexivity.
Defined.

(** ** alert.go: the level returned passes *)

Section LevelSoundness.
Context {F : Type} `{Float64 F} `{ExprPkg} `{ModelsPkg}.

(** A configured level sits in the slot of its index. *)
Lemma configured_lookup (ls : list (option StatefulExpr)) :
  forall (k : Z) (c : Z * StatefulExpr),
    c ∈ configured k ls ->
    k <= fst c /\ ls !! Z.to_nat (fst c - k) = Some (Some (snd c)).
Proof.
  induction ls as [|[se|] ls IH]; intros k c Hin; cbn [configured] in Hin.
  - by apply elem_of_nil in Hin.
  - apply elem_of_cons in Hin as [->|Hin].
    + cbn. split; [lia|]. by rewrite Z.sub_diag.
    + apply IH in Hin as [Hk Hl]. split; [lia|].
      replace (Z.to_nat (fst c - k)) with (S (Z.to_nat (fst c - (k + 1)))) by lia. done.
  - apply IH in Hin as [Hk Hl]. split; [lia|].
    replace (Z.to_nat (fst c - k)) with (S (Z.to_nat (fst c - (k + 1)))) by lia. done.
Qed.

(** X16. The level [determineLevel] returns is [NoAlert] or the index
    of a configured predicate that returned true on the record: the
    node never reports a level whose predicate did not pass. *)
Theorem determineLevel_level_passes (an an' : AlertNode (F := F)) (fields : Fields)
    (tags : gmap string string) (l : AlertLevel) (log : list AlertEvent) :
  determineLevel an fields tags = (l, an', log) ->
  l = NoAlert \/
  exists se, zlookup (levels an) l = Some (Some se) /\
             fst (fst (EvalPredicate se fields tags)) = true.
Proof.
  destruct (determineLevel_from_split 0 (levels an) fields tags NoAlert)
    as (passed & rest & ls' & Hc & Hp & _ & Hd & _).
  unfold determineLevel. rewrite Hd. intros [= <- _ _].
  destruct passed as [|c0 passed]; [by left|]. right.
  pose proof (last_elem_of (map fst passed) (fst c0)) as Hlast.
  unfold lastLevel. cbn [map]. rewrite last_cons_default.
  change (fst c0 :: map fst passed) with (map fst (c0 :: passed)) in Hlast.
  apply list_elem_of_fmap in Hlast as (c & -> & Hin).
  assert (c ∈ configured 0 (levels an)) as Hcin.
  { rewrite Hc. apply elem_of_app. by left. }
  apply configured_lookup in Hcin as [Hk Hl].
  exists (snd c). split.
  - unfold zlookup. rewrite decide_True by lia. by rewrite Z.sub_0_r in Hl.
  - by apply (proj1 (Forall_forall _ _) Hp).
Qed.

End LevelSoundness.

(** Info is [value > 10], crit is [value > 50]; the record has
    [value = 60]. *)
Lemma determineLevel_level_passes_witness :
  CritAlert = NoAlert \/
  exists se, zlookup (levels toyClosed) CritAlert = Some (Some se) /\
             fst (fst (EvalPredicate se 60 ∅)) = true.
Proof.
  eapply (determineLevel_level_passes toyClosed _ 60 ∅ CritAlert). reflexivity.
Defined.

(** ** alert.go: whole runs, continued *)

Section RunFacts.
Context {F : Type} `{Float64 F} `{ExprPkg} `{ModelsPkg}.
Context (BatchToRow : Batch -> Row).

(** What a run never changes: the configuration, the handlers and the
    length of the ring. *)
Local Abbreviation sameConfig an an' :=
  (a an' = a an /\ handlers an' = handlers an /\
   length (history an') = length (history an)).

(** What a loop body sends for one record: at most one alert, above
    [NoAlert], to every handler. *)
Local Abbreviation bodyKeeps body :=
  (forall (an an' : AlertNode (F := F)) x evs,
     body an x = Some (an', evs) ->
     sameConfig an an' /\
     exists ads, (length ads <= 1)%nat /\
                 Forall (fun ad => ad_Level ad > NoAlert) ads /\
                 handlerCalls evs = deliveries an ads).

Lemma handlerCalls_app (evs evs' : list AlertEvent) :
  handlerCalls (evs ++ evs') = handlerCalls evs ++ handlerCalls evs'.
Proof. apply omap_app. Qed.

Lemma handlerCalls_callHandlers (an : AlertNode (F := F)) (ad : AlertData) :
  handlerCalls (callHandlers an ad) = deliveries an [ad].
Proof.
  unfold handlerCalls, callHandlers, deliveries. cbn. rewrite app_nil_r.
  induction (handlers an) as [|h hs IH]; [done|]. cbn. by rewrite IH.
Qed.

Lemma deliveries_app (an : AlertNode (F := F)) (ads ads' : list AlertData) :
  deliveries an (ads ++ ads') = deliveries an ads ++ deliveries an ads'.
Proof. unfold deliveries. apply bind_app. Qed.

Lemma deliveries_handlers (an an' : AlertNode (F := F)) (ads : list AlertData) :
  handlers an' = handlers an -> deliveries an' ads = deliveries an ads.
Proof. unfold deliveries. by intros ->. Qed.

(** [determineLevel] only replaces the level expressions and calls no
    handler. *)
Lemma determineLevel_keeps (an : AlertNode (F := F)) (fields : Fields)
    (tags : gmap string string) :
  exists l ls log,
    determineLevel an fields tags = (l, set_levels an ls, log) /\ handlerCalls log = [].
Proof.
  destruct (determineLevel_from_split 0 (levels an) fields tags NoAlert)
    as (passed & rest & ls' & _ & _ & _ & Hd & _).
  unfold determineLevel. rewrite Hd. eexists _, _, _. split; [done|].
  destruct (head rest) as [c|]; cbn; [|done].
  unfold errorLog. by destruct (snd _).
Qed.

(** A flap update replaces the ring, the index and the flag, and keeps
    the length of the ring. *)
Lemma updateFlapping_keeps (an an' : AlertNode (F := F)) (level : AlertLevel) :
  updateFlapping an level = Some an' ->
  a an' = a an /\ handlers an' = handlers an /\ levels an' = levels an /\
  length (history an') = length (history an).
Proof.
  unfold updateFlapping, flapWrite, zupdate.
  case_decide; [|done]. cbn.
  destruct (zrem _ _) as [idx|]; [|done]. cbn.
  destruct (flapScore _ _) as [p|]; [|done]. cbn.
  intros [= <-]. cbn. by rewrite length_insert.
Qed.

Lemma alertPoint_keeps : bodyKeeps (alertPoint BatchToRow).
Proof.
  intros an an' p evs. unfold alertPoint.
  destruct (determineLevel_keeps an (p_Fields p) (p_Tags p)) as (l & ls & log & -> & Hlog).
  assert (forall an1 : AlertNode (F := F), handlers an1 = handlers an ->
            exists ads, (length ads <= 1)%nat /\
              Forall (fun ad => ad_Level ad > NoAlert) ads /\
              handlerCalls (log ++ (if decide (l > NoAlert)
                 then callHandlers an1 {| ad_Level := l;
                        ad_Data := batchToResult BatchToRow (pointBatch p) |}
                 else [])) = deliveries an ads) as Hsend.
  { intros an1 Hh. rewrite handlerCalls_app, Hlog. cbn [app]. case_decide.
    - exists [{| ad_Level := l; ad_Data := batchToResult BatchToRow (pointBatch p) |}].
      rewrite handlerCalls_callHandlers.
      split_and!; [cbn; lia|by repeat constructor|by apply deliveries_handlers].
    - exists []. split_and!; [cbn; lia|constructor|done]. }
  destruct (UseFlapping (a (set_levels an ls))).
  - destruct (updateFlapping (set_levels an ls) l) as [an1|] eqn:Hu; [|done]. cbn.
    apply updateFlapping_keeps in Hu as (Ha & Hh & _ & Hlen). cbn in Ha, Hh, Hlen.
    destruct (flapping an1); intros [= <- <-].
    + split; [done|]. exists []. rewrite Hlog. split_and!; [cbn; lia|constructor|done].
    + split; [done|]. by apply Hsend.
  - intros [= <- <-]. split; [done|]. by apply Hsend.
Qed.

Lemma alertBatchPoints_keeps (b : Batch) (pts : list TimeFields) :
  forall (an an' : AlertNode (F := F)) t evs,
    alertBatchPoints BatchToRow an b pts = Some (t, an', evs) ->
    sameConfig an an' /\
    exists ads, (length ads <= 1)%nat /\
                Forall (fun ad => ad_Level ad > NoAlert) ads /\
                handlerCalls evs = deliveries an ads.
Proof.
  induction pts as [|p pts IH]; intros an an' t evs; cbn [alertBatchPoints].
  - intros [= <- <- <-]. split; [done|]. exists []. split_and!; [cbn; lia|constructor|done].
  - destruct (determineLevel_keeps an (tf_Fields p) (b_Tags b)) as (l & ls & log & -> & Hlog).
    destruct (decide (l > NoAlert)) as [Hgt|Hle].
    + assert (forall an1 : AlertNode (F := F), handlers an1 = handlers an ->
                exists ads, (length ads <= 1)%nat /\
                  Forall (fun ad => ad_Level ad > NoAlert) ads /\
                  handlerCalls (log ++ callHandlers an1 {| ad_Level := l;
                     ad_Data := batchToResult BatchToRow b |}) = deliveries an ads) as Hsend.
      { intros an1 Hh. rewrite handlerCalls_app, Hlog. cbn [app].
        exists [{| ad_Level := l; ad_Data := batchToResult BatchToRow b |}].
        rewrite handlerCalls_callHandlers.
        split_and!; [cbn; lia|by repeat constructor|by apply deliveries_handlers]. }
      destruct (UseFlapping (a (set_levels an ls))).
      * destruct (updateFlapping (set_levels an ls) l) as [an1|] eqn:Hu; [|done]. cbn.
        apply updateFlapping_keeps in Hu as (Ha & Hh & _ & Hlen). cbn in Ha, Hh, Hlen.
        destruct (flapping an1); intros [= <- <- <-].
        -- split; [done|]. exists []. rewrite Hlog. split_and!; [cbn; lia|constructor|done].
        -- split; [done|]. by apply Hsend.
      * intros [= <- <- <-]. split; [done|]. by apply Hsend.
    + destruct (alertBatchPoints BatchToRow (set_levels an ls) b pts)
        as [[[t1 an1] evs1]|] eqn:Hrest; [|done]. cbn.
      intros [= <- <- <-]. apply IH in Hrest as (Hsame & ads & Hlen & Hlv & Hc).
      split; [done|]. exists ads. rewrite handlerCalls_app, Hlog. by split_and!.
Qed.

Lemma alertBatch_keeps : bodyKeeps (alertBatch BatchToRow).
Proof.
  intros an an' b evs. unfold alertBatch.
  destruct (alertBatchPoints BatchToRow an b (b_Points b)) as [[[t an1] evs1]|] eqn:Hp; [|done].
  cbn. apply alertBatchPoints_keeps in Hp as ((Ha & Hh & Hlen) & Hads).
  destruct (negb t && UseFlapping (a an1)).
  - destruct (updateFlapping an1 NoAlert) as [an2|] eqn:Hu; [|done]. cbn.
    apply updateFlapping_keeps in Hu as (Ha2 & Hh2 & _ & Hlen2).
    intros [= <- <-]. split; [|done]. split_and!; congruence.
  - by intros [= <- <-].
Qed.

Lemma drain_keeps {A} (body : AlertNode (F := F) -> A -> option (AlertNode * list AlertEvent))
    (items : list A) :
  bodyKeeps body ->
  forall (an an' : AlertNode (F := F)) evs,
    drain body an items = Some (an', evs) ->
    sameConfig an an' /\
    exists ads, (length ads <= length items)%nat /\
                Forall (fun ad => ad_Level ad > NoAlert) ads /\
                handlerCalls evs = deliveries an ads.
Proof.
  intros Hbody. induction items as [|x items IH]; intros an an' evs; cbn [drain].
  - intros [= <- <-]. split; [done|]. exists []. split_and!; [cbn; lia|constructor|done].
  - destruct (body an x) as [[an1 evs1]|] eqn:Hb; [|done]. cbn.
    destruct (drain body an1 items) as [[an2 evs2]|] eqn:Hd; [|done]. cbn.
    intros [= <- <-].
    apply Hbody in Hb as ((Ha & Hh & Hlen) & ads1 & Hl1 & Hlv1 & Hc1).
    apply IH in Hd as ((Ha2 & Hh2 & Hlen2) & ads2 & Hl2 & Hlv2 & Hc2).
    split; [split_and!; congruence|].
    exists (ads1 ++ ads2). rewrite length_app, handlerCalls_app, deliveries_app, Hc1, Hc2.
    split_and!; [cbn; lia|by apply Forall_app| ].
    f_equal. by apply deliveries_handlers.
Qed.

Lemma drain_app {A} (body : AlertNode (F := F) -> A -> option (AlertNode * list AlertEvent))
    (xs ys : list A) :
  forall an : AlertNode (F := F),
    drain body an (xs ++ ys)
    = '(an1, evs1) ← drain body an xs;
      '(an2, evs2) ← drain body an1 ys;
      Some (an2, evs1 ++ evs2).
Proof.
  induction xs as [|x xs IH]; intros an; cbn [app drain].
  - cbn. destruct (drain body an ys) as [[an2 evs2]|]; done.
  - destruct (body an x) as [[an1 evs1]|]; [|done]. cbn.
    rewrite IH. destruct (drain body an1 xs) as [[an2 evs2]|]; [|done]. cbn.
    destruct (drain body an2 ys) as [[an3 evs3]|]; [|done]. cbn.
    by rewrite app_assoc.
Qed.

Lemma runAlert_cons (an : AlertNode (F := F)) (in0 : Edge) (ins : list Edge) :
  runAlert BatchToRow an (in0 :: ins)
  = match Wants (a an) with
    | StreamEdge => drain (alertPoint BatchToRow) an (points in0)
    | BatchEdge => drain (alertBatch BatchToRow) an (batches in0)
    end.
Proof. unfold runAlert. by destruct (Wants (a an)). Qed.

Lemma runAlert_keeps (an an' : AlertNode (F := F)) (in0 : Edge) (ins : list Edge)
    (evs : list AlertEvent) :
  runAlert BatchToRow an (in0 :: ins) = Some (an', evs) ->
  sameConfig an an' /\
  exists ads, (length ads <= recordCount an in0)%nat /\
              Forall (fun ad => ad_Level ad > NoAlert) ads /\
              handlerCalls evs = deliveries an ads.
Proof.
  rewrite runAlert_cons. unfold recordCount. destruct (Wants (a an)).
  - apply drain_keeps, alertPoint_keeps.
  - apply drain_keeps, alertBatch_keeps.
Qed.

(** X17. A run of [runAlert] never changes the configuration of the
    node, its handlers or the length of its ring. *)
Theorem runAlert_keeps_configuration (an an' : AlertNode (F := F)) (ins : list Edge)
    (evs : list AlertEvent) :
  runAlert BatchToRow an ins = Some (an', evs) ->
  a an' = a an /\ handlers an' = handlers an /\
  length (history an') = length (history an).
Proof.
  destruct ins as [|in0 ins].
  - unfold runAlert. by destruct (Wants (a an)).
  - by intros [? _]%runAlert_keeps.
Qed.

(** X18. The handler calls of a run are the alerts it raised, each
    handed to every handler of the node in the order of registration.
    There is at most one alert per record read (per point in stream
    mode, per batch in batch mode), and each has a level above
    [NoAlert]. *)
Theorem runAlert_delivers_to_every_handler (an an' : AlertNode (F := F)) (in0 : Edge)
    (ins : list Edge) (evs : list AlertEvent) :
  runAlert BatchToRow an (in0 :: ins) = Some (an', evs) ->
  exists ads,
    handlerCalls evs = deliveries an ads /\
    (length ads <= recordCount an in0)%nat /\
    Forall (fun ad => ad_Level ad > NoAlert) ads.
Proof.
  intros (_ & ads & Hlen & Hlv & Hc)%runAlert_keeps. eauto.
Qed.

(** X19. Runs compose: reading an edge that delivers the records of
    [e1] followed by those of [e2] is reading [e1] and then, from the
    node that run leaves, reading [e2]; the traces follow one another. *)
Theorem runAlert_composes (an : AlertNode (F := F)) (e1 e2 : Edge) :
  runAlert BatchToRow an
    [{| points := points e1 ++ points e2; batches := batches e1 ++ batches e2 |}]
  = '(an1, evs1) ← runAlert BatchToRow an [e1];
    '(an2, evs2) ← runAlert BatchToRow an1 [e2];
    Some (an2, evs1 ++ evs2).
Proof.
  destruct (runAlert BatchToRow an [e1]) as [[an1 evs1]|] eqn:Hrun.
  - pose proof (proj1 (runAlert_keeps _ _ _ _ _ Hrun)) as (Ha & _).
    rewrite runAlert_cons in Hrun. cbn [mbind option_bind].
    rewrite !runAlert_cons, Ha. cbn [points batches].
    destruct (Wants (a an)); by rewrite drain_app, Hrun.
  - rewrite runAlert_cons in Hrun. rewrite runAlert_cons. cbn [points batches].
    destruct (Wants (a an)); by rewrite drain_app, Hrun.
Qed.

(** X20. On a node built by [newAlertNode], [runAlert] panics exactly
    when the node has no input edge.  With an edge it reads the first
    one only, runs to its end, keeps the invariant of the node, and
    calls handlers only with the levels INFO, WARNING and CRITICAL. *)
Theorem runAlert_panics_only_without_edge (n : pipeline_AlertNode (F := F))
    (an : AlertNode (F := F)) (ins : list Edge) :
  newAlertNode n = inl an ->
  (runAlert BatchToRow an ins = None <-> ins = []) /\
  (forall in0 rest, ins = in0 :: rest ->
     runAlert BatchToRow an ins = runAlert BatchToRow an [in0] /\
     exists an' evs,
       runAlert BatchToRow an ins = Some (an', evs) /\
       AlertNode_ok an' /\ Forall emitsAlertLevel evs).
Proof.
  intros Hnew. split.
  - destruct ins as [|in0 rest].
    + split; [done|]. intros _. unfold runAlert. by destruct (Wants (a an)).
    + destruct (runAlert_total BatchToRow n an in0 rest Hnew) as (an' & evs & -> & _).
      by split.
  - intros in0 rest ->. split.
    + by rewrite !runAlert_cons.
    + by apply (runAlert_total BatchToRow n).
Qed.

End RunFacts.

(** ** alert.go: the flap ring as a window *)

Section FlapWindow.
Context {F : Type} `{Float64 F} `{ExprPkg} `{ModelsPkg}.

Lemma flapAfter_snoc (ls : list AlertLevel) (l : AlertLevel) :
  forall an : AlertNode (F := F),
    flapAfter an (ls ++ [l]) = an1 ← flapAfter an ls; updateFlapping an1 l.
Proof.
  induction ls as [|x ls IH]; intros an; cbn [app flapAfter].
  - cbn. by destruct (updateFlapping an l).
  - destruct (updateFlapping an x) as [an1|]; [|done]. cbn. apply IH.
Qed.

(** X21. [updateFlapping] panics exactly when the ring index lies
    outside the ring; in particular it panics on the empty ring of a
    node built without flap detection. *)
Theorem updateFlapping_panics_iff (an : AlertNode (F := F)) (level : AlertLevel) :
  (updateFlapping an level = None <-> ~ (0 <= hIdx an < zlen (history an))) /\
  (history an = [] -> updateFlapping an level = None).
Proof.
  assert (updateFlapping an level = None <-> ~ (0 <= hIdx an < zlen (history an))) as Hiff.
  { split.
    - intros Hnone Hidx. by rewrite updateFlapping_total in Hnone.
    - intros Hidx. unfold updateFlapping, flapWrite, zupdate, zlen in *.
      by rewrite decide_False. }
  split; [done|]. intros Hnil. apply Hiff. rewrite Hnil. unfold zlen. cbn. lia.
Qed.

(** One tick drops the oldest entry of the ring and appends the level. *)
Lemma ringOrder_flapTick (an : AlertNode (F := F)) (v : AlertLevel) :
  0 <= hIdx an < zlen (history an) ->
  ringOrder (history (flapTick an v)) (hIdx (flapTick an v))
  = drop 1 (ringOrder (history an) (hIdx an)) ++ [v].
Proof.
  intros Hidx. unfold flapTick. cbn [history hIdx set_flap].
  rewrite ringOrder_after_write by done. unfold ringOrder, zlen in *.
  rewrite drop_app_le by (rewrite length_drop; lia).
  rewrite drop_drop, <- app_assoc. do 2 f_equal. lia.
Qed.

Lemma flapTick_index (an : AlertNode (F := F)) (v : AlertLevel) :
  0 <= hIdx an < zlen (history an) ->
  0 <= hIdx (flapTick an v) < zlen (history (flapTick an v)) /\
  length (history (flapTick an v)) = length (history an) /\
  a (flapTick an v) = a an.
Proof.
  intros Hidx. unfold flapTick, zlen in *. cbn. rewrite length_insert.
  split; [|done]. apply Z.mod_pos_bound. lia.
Qed.

Lemma flapAfter_window (ls : list AlertLevel) :
  forall an : AlertNode (F := F),
    0 <= hIdx an < zlen (history an) ->
    exists an',
      flapAfter an ls = Some an' /\
      ringOrder (history an') (hIdx an')
      = drop (length ls) (ringOrder (history an) (hIdx an) ++ ls) /\
      length (history an') = length (history an) /\
      0 <= hIdx an' < zlen (history an') /\ a an' = a an.
Proof.
  induction ls as [|v ls IH]; intros an Hidx.
  - exists an. cbn. by rewrite app_nil_r.
  - cbn [flapAfter]. rewrite updateFlapping_total by done. cbn [mbind option_bind].
    destruct (flapTick_index an v Hidx) as (Hidx1 & Hlen1 & Ha1).
    destruct (IH _ Hidx1) as (an' & -> & Hring & Hlen & Hidx' & Ha).
    exists an'. split; [done|]. split; [|split; [congruence|split; [done|congruence]]].
    rewrite Hring, ringOrder_flapTick by done. cbn [length].
    assert (ringOrder (history an) (hIdx an) <> []) as Hne.
    { intros Hnil. pose proof (zlen_ringOrder (history an) (hIdx an)) as Hl.
      rewrite Hnil in Hl. unfold zlen in *. cbn in Hl. lia. }
    destruct (ringOrder (history an) (hIdx an)) as [|o ring]; [done|].
    cbn [drop app]. by rewrite <- app_assoc.
Qed.

(** X22. The ring of flap detection is a window over the levels fed to
    [updateFlapping]: after any sequence of levels it holds, from
    oldest to newest, the last [H] entries of the previous ring followed
    by the sequence, and its length [H] never changes. *)
Theorem flap_ring_is_sliding_window (an : AlertNode (F := F)) (ls : list AlertLevel) :
  UseFlapping (a an) = true -> AlertNode_ok an ->
  exists an',
    flapAfter an ls = Some an' /\
    ringOrder (history an') (hIdx an')
    = drop (length ls) (ringOrder (history an) (hIdx an) ++ ls) /\
    length (history an') = length (history an) /\
    AlertNode_ok an'.
Proof.
  intros Hflap (Hlv & Hring & Hnf). destruct (Hring Hflap) as [Hlen Hidx].
  destruct (flapAfter_window ls an Hidx) as (an' & Hfeed & Hwin & Hl & Hidx' & Ha).
  exists an'. split_and!; [done|done|done|].
  assert (levels an' = levels an) as Hlevels.
  { clear -Hfeed. revert an Hfeed. induction ls as [|v ls IH]; intros an.
    - by intros [= <-].
    - cbn [flapAfter]. destruct (updateFlapping an v) as [an1|] eqn:Hu; [|done].
      cbn. intros Hfeed%IH. unfold updateFlapping in Hu.
      destruct (flapWrite an v) as [[hist idx]|]; [|done]. cbn in Hu.
      destruct (flapScore hist idx); [|done]. cbn in Hu. injection Hu as <-.
      by rewrite Hfeed. }
  unfold AlertNode_ok. rewrite Hlevels, Ha. split_and!; [done| |by rewrite Hflap].
  intros _. unfold zlen in *. split; [lia|done].
Qed.

(** A ring whose entries are all [v] has no changes. *)
Lemma weightedChanges_steady (v : AlertLevel) (n : nat) :
  forall changes weight step : F,
    weightedChanges v (replicate n v) changes weight step = changes.
Proof.
  induction n as [|n IH]; intros changes weight step; [done|].
  cbn [replicate weightedChanges]. rewrite decide_False by (intros Hn; by destruct Hn).
  apply IH.
Qed.

Lemma ringScore_steady (v : AlertLevel) (n : nat) :
  ringScore (F := F) (replicate (S n) v) = fdiv (fconst 0) (fofint (Z.of_nat n)).
Proof.
  unfold ringScore, zlen. cbn [replicate]. rewrite weightedChanges_steady.
  cbn [length]. rewrite length_replicate. do 2 f_equal. lia.
Qed.

(** A list whose rotation is constant is constant. *)
Lemma ringOrder_replicate (hist : list AlertLevel) (idx : Z) (v : AlertLevel) :
  ringOrder hist idx = replicate (length hist) v -> hist = replicate (length hist) v.
Proof.
  unfold ringOrder. intros Hr.
  assert (Forall (fun x => x = v) hist) as Hall.
  { rewrite <- (take_drop (Z.to_nat idx) hist). apply Forall_app.
    assert (Forall (fun x => x = v) (drop (Z.to_nat idx) hist ++ take (Z.to_nat idx) hist))
      as Hf by (rewrite Hr; apply Forall_replicate; done).
    apply Forall_app in Hf as [? ?]. by split. }
  clear Hr. induction Hall as [|x l -> Hall IH]; [done|]. cbn. by rewrite <- IH.
Qed.

(** X23. Steady input ends flapping.  When a score of zero lies below
    [flap_low] and not above [flap_high], then after [H] ticks with one
    and the same level the ring holds that level only and the node is
    not flapping, whatever the ring held before and whether or not the
    node was flapping. *)
Theorem steady_levels_clear_flapping (an : AlertNode (F := F)) (v : AlertLevel) :
  UseFlapping (a an) = true -> AlertNode_ok an ->
  flt (fdiv (fconst 0) (fofint (zlen (history an) - 1))) (FlapLow (a an)) = true ->
  flt (FlapHigh (a an)) (fdiv (fconst 0) (fofint (zlen (history an) - 1))) = false ->
  exists an',
    flapAfter an (replicate (length (history an)) v) = Some an' /\
    history an' = replicate (length (history an)) v /\
    flapping an' = false.
Proof.
  intros Hflap (_ & Hring & _) Hlow Hhigh. destruct (Hring Hflap) as [Hlen Hidx].
  unfold zlen in Hlen.
  destruct (length (history an)) as [|n] eqn:HH; [lia|].
  replace (replicate (S n) v) with (replicate n v ++ [v])
    by (rewrite <- replicate_S_end; done).
  destruct (flapAfter_window (replicate n v) an Hidx)
    as (an1 & Hfeed1 & Hwin1 & Hl1 & Hidx1 & Ha1).
  assert (flapAfter an (replicate n v ++ [v]) = updateFlapping an1 v) as ->.
  { by rewrite flapAfter_snoc, Hfeed1. }
  rewrite updateFlapping_total by done.
  exists (flapTick an1 v). split; [done|].
  assert (ringOrder (history (flapTick an1 v)) (hIdx (flapTick an1 v))
          = replicate (S n) v) as Hwin.
  { rewrite ringOrder_flapTick, Hwin1 by done. rewrite length_replicate.
    pose proof (zlen_ringOrder (history an) (hIdx an)) as Hl. unfold zlen in Hl.
    rewrite HH in Hl.
    destruct (ringOrder (history an) (hIdx an)) as [|o ring]; [cbn in Hl; lia|].
    assert (length ring = n) as Hr by (cbn in Hl; lia).
    rewrite drop_drop. replace (n + 1)%nat with (S n) by lia. cbn [drop app].
    rewrite drop_app_length' by done. by rewrite <- replicate_S_end. }
  assert (length (history (flapTick an1 v)) = S n) as Hlen'.
  { destruct (flapTick_index an1 v Hidx1) as (_ & -> & _). congruence. }
  split.
  - rewrite <- replicate_S_end, <- Hlen'.
    apply (ringOrder_replicate _ (hIdx (flapTick an1 v))). by rewrite Hlen'.
  - unfold flapTick in Hwin |- *. cbn [history hIdx flapping set_flap] in *.
    rewrite Hwin, ringScore_steady, Ha1.
    assert (zlen (history an) - 1 = Z.of_nat n) as Hz by (unfold zlen; lia).
    rewrite Hz in Hlow, Hhigh. rewrite Hlow, Hhigh. by destruct (flapping an1).
Qed.

End FlapWindow.

(** ** alert.go: the range of the flap score *)

Section FlapScoreRange.
Context `{ExprPkg} `{ModelsPkg}.
Local Open Scope Q_scope.

Lemma weightedChanges_bounds (rest : list AlertLevel) :
  forall (prev : AlertLevel) (changes weight step : Q),
    0 <= weight -> 0 <= step ->
    changes <= weightedChanges prev rest changes weight step /\
    weightedChanges prev rest changes weight step
    <= changes + maxChanges (length rest) weight step.
Proof.
  induction rest as [|c rest IH]; intros prev changes weight step Hw Hs;
    cbn [weightedChanges length maxChanges].
  - split; [apply Qle_refl|]. rewrite Qplus_0_r. apply Qle_refl.
  - assert (0 <= weight + step) as Hws.
    { rewrite <- (Qplus_0_r 0). by apply Qplus_le_compat. }
    destruct (decide (c <> prev)); cbn [fadd Q_Float64].
    + destruct (IH c (changes + weight) (weight + step) step Hws Hs) as [Hlo Hhi].
      split.
      * eapply Qle_trans; [|exact Hlo]. rewrite <- (Qplus_0_r changes) at 1.
        by apply Qplus_le_compat; [apply Qle_refl|].
      * eapply Qle_trans; [exact Hhi|]. rewrite Qplus_assoc. apply Qle_refl.
    + destruct (IH c changes (weight + step) step Hws Hs) as [Hlo Hhi].
      split; [done|]. eapply Qle_trans; [exact Hhi|].
      apply Qplus_le_compat; [apply Qle_refl|].
      rewrite <- (Qplus_0_l (maxChanges _ _ _)) at 1.
      by apply Qplus_le_compat; [|apply Qle_refl].
Qed.

Lemma maxChanges_closed (n : nat) :
  forall weight step : Q,
    maxChanges n weight step
    == inject_Z (Z.of_nat n) * weight
       + step * (inject_Z (Z.of_nat n) * (inject_Z (Z.of_nat n) - 1)) / 2.
Proof.
  induction n as [|n IH]; intros weight step; cbn [maxChanges].
  - cbn. field.
  - rewrite IH. rewrite Nat2Z.inj_succ. unfold Z.succ. rewrite inject_Z_plus.
    change (inject_Z 1) with 1. field.
Qed.

Lemma ringScore_range (ring : list AlertLevel) :
  (2 <= length ring)%nat ->
  0 <= ringScore (F := Q) ring /\ ringScore (F := Q) ring < 1.
Proof.
  destruct ring as [|oldest rest]; [cbn; lia|]. cbn [length]. intros Hlen.
  unfold ringScore, zlen. cbn [length fconst fofint fdiv fsub Q_Float64].
  replace (Z.of_nat (S (length rest)) - 1)%Z with (Z.of_nat (length rest)) by lia.
  set (N := inject_Z (Z.of_nat (length rest))).
  assert (0 < N) as HN.
  { unfold N. rewrite <- (Zlt_Qlt 0). lia. }
  assert (~ N == 0) as HN0 by (intros Hz; rewrite Hz in HN; by apply Qlt_irrefl in HN).
  set (w0 := maxWeight / weightDiff).
  set (step := (maxWeight - w0) / N).
  assert (0 <= w0) as Hw0 by (unfold w0, Qle; cbn; lia).
  assert (0 <= step) as Hstep.
  { unfold step. apply Qle_shift_div_l; [done|]. rewrite Qmult_0_l.
    unfold w0, Qle; cbn; lia. }
  destruct (weightedChanges_bounds rest oldest 0 w0 step Hw0 Hstep) as [Hlo Hhi].
  split.
  - apply Qle_shift_div_l; [done|]. by rewrite Qmult_0_l.
  - apply Qlt_shift_div_r; [done|]. rewrite Qmult_1_l.
    eapply Qle_lt_trans; [exact Hhi|].
    rewrite Qplus_0_l, maxChanges_closed. fold N.
    assert (N * w0 + step * (N * (N - 1)) / 2 == N - (1 # 5)) as ->.
    { unfold step, w0, maxWeight, weightDiff. field. done. }
    rewrite <- (Qplus_0_r N) at 2. unfold Qminus.
    apply Qplus_lt_r. reflexivity.
Qed.

(** In exact arithmetic the score of a tick lies between zero and one,
    one excluded, so that a [flap_high] of one or more never lets the
    node start flapping.  Rounding is not covered: this describes the
    algorithm, not its float64 run. *)
Theorem flap_score_below_one (an : AlertNode (F := Q)) (level : AlertLevel) :
  UseFlapping (a an) = true -> AlertNode_ok an ->
  exists p,
    tickScore an level = Some p /\ 0 <= p /\ p < 1 /\
    (1 <= FlapHigh (a an) -> flapping an = false ->
     flapping <$> updateFlapping an level = Some false).
Proof.
  intros Hflap (_ & Hring & _). destruct (Hring Hflap) as [Hlen Hidx].
  rewrite tickScore_ring by done. eexists. split; [done|].
  set (ring := ringOrder _ _).
  assert (2 <= length ring)%nat as Hl.
  { pose proof (zlen_ringOrder (<[Z.to_nat (hIdx an) := level]> (history an))
                  ((hIdx an + 1) mod zlen (history an))) as Hz.
    fold ring in Hz. unfold zlen in *. rewrite length_insert in Hz. lia. }
  destruct (ringScore_range ring Hl) as [Hlo Hhi]. split_and!; [done|done|].
  intros Hhigh Hnf. rewrite updateFlapping_total by done. cbn.
  unfold flapTick. cbn [flapping set_flap]. fold ring. rewrite Hnf. f_equal.
  cbn [flt Q_Float64]. unfold Qltb.
  assert (Qle_bool (ringScore ring) (FlapHigh (a an)) = true) as ->; [|done].
  apply Qle_bool_iff. apply Qlt_le_weak. eapply Qlt_le_trans; [exact Hhi|exact Hhigh].
Qed.

End FlapScoreRange.


(** ** Instances of the properties of whole runs and of the ring *)

(** The stream alert with flap detection reads [toyEdge]: the
    configuration, the handler and the four ring slots are kept. *)
Lemma runAlert_keeps_configuration_witness :
  exists an' evs,
    runAlert toyBatchToRow toyFlap4 [toyEdge] = Some (an', evs) /\
    a an' = a toyFlap4 /\ handlers an' = handlers toyFlap4 /\
    length (history an') = length (history toyFlap4).
Proof.
  eexists _, _. split; [reflexivity|].
  eapply (runAlert_keeps_configuration toyBatchToRow toyFlap4 _ [toyEdge]).
  reflexivity.
Defined.

(** Two points are read, one alert is raised and handed to the post
    handler. *)
Lemma runAlert_delivers_to_every_handler_witness :
  exists an' evs,
    runAlert toyBatchToRow toyFlap4 [toyEdge] = Some (an', evs) /\
    exists ads,
      handlerCalls evs = deliveries toyFlap4 ads /\
      (length ads <= recordCount toyFlap4 toyEdge)%nat /\
      Forall (fun ad => ad_Level ad > NoAlert) ads.
Proof.
  eexists _, _. split; [reflexivity|].
  eapply (runAlert_delivers_to_every_handler toyBatchToRow toyFlap4 _ toyEdge []).
  reflexivity.
Defined.

Example runAlert_delivers_example :
  (handlerCalls ∘ snd) <$> runAlert toyBatchToRow toyFlap4 [toyEdge]
  = Some [(handlePost,
           {| ad_Level := CritAlert;
              ad_Data := {| Series := [("cpu"%string, 1%nat)] |} |})].
Proof. reflexivity. Qed.

(** The node built from [toyFlapConfig] with a history of four. *)
Lemma runAlert_panics_only_without_edge_witness :
  (runAlert toyBatchToRow toyFlap4 [toyEdge] = None <-> [toyEdge] = []) /\
  (forall in0 rest, [toyEdge] = in0 :: rest ->
     runAlert toyBatchToRow toyFlap4 [toyEdge] = runAlert toyBatchToRow toyFlap4 [in0] /\
     exists an' evs,
       runAlert toyBatchToRow toyFlap4 [toyEdge] = Some (an', evs) /\
       AlertNode_ok an' /\ Forall emitsAlertLevel evs).
Proof.
  apply (runAlert_panics_only_without_edge toyBatchToRow
           (toyFlapConfig StreamEdge 4 (1 # 4)%Q (1 # 2)%Q) toyFlap4 [toyEdge]).
  reflexivity.
Defined.

(** Five levels on the fresh ring of four: the ring holds the last
    four. *)
Lemma flap_ring_is_sliding_window_witness :
  exists an',
    flapAfter toyFlap4 [CritAlert; NoAlert; CritAlert; WarnAlert; InfoAlert] = Some an' /\
    ringOrder (history an') (hIdx an')
    = drop (length [CritAlert; NoAlert; CritAlert; WarnAlert; InfoAlert])
           (ringOrder (history toyFlap4) (hIdx toyFlap4)
            ++ [CritAlert; NoAlert; CritAlert; WarnAlert; InfoAlert]) /\
    length (history an') = length (history toyFlap4) /\
    AlertNode_ok an'.
Proof.
  apply (flap_ring_is_sliding_window toyFlap4
           [CritAlert; NoAlert; CritAlert; WarnAlert; InfoAlert]);
    [reflexivity|concrete_ok].
Defined.

Example flap_ring_example :
  (fun an' => ringOrder (history an') (hIdx an'))
    <$> flapAfter toyFlap4 [CritAlert; NoAlert; CritAlert; WarnAlert; InfoAlert]
  = Some [NoAlert; CritAlert; WarnAlert; InfoAlert].
Proof. reflexivity. Qed.

(** A flapping node with an alternating ring, then four times
    [NoAlert]. *)
Lemma steady_levels_clear_flapping_witness :
  exists an',
    flapAfter toyFlapping (replicate (length (history toyFlapping)) NoAlert) = Some an' /\
    history an' = replicate (length (history toyFlapping)) NoAlert /\
    flapping an' = false.
Proof.
  apply (steady_levels_clear_flapping toyFlapping NoAlert);
    [reflexivity|concrete_ok|reflexivity|reflexivity].
Defined.

(** With [flap_high = 1] a tick on the alternating ring does not set
    the flag. *)
Lemma flap_score_below_one_witness :
  exists p,
    tickScore toyFlapHighOne CritAlert = Some p /\ (0 <= p)%Q /\ (p < 1)%Q /\
    ((1 <= FlapHigh (a toyFlapHighOne))%Q -> flapping toyFlapHighOne = false ->
     flapping <$> updateFlapping toyFlapHighOne CritAlert = Some false).
Proof.
  apply (flap_score_below_one toyFlapHighOne CritAlert); [reflexivity|concrete_ok].
Defined.

(** In binary64 the score lies in the same range on every ring of two
    to six entries, at every index, and steady input clears the flag of
    the flapping node. *)
Example binary64_score_range_small_rings :
  forallb (fun hist =>
             forallb (scoreInRangeOn (toyFlapConfig StreamEdge 0 0.25%float 0.5%float) hist)
                     (Z.of_nat <$> seq 0 (length hist)))
          (n ← [2; 3; 4; 5; 6]%nat; allRings n)
  = true /\
  flapping <$> flapAfter (set_flap toyFlap4Float [NoAlert; CritAlert; NoAlert; CritAlert] 0 true)
                         (replicate 4 NoAlert)
  = Some false.
Proof. vm_compute. done. Qed.

(** ** task.go: batching *)

Section BatchingFacts.
Context (quote : string -> string) {TimeT : Type}.

Lemma CreateDBRPMap_fold (dbrps : list DBRP) (d : DBRP) :
  forall m : gmap DBRP bool,
    foldl (fun dbMap dbrp => <[dbrp := true]> dbMap) m dbrps !! d
    = if decide (d ∈ dbrps) then Some true else m !! d.
Proof.
  induction dbrps as [|x dbrps IH]; intros m; cbn [foldl].
  - rewrite decide_False; [done|]. apply not_elem_of_nil.
  - rewrite IH. destruct (decide (d ∈ dbrps)) as [Hin|Hnin].
    + rewrite decide_True; [done|]. by right.
    + destruct (decide (d = x)) as [->|Hne].
      * rewrite lookup_insert_eq, decide_True; [done|]. by left.
      * rewrite lookup_insert_ne by done. rewrite decide_False; [done|].
        intros [?|?]%elem_of_cons; done.
Qed.

Lemma dbrpIndex_CreateDBRPMap (dbrps : list DBRP) (d : DBRP) :
  dbrpIndex (CreateDBRPMap dbrps) d = bool_decide (d ∈ dbrps).
Proof.
  unfold dbrpIndex, CreateDBRPMap. rewrite CreateDBRPMap_fold, lookup_empty.
  by destruct (decide (d ∈ dbrps));
    [rewrite bool_decide_eq_true_2|rewrite bool_decide_eq_false_2].
Qed.

(** X1. The map [CreateDBRPMap] builds holds exactly the listed pairs,
    each with the value [true]: indexing it gives [true] for a listed
    pair and [false] for any other, whatever the order and the
    repetitions of the list. *)
Theorem CreateDBRPMap_membership (dbrps : list DBRP) (d : DBRP) :
  (dbrpIndex (CreateDBRPMap dbrps) d = true <-> d ∈ dbrps) /\
  (CreateDBRPMap dbrps !! d = Some false -> False) /\
  dom (CreateDBRPMap dbrps) = list_to_set dbrps.
Proof.
  split_and!.
  - rewrite dbrpIndex_CreateDBRPMap. apply bool_decide_eq_true.
  - unfold CreateDBRPMap. rewrite CreateDBRPMap_fold, lookup_empty.
    by destruct (decide _).
  - apply set_eq. intros x. rewrite elem_of_dom, elem_of_list_to_set.
    unfold CreateDBRPMap. rewrite CreateDBRPMap_fold, lookup_empty.
    destruct (decide (x ∈ dbrps)); split; done.
Qed.

Lemma checkDBRPs_loop_None (allowed : list DBRP) (dbrps : list DBRP) :
  checkDBRPs_loop quote (CreateDBRPMap allowed) dbrps = None
  <-> Forall (fun d => d ∈ allowed) dbrps.
Proof.
  induction dbrps as [|d dbrps IH]; cbn [checkDBRPs_loop]; [by split|].
  rewrite dbrpIndex_CreateDBRPMap, Forall_cons.
  destruct (decide (d ∈ allowed)) as [Hin|Hnin].
  - rewrite bool_decide_eq_true_2 by done. cbn. rewrite IH. tauto.
  - rewrite bool_decide_eq_false_2 by done. cbn. split; [done|tauto].
Qed.

Lemma checkDBRPs_loop_first (allowed : list DBRP) (pre post : list DBRP) (d : DBRP) :
  Forall (fun d => d ∈ allowed) pre -> d ∉ allowed ->
  checkDBRPs_loop quote (CreateDBRPMap allowed) (pre ++ d :: post)
  = Some ("batch query is not allowed to request data from " +:+ DBRP_String quote d).
Proof.
  intros Hpre Hd. induction Hpre as [|x pre Hx Hpre IH]; cbn [app checkDBRPs_loop].
  - rewrite dbrpIndex_CreateDBRPMap, bool_decide_eq_false_2 by done. done.
  - rewrite dbrpIndex_CreateDBRPMap, bool_decide_eq_true_2 by done. cbn. exact IH.
Qed.

Lemma checkDBRPs_None_iff (t : Task) (batcher : SourceBatchNode (TimeT := TimeT)) :
  checkDBRPs quote t batcher = None <->
  exists dbrps, sb_DBRPs batcher = inl dbrps /\ Forall (fun d => d ∈ t_DBRPs t) dbrps.
Proof.
  unfold checkDBRPs. destruct (sb_DBRPs batcher) as [dbrps|err]; cbn.
  - rewrite checkDBRPs_loop_None. split; [by eauto|]. by intros (? & [= <-] & ?).
  - split; [done|]. by intros (? & ? & ?).
Qed.

(** X2. [checkDBRPs] returns no error exactly when the batcher reports
    its database and retention policy pairs without error and every
    pair is one of the task's.  An error of the batcher is returned as
    it is; otherwise the error names the first pair, in the batcher's
    order, that the task does not list. *)
Theorem checkDBRPs_allows_listed (t : Task) (batcher : SourceBatchNode (TimeT := TimeT)) :
  (checkDBRPs quote t batcher = None <->
   exists dbrps, sb_DBRPs batcher = inl dbrps /\ Forall (fun d => d ∈ t_DBRPs t) dbrps) /\
  (forall err, sb_DBRPs batcher = inr err -> checkDBRPs quote t batcher = Some err) /\
  (forall pre d post,
     sb_DBRPs batcher = inl (pre ++ d :: post) ->
     Forall (fun d => d ∈ t_DBRPs t) pre -> d ∉ t_DBRPs t ->
     checkDBRPs quote t batcher
     = Some ("batch query is not allowed to request data from " +:+ DBRP_String quote d)).
Proof.
  split_and!.
  - apply checkDBRPs_None_iff.
  - unfold checkDBRPs. by intros err ->.
  - unfold checkDBRPs. intros pre d post -> Hpre Hd. by apply checkDBRPs_loop_first.
Qed.

(** X3. On a task that is not a batch task, [StartBatching],
    [BatchCount] and [BatchQueries] return [ErrWrongTaskType] and touch
    nothing, whatever the source node is.  On a batch task whose source
    is not a [*SourceBatchNode] all three panic. *)
Theorem batching_wrong_task_type (t : Task) (src : SourceKind (TimeT := TimeT))
    (start stop : TimeT) :
  (t_Type t <> BatchTask ->
   StartBatching quote t src = Some ([], Some ErrWrongTaskType) /\
   BatchCount t src = Some (0, Some ErrWrongTaskType) /\
   BatchQueries quote t src start stop = Some (inr ErrWrongTaskType)) /\
  (t_Type t = BatchTask -> src = OtherSource ->
   StartBatching quote t src = None /\
   BatchCount t src = None /\
   BatchQueries quote t src start stop = None).
Proof.
  unfold StartBatching, BatchCount, BatchQueries. split.
  - intros Hne. by rewrite !decide_True.
  - intros Heq ->. by rewrite !decide_False by (intros Hn; by destruct Hn).
Qed.

(** X4. On a batch task whose source is a batcher, [StartBatching]
    starts the batcher exactly when every pair the batcher queries is
    listed by the task, and otherwise returns the error of
    [checkDBRPs] without starting it.  [BatchQueries] hands out the
    batcher's queries under the same condition and returns the same
    error otherwise, while [BatchCount] returns the count without
    looking at the pairs. *)
Theorem StartBatching_starts_iff_allowed (t : Task)
    (batcher : SourceBatchNode (TimeT := TimeT)) (start stop : TimeT) :
  t_Type t = BatchTask ->
  let allowed :=
    exists dbrps, sb_DBRPs batcher = inl dbrps /\ Forall (fun d => d ∈ t_DBRPs t) dbrps in
  let src := IsSourceBatchNode batcher in
  (StartBatching quote t src = Some ([BatcherStarted batcher], None) <-> allowed) /\
  (allowed -> BatchQueries quote t src start stop = Some (inl (sb_Queries batcher start stop))) /\
  (~ allowed -> exists err,
     checkDBRPs quote t batcher = Some err /\
     StartBatching quote t src = Some ([], Some err) /\
     BatchQueries quote t src start stop = Some (inr err)) /\
  BatchCount t src = Some (sb_Count batcher, None).
Proof.
  intros Ht. cbv zeta.
  pose proof (checkDBRPs_None_iff t batcher) as Hchk.
  unfold StartBatching, BatchQueries, BatchCount.
  rewrite !decide_False by (intros Hn; by destruct Hn).
  destruct (checkDBRPs quote t batcher) as [e|] eqn:Hc.
  - assert (~ exists dbrps, sb_DBRPs batcher = inl dbrps /\
               Forall (fun d => d ∈ t_DBRPs t) dbrps) as Hno.
    { intros Hok. apply Hchk in Hok. discriminate. }
    split_and!; [split; [done|by intros ?]|by intros ?|by eauto|done].
  - assert (exists dbrps, sb_DBRPs batcher = inl dbrps /\
               Forall (fun d => d ∈ t_DBRPs t) dbrps) as Hok by by apply Hchk.
    split_and!; [done|done|by intros ?|done].
Qed.

End BatchingFacts.

(** The pair [telegraf.default] is listed, [telegraf.longterm] is not. *)
Lemma StartBatching_starts_iff_allowed_witness :
  let t := {| t_Name := "cpu_alert"; t_Type := BatchTask;
              t_DBRPs := [{| Database := "telegraf"; RetentionPolicy := "default" |}] |} in
  let batcher := {| sb_DBRPs := inl [{| Database := "telegraf"; RetentionPolicy := "longterm" |}];
                    sb_Count := 1;
                    sb_Queries := fun (_ _ : Z) => [["SELECT 1"%string]] |} in
  exists err,
    checkDBRPs id t batcher = Some err /\
    StartBatching id t (IsSourceBatchNode batcher) = Some ([], Some err) /\
    BatchQueries id t (IsSourceBatchNode batcher) 0 1 = Some (inr err).
Proof.
  cbv zeta.
  refine (proj1 (proj2 (proj2 (StartBatching_starts_iff_allowed id _ _ 0 1 _))) _).
  - reflexivity.
  - intros (dbrps & [= <-] & Hall). apply Forall_cons in Hall as [Hin _].
    apply list_elem_of_singleton in Hin. discriminate.
Defined.

(** ** task.go: outputs *)

Section OutputFacts.
Context {Output : Type}.

(** X5. A registered output is found again under its name, a later
    registration under the same name replaces it, registrations under
    other names do not disturb it, and a name never registered gives the
    error [unknown output <name>]. *)
Theorem GetOutput_registerOutput (outputs : gmap string Output) (name name' : string)
    (o o' : Output) :
  GetOutput (registerOutput outputs name o) name = inl o /\
  GetOutput (registerOutput (registerOutput outputs name o) name o') name = inl o' /\
  (name' <> name ->
   GetOutput (registerOutput outputs name o) name' = GetOutput outputs name') /\
  (outputs !! name' = None ->
   GetOutput outputs name' = inr ("unknown output " +:+ name')) /\
  GetOutput (∅ : gmap string Output) name' = inr ("unknown output " +:+ name').
Proof.
  unfold GetOutput, registerOutput. split_and!.
  - by rewrite lookup_insert_eq.
  - by rewrite lookup_insert_eq.
  - intros Hne. by rewrite lookup_insert_ne.
  - by intros ->.
  - by rewrite lookup_empty.
Qed.

End OutputFacts.

(** ** task.go: shutdown *)

Section ShutdownFacts.
Context (nodeErr : Node -> option error).

(** The index loop of [rwalk] is the walk over the reversed nodes, and
    never leaves the slice. *)
Lemma rwalk_from_reverse {S} (f : Node -> S -> S * option error) (ns : list Node) :
  forall (k : nat) (s : S),
    (k <= length ns)%nat ->
    rwalk_from f ns k s = Some (walk_nodes f (reverse (take k ns)) s).
Proof.
  induction k as [|i IH]; intros s Hk; cbn [rwalk_from].
  - by rewrite take_0.
  - destruct (lookup_lt_is_Some_2 ns i) as [n Hn]; [lia|].
    rewrite Hn, (take_S_r _ _ _ Hn), reverse_snoc. cbn [walk_nodes].
    destruct (f n s) as [s' [e|]]; [done|]. apply IH. lia.
Qed.

(** A walk with the closure of [Err] returns the first error. *)
Lemma walk_first_error (ns : list Node) :
  walk_nodes (fun n (_ : unit) => (tt, nodeErr n)) ns tt = (tt, head (omap nodeErr ns)).
Proof.
  induction ns as [|n ns IH]; cbn; [done|].
  destruct (nodeErr n); [done|]. exact IH.
Qed.

Lemma omap_reverse {A B} (f : A -> option B) (l : list A) :
  omap f (reverse l) = reverse (omap f l).
Proof.
  induction l as [|x l IH]; [done|].
  rewrite reverse_cons, omap_app, IH. cbn [omap list_omap].
  destruct (f x); [by rewrite reverse_cons|by rewrite app_nil_r].
Qed.

(** The walk of [stop] stops every node and keeps the last error. *)
Lemma stop_walk (ns : list Node) :
  forall (evs : list StopEvent) (err : option error),
    walk_nodes (fun n '(evs, err) =>
                  let e := nodeErr n in
                  ((evs ++ [NodeStopped n],
                    match e with Some _ => e | None => err end), None))
               ns (evs, err)
    = ((evs ++ map NodeStopped ns,
        match lastError nodeErr ns with Some e => Some e | None => err end), None).
Proof.
  unfold lastError.
  induction ns as [|n ns IH]; intros evs err; cbn [walk_nodes map].
  - by rewrite app_nil_r.
  - rewrite IH, <- app_assoc. cbn [app omap list_omap]. f_equal. f_equal.
    destruct (nodeErr n) as [e|]; [|done].
    rewrite last_cons. by destruct (last _).
Qed.

(** [stop]: the channel is closed when an interval is set, then every
    node is stopped and the last error kept. *)
Lemma stop_calls (et : ExecutingTask) (c : Chan) :
  stop nodeErr et c
  = (c' ← (if decide (SnapshotInterval et > 0) then closeChan c else Some c);
     Some (c', map NodeStopped (nodes et), lastError nodeErr (nodes et))).
Proof.
  unfold stop, walk. rewrite stop_walk. cbn.
  by destruct (lastError nodeErr (nodes et)).
Qed.

(** X6. [Err] never panics and returns the error of the last node, in
    walk order, that finished with one.  [stop] stops every node, in
    walk order and whatever errors the nodes report, and returns that
    same error: the two agree. *)
Theorem stop_and_Err_return_last_error (et : ExecutingTask) (c : Chan) :
  ExecutingTask_Err nodeErr et = Some (lastError nodeErr (nodes et)) /\
  stop nodeErr et c
  = (c' ← (if decide (SnapshotInterval et > 0) then closeChan c else Some c);
     Some (c', map NodeStopped (nodes et), lastError nodeErr (nodes et))).
Proof.
  split.
  - unfold ExecutingTask_Err, rwalk. rewrite rwalk_from_reverse by lia.
    rewrite firstn_all, walk_first_error. cbn.
    by rewrite omap_reverse, head_reverse.
  - apply stop_calls.
Qed.

(** X7. With a snapshot interval set, [stop] panics on a task that was
    never started, runs once after [start], and panics when called a
    second time: the stop channel is closed twice. *)
Theorem stop_twice_panics (et : ExecutingTask) (c : Chan) :
  SnapshotInterval et > 0 ->
  stop nodeErr et ChanNil = None /\
  stop nodeErr et (start_stopSnapshotter et c)
  = Some (ChanClosed, map NodeStopped (nodes et), lastError nodeErr (nodes et)) /\
  stop nodeErr et ChanClosed = None.
Proof.
  intros Hpos. rewrite !stop_calls.
  unfold start_stopSnapshotter. by rewrite !decide_True.
Qed.

End ShutdownFacts.

(** X7's instance: the two-node task with an interval of ten. *)
Lemma stop_twice_panics_witness :
  stop toyNodeErr toyTaskTimed ChanNil = None /\
  stop toyNodeErr toyTaskTimed (start_stopSnapshotter toyTaskTimed ChanNil)
  = Some (ChanClosed, map NodeStopped (nodes toyTaskTimed),
          lastError toyNodeErr (nodes toyTaskTimed)) /\
  stop toyNodeErr toyTaskTimed ChanClosed = None.
Proof. apply (stop_twice_panics toyNodeErr toyTaskTimed ChanNil). reflexivity. Defined.

(** ** task.go: [Snapshot] and [start], continued *)

Section SnapshotFacts.
Context {EdgeT : Type}.

(** The walk of [Snapshot] fails at the first node whose [snapshot()]
    fails. *)
Lemma Snapshot_walk_error (pre post : list Node) (n : Node) (e : error) :
  Forall (fun m => exists data, snapshot m = inl data) pre -> snapshot n = inr e ->
  forall m0 : gmap string bytes,
    snd (walk_nodes (fun n (m : gmap string bytes) =>
           match snapshot n with
           | inr e => (m, Some e)
           | inl data => (<[Name n := data]> m, None)
           end) (pre ++ n :: post) m0) = Some e.
Proof.
  intros Hpre Hn. induction Hpre as [|x pre [data Hx] Hpre IH]; intros m0; cbn [app walk_nodes].
  - by rewrite Hn.
  - rewrite Hx. apply IH.
Qed.

Lemma Snapshot_walk_ok (ns : list Node) :
  Forall (fun m => exists data, snapshot m = inl data) ns ->
  forall m0 : gmap string bytes,
    snd (walk_nodes (fun n (m : gmap string bytes) =>
           match snapshot n with
           | inr e => (m, Some e)
           | inl data => (<[Name n := data]> m, None)
           end) ns m0) = None.
Proof.
  intros Hns. induction Hns as [|x ns [data Hx] Hns IH]; intros m0; cbn [walk_nodes]; [done|].
  rewrite Hx. apply IH.
Qed.

(** X8. [Snapshot] succeeds exactly when the [snapshot()] of every node
    succeeds.  Otherwise it returns the error of the first failing node
    in walk order, and no snapshot. *)
Theorem Snapshot_fails_with_first_error (et : ExecutingTask) :
  ((exists snap, Snapshot et = inl snap) <->
   Forall (fun n => exists data, snapshot n = inl data) (nodes et)) /\
  (forall pre n post e,
     nodes et = pre ++ n :: post ->
     Forall (fun m => exists data, snapshot m = inl data) pre ->
     snapshot n = inr e ->
     Snapshot et = inr e).
Proof.
  split.
  - split.
    + intros [snap Hs]. unfold Snapshot, walk in Hs.
      destruct (walk_nodes _ (nodes et) ∅) as [m [e|]] eqn:Hw; [done|].
      apply Snapshot_walk in Hw as [Hall _].
      eapply Forall_impl; [exact Hall|]. cbn. eauto.
    + intros Hall. unfold Snapshot, walk.
      pose proof (Snapshot_walk_ok _ Hall ∅) as Hw.
      destruct (walk_nodes _ (nodes et) ∅) as [m [e|]]; [done|]. eauto.
  - intros pre n post e Hnodes Hpre Hn. unfold Snapshot, walk. rewrite Hnodes.
    pose proof (Snapshot_walk_error pre post n e Hpre Hn ∅) as Hw.
    destruct (walk_nodes _ (pre ++ n :: post) ∅) as [m [e'|]]; cbn in Hw; [|done].
    congruence.
Qed.

(** X9. When several nodes carry one name, the snapshot holds a single
    entry for them, with the bytes of the last such node in walk order.
    Started with that snapshot, every node of that name receives those
    bytes, also the earlier ones. *)
Theorem Snapshot_last_write_wins (et : ExecutingTask) (ins : list EdgeT)
    (snap : TaskSnapshot) (pre post : list Node) (n : Node) :
  Snapshot et = inl snap ->
  nodes et = pre ++ n :: post ->
  Name n ∉ map Name post ->
  NodeSnapshots snap !! Name n = Some (snapshotData n) /\
  exists state,
    start et ins (Some snap) = (startCalls et ins state, None) /\
    forall m, m ∈ nodes et -> Name m = Name n -> state m = snapshotData n.
Proof.
  intros Hs Hnodes Hpost.
  assert (NodeSnapshots snap = writeSnapshots ∅ (nodes et)) as Hmap.
  { unfold Snapshot, walk in Hs.
    destruct (walk_nodes _ (nodes et) ∅) as [m [e|]] eqn:Hw; [done|].
    injection Hs as <-. by apply Snapshot_walk in Hw as [_ ->]. }
  assert (NodeSnapshots snap !! Name n = Some (snapshotData n)) as Hn.
  { rewrite Hmap, Hnodes. by apply lookup_writeSnapshots_last. }
  split; [done|].
  assert (snapshotCovers et snap) as Hc.
  { apply Forall_forall. intros m Hm. rewrite Hmap, dom_writeSnapshots.
    apply elem_of_union_r, elem_of_list_to_set, list_elem_of_fmap. eauto. }
  eexists. split.
  - rewrite start_calls. reflexivity.
  - intros m Hm Hname. cbn. rewrite decide_True by done.
    unfold mapIndex. by rewrite Hname, Hn.
Qed.

(** X10. Without a snapshot, [start] adds the input edges to the source,
    starts every node once, in walk order and with nil state, spawns the
    snapshotter only when an interval is set, and returns no error.  A
    snapshot that lacks the name of some node is the same as none. *)
Theorem start_cold (et : ExecutingTask) (ins : list EdgeT) :
  start et ins None = (startCalls et ins (fun _ => None), None) /\
  forall snap, ~ snapshotCovers et snap -> start et ins (Some snap) = start et ins None.
Proof.
  assert (start et ins None = (startCalls et ins (fun _ => None), None)) as Hcold.
  { unfold start, walk, startCalls. cbn [validSnapshot].
    rewrite (start_walk (fun _ => None)).
    case_decide; by rewrite <- ?app_assoc, ?app_nil_r. }
  split; [done|]. intros snap Hc. rewrite Hcold, start_calls.
  f_equal. unfold startCalls. f_equal. f_equal. apply map_ext. intros n.
  by rewrite decide_False.
Qed.

End SnapshotFacts.

(** The node [window2] fails after [stream0] handed out its bytes. *)
Lemma Snapshot_fails_with_first_error_example :
  Snapshot {| source := toyNodeA; nodes := [toyNodeA; toyNodeFailing; toyNodeB];
              SnapshotInterval := 0 |} = inr "not ready"%string.
Proof. reflexivity. Qed.

(** Two nodes are named [stream0]: both are restored from the bytes of
    the second. *)
Lemma Snapshot_last_write_wins_witness :
  NodeSnapshots {| NodeSnapshots := <[ "alert1"%string := toyBytes "b" ]>
                                      (<[ "stream0"%string := toyBytes "c" ]> ∅) |}
    !! Name toyNodeA' = Some (snapshotData toyNodeA') /\
  exists state,
    start toyTaskTwins [tt]
      (Some {| NodeSnapshots := <[ "alert1"%string := toyBytes "b" ]>
                                  (<[ "stream0"%string := toyBytes "c" ]> ∅) |})
    = (startCalls toyTaskTwins [tt] state, None) /\
    forall m, m ∈ nodes toyTaskTwins -> Name m = Name toyNodeA' ->
              state m = snapshotData toyNodeA'.
Proof.
  apply (Snapshot_last_write_wins toyTaskTwins [tt] _ [toyNodeA; toyNodeB] [] toyNodeA').
  - vm_compute. reflexivity.
  - reflexivity.
  - cbn. apply not_elem_of_nil.
Defined.

(** ** task.go: the snapshotter *)

Section SnapshotterFacts.
Context (SaveSnapshot : string -> TaskSnapshot -> option error).

Lemma bytesLen_nonneg (data : bytes) : 0 <= bytesLen data.
Proof. destruct data; unfold bytesLen, zlen; lia. Qed.

Lemma bytesLen_pos (data : bytes) :
  0 < bytesLen data <-> exists l, data = Some l /\ l <> [].
Proof.
  destruct data as [l|]; unfold bytesLen, zlen; split.
  - intros Hl. exists l. split; [done|]. intros ->. cbn in Hl. lia.
  - intros (l' & [= <-] & Hne). destruct l; [done|cbn; lia].
  - lia.
  - by intros (? & ? & ?).
Qed.

(** The size is positive exactly when some node handed out a byte. *)
Lemma snapshotSize_pos (snap : TaskSnapshot) :
  snapshotSize snap > 0 <-> hasContent snap.
Proof.
  unfold snapshotSize, hasContent.
  generalize (NodeSnapshots snap). intros m.
  cut (0 <= map_fold (fun (_ : string) data size => size + bytesLen data) 0 m /\
       (0 < map_fold (fun (_ : string) data size => size + bytesLen data) 0 m <->
        exists k data, m !! k = Some (Some data) /\ data <> [])).
  { intros [_ Hiff]. rewrite <- Hiff. lia. }
  apply (map_fold_weak_ind
    (fun size (m : gmap string bytes) =>
       0 <= size /\ (0 < size <-> exists k data, m !! k = Some (Some data) /\ data <> []))).
  - split; [lia|]. split; [lia|]. intros (k & data & Hk & _). by rewrite lookup_empty in Hk.
  - intros i x m' r Hi [Hr Hiff]. pose proof (bytesLen_nonneg x) as Hx.
    split; [lia|]. split.
    + intros Hpos. destruct (decide (0 < bytesLen x)) as [Hxp|Hxz].
      * apply bytesLen_pos in Hxp as (l & -> & Hne).
        exists i, l. by rewrite lookup_insert_eq.
      * assert (0 < r) as Hrp by lia. apply Hiff in Hrp as (k & data & Hk & Hne).
        exists k, data. split; [|done].
        rewrite lookup_insert_ne; [done|]. intros Heq. subst k. pose proof (eq_trans (eq_sym Hi) Hk) as Habs. discriminate Habs.
    + intros (k & data & Hk & Hne). destruct (decide (k = i)) as [->|Hki].
      * rewrite lookup_insert_eq in Hk. injection Hk as ->.
        assert (0 < bytesLen (Some data)) by (apply bytesLen_pos; eauto). lia.
      * rewrite lookup_insert_ne in Hk by done.
        assert (0 < r) by (apply Hiff; eauto). lia.
Qed.

(** One tick calls [SaveSnapshot] exactly when [Snapshot] succeeds and
    some node handed out a byte. *)
Lemma snapshotterTick_saves (name nm : string) (et : ExecutingTask) (snap : TaskSnapshot) :
  SaveCalled nm snap ∈ snapshotterTick SaveSnapshot name et
  <-> nm = name /\ Snapshot et = inl snap /\ hasContent snap.
Proof.
  unfold snapshotterTick. destruct (Snapshot et) as [s|e].
  - destruct (decide (snapshotSize s > 0)) as [Hpos|Hz].
    + apply snapshotSize_pos in Hpos. split.
      * intros [Heq|Hin]%elem_of_cons.
        -- by injection Heq as -> ->.
        -- destruct (SaveSnapshot name s); [|by apply elem_of_nil in Hin].
           apply list_elem_of_singleton in Hin. discriminate.
      * intros (-> & [= ->] & _). by left.
    + split; [by intros ?%elem_of_nil|].
      intros (_ & [= ->] & Hc). by apply snapshotSize_pos in Hc.
  - split; [|by intros (_ & ? & _)].
    intros Hin%list_elem_of_singleton. discriminate.
Qed.

(** X11. The snapshotter handles the ticks one by one until the stop
    channel is closed, and then returns: a tick whose snapshot fails, is
    empty or cannot be saved does not end the loop, and nothing is done
    for what follows the closing.  Stopped during the initial wait, it
    does nothing at all. *)
Theorem runSnapshotter_until_stop (name : string) (evs : list LoopEvent) :
  fst (runSnapshotter SaveSnapshot name true evs)
  = ticksBeforeStop evs ≫= snapshotterTick SaveSnapshot name /\
  (snd (runSnapshotter SaveSnapshot name true evs) = true <-> StopClosed ∈ evs) /\
  (forall post,
     runSnapshotter SaveSnapshot name true (evs ++ StopClosed :: post)
     = (fst (runSnapshotter SaveSnapshot name true evs), true)) /\
  runSnapshotter SaveSnapshot name false evs = ([], true).
Proof.
  unfold runSnapshotter. split_and!; [| | |done].
  - induction evs as [|[et|] evs IH]; cbn [snapshotterLoop ticksBeforeStop]; [done| |done].
    destruct (snapshotterLoop SaveSnapshot name evs) as [acts r]. cbn in *. by rewrite IH.
  - induction evs as [|[et|] evs IH]; cbn [snapshotterLoop].
    + cbn. split; [done|]. by intros ?%elem_of_nil.
    + destruct (snapshotterLoop SaveSnapshot name evs) as [acts r]. cbn in *.
      rewrite IH. split; [by right|]. by intros [?|?]%elem_of_cons.
    + cbn. split; [|done]. intros _. by left.
  - intros post. induction evs as [|[et|] evs IH]; cbn [app snapshotterLoop]; [done| |done].
    rewrite IH. by destruct (snapshotterLoop SaveSnapshot name evs).
Qed.

Lemma snapshotterLoop_saves (name nm : string) (snap : TaskSnapshot) (evs : list LoopEvent) :
  SaveCalled nm snap ∈ fst (snapshotterLoop SaveSnapshot name evs)
  <-> nm = name /\ hasContent snap /\
      exists et, et ∈ ticksBeforeStop evs /\ Snapshot et = inl snap.
Proof.
  induction evs as [|[et|] evs IH]; cbn [snapshotterLoop ticksBeforeStop].
  - cbn. split; [by intros ?%elem_of_nil|]. by intros (_ & _ & ? & ?%elem_of_nil & _).
  - destruct (snapshotterLoop SaveSnapshot name evs) as [acts r]. cbn in *.
    rewrite elem_of_app, IH, snapshotterTick_saves. split.
    + intros [(-> & Hs & Hc)|(-> & Hc & et' & Hin & Hs)].
      * split_and!; [done|done|]. exists et. split; [by left|done].
      * split_and!; [done|done|]. exists et'. split; [by right|done].
    + intros (-> & Hc & et' & Hin & Hs). apply elem_of_cons in Hin as [->|Hin].
      * by left.
      * right. eauto.
  - cbn. split; [by intros ?%elem_of_nil|]. by intros (_ & _ & ? & ?%elem_of_nil & _).
Qed.

(** X12. [SaveSnapshot] is called exactly for the ticks, before the stop
    channel is closed, at which [Snapshot] succeeds and some node handed
    out at least one byte, with the task's name and that snapshot: a
    snapshot without content is never saved. *)
Theorem runSnapshotter_saves_only_content (name nm : string) (splayElapsed : bool)
    (evs : list LoopEvent) (snap : TaskSnapshot) :
  SaveCalled nm snap ∈ fst (runSnapshotter SaveSnapshot name splayElapsed evs)
  <-> splayElapsed = true /\ nm = name /\ hasContent snap /\
      exists et, et ∈ ticksBeforeStop evs /\ Snapshot et = inl snap.
Proof.
  unfold runSnapshotter. destruct splayElapsed.
  - rewrite snapshotterLoop_saves. tauto.
  - cbn. split; [by intros ?%elem_of_nil|]. by intros (? & _).
Qed.

End SnapshotterFacts.

(** A tick on nodes without bytes saves nothing, a tick on the two-node
    task saves its snapshot, and the tick after the closing is not
    handled. *)
Example runSnapshotter_example :
  runSnapshotter (fun _ _ => None) "cpu_alert" true
    [TickerFired {| source := toyNodeEmpty; nodes := [toyNodeEmpty]; SnapshotInterval := 10 |};
     TickerFired {| source := toyNodeA; nodes := [toyNodeA; toyNodeFailing];
                    SnapshotInterval := 10 |};
     TickerFired toyTaskA; StopClosed; TickerFired toyTaskA]
  = ([SnapshotterLogged "E! failed to snapshot task cpu_alert not ready";
      SaveCalled "cpu_alert" {| NodeSnapshots := {[ "stream0"%string := toyBytes "a" ]} |}],
     true).
Proof. vm_compute. reflexivity. Qed.
